(** * barcodeozon: orders-report parsing and label annotation

    A shallow embedding of [src/App.tsx]: the regular expressions the
    program uses, run by a backtracking matcher in the order ECMAScript
    prescribes; the string primitives it calls ([substring], [trim],
    [join], [replace]); the orders parser [parseOrdersPdf]; the label
    pass [processLabelsPdf] over a page model with a media box; the
    orchestration in [handleProcess]; and the state of the page with
    its file inputs and its button.

    Strings are lists of UTF-16 code units, as JavaScript has them. *)

From Stdlib Require Import String Ascii QArith Lqa.
From Stdlib Require Import List Arith NArith Bool Lia.
Import ListNotations.

Local Close Scope Q_scope.
Local Open Scope nat_scope.

Set Implicit Arguments.

(** ** Code units and strings *)

Abbreviation char := N (only parsing).
Abbreviation jsstring := (list N) (only parsing).

(** An ASCII literal as a JavaScript string. *)
Definition lit (s : string) : jsstring :=
  List.map N_of_ascii (list_ascii_of_string s).

Definition char_eqb (a b : char) : bool := N.eqb a b.

Fixpoint jsstring_eqb (a b : jsstring) : bool :=
  match a, b with
  | [], [] => true
  | x :: a', y :: b' => char_eqb x y && jsstring_eqb a' b'
  | _, _ => false
  end.

(** ** Character classes of ECMAScript regular expressions *)

Module Cls.

Definition between (lo hi c : char) : bool := (N.leb lo c && N.leb c hi)%bool.

(** [\d] is [0-9]. *)
Definition digit (c : char) : bool := between 48%N 57%N c.

(** LineTerminator: LF, CR, LS, PS. *)
Definition line_terminator (c : char) : bool :=
  (N.eqb c 10%N || N.eqb c 13%N || N.eqb c 8232%N || N.eqb c 8233%N)%bool.

(** [\s]: WhiteSpace and LineTerminator code units. *)
Definition space (c : char) : bool :=
  (N.eqb c 9%N || N.eqb c 11%N || N.eqb c 12%N || N.eqb c 32%N || N.eqb c 160%N
   || N.eqb c 5760%N || between 8192%N 8202%N c || N.eqb c 8239%N
   || N.eqb c 8287%N || N.eqb c 12288%N || N.eqb c 65279%N
   || line_terminator c)%bool.

(** [\S]. *)
Definition nonspace (c : char) : bool := negb (space c).

(** [.] without the [s] flag: anything but a line terminator. *)
Definition dot (c : char) : bool := negb (line_terminator c).

(** [[A-Za-z0-9]]. *)
Definition alnum (c : char) : bool :=
  (between 65%N 90%N c || between 97%N 122%N c || between 48%N 57%N c)%bool.

(** [[-/]]. *)
Definition sep (c : char) : bool := (N.eqb c 45%N || N.eqb c 47%N)%bool.

(** The literal [-]. *)
Definition dash (c : char) : bool := N.eqb c 45%N.

End Cls.

(** ** String primitives *)

Fixpoint dropWhile (p : char -> bool) (s : jsstring) : jsstring :=
  match s with
  | [] => []
  | x :: t => if p x then dropWhile p t else s
  end.

Definition trimStart (s : jsstring) : jsstring := dropWhile Cls.space s.
Definition trimEnd (s : jsstring) : jsstring := rev (dropWhile Cls.space (rev s)).

(** [String.prototype.trim]. *)
Definition trim (s : jsstring) : jsstring := trimEnd (trimStart s).

(** [String.prototype.substring(a, b)] on non-negative integers: both
    ends are clamped to the length and swapped when out of order. *)
Definition substring (s : jsstring) (a b : nat) : jsstring :=
  let a' := Nat.min a (length s) in
  let b' := Nat.min b (length s) in
  let lo := Nat.min a' b' in
  let hi := Nat.max a' b' in
  firstn (hi - lo) (skipn lo s).

(** [Array.prototype.join(sep)]. *)
Fixpoint join (sp : jsstring) (l : list jsstring) : jsstring :=
  match l with
  | [] => []
  | [x] => x
  | x :: t => x ++ sp ++ join sp t
  end.

(** ** Regular expressions

    The fragment of ECMAScript patterns that occurs in the program:
    character classes, [^] and [$] (no [m] flag), sequencing, capturing
    groups, greedy and lazy quantifiers on a class, and the greedy
    optional group [(?: ... )?]. *)

Inductive regex : Type :=
| Eps
| Chr (p : char -> bool)
| Bol
| Eol
| Seq (a b : regex)
| Grp (n : nat) (a : regex)
| Rep (greedy : bool) (lo : nat) (hi : option nat) (p : char -> bool)
| Opt (a : regex).

(** Captures: group number to captured text, most recent first. *)
Definition caps := list (nat * jsstring).

Fixpoint cap_get (n : nat) (c : caps) : option jsstring :=
  match c with
  | [] => None
  | (m, s) :: t => if Nat.eqb m n then Some s else cap_get n t
  end.

Definition room (hi : option nat) : bool :=
  match hi with Some O => false | _ => true end.

Definition dec (hi : option nat) : option nat := option_map Nat.pred hi.

Section Matcher.

Variable A : Type.

(** RepeatMatcher on a one-character atom.  A greedy quantifier tries
    one more character before its continuation, a lazy one tries the
    continuation first; [lo] characters are mandatory. *)
Fixpoint rep (greedy : bool) (p : char -> bool) (lo : nat) (hi : option nat)
         (pos : nat) (rest : jsstring)
         (k : nat -> jsstring -> option A) {struct rest} : option A :=
  match lo with
  | S lo' =>
      match rest with
      | x :: t =>
          if (p x && room hi)%bool
          then rep greedy p lo' (dec hi) (S pos) t k
          else None
      | [] => None
      end
  | O =>
      if greedy then
        match
          match rest with
          | x :: t =>
              if (p x && room hi)%bool
              then rep greedy p O (dec hi) (S pos) t k
              else None
          | [] => None
          end
        with
        | Some r => Some r
        | None => k pos rest
        end
      else
        match k pos rest with
        | Some r => Some r
        | None =>
            match rest with
            | x :: t =>
                if (p x && room hi)%bool
                then rep greedy p O (dec hi) (S pos) t k
                else None
            | [] => None
            end
        end
  end.

(** The matcher in continuation-passing style: [run r pos rest c k]
    matches [r] at offset [pos], where [rest] is the input from [pos]
    on, and hands the new offset, remaining input and captures to [k];
    a [None] from [k] makes the matcher backtrack. *)
Fixpoint run (r : regex) (pos : nat) (rest : jsstring) (c : caps)
         (k : nat -> jsstring -> caps -> option A) {struct r} : option A :=
  match r with
  | Eps => k pos rest c
  | Chr p =>
      match rest with
      | x :: t => if p x then k (S pos) t c else None
      | [] => None
      end
  | Bol => if Nat.eqb pos 0 then k pos rest c else None
  | Eol => match rest with [] => k pos rest c | _ :: _ => None end
  | Seq a b =>
      run a pos rest c (fun pos' rest' c' => run b pos' rest' c' k)
  | Grp n a =>
      run a pos rest c
          (fun pos' rest' c' =>
             k pos' rest' ((n, firstn (pos' - pos) rest) :: c'))
  | Rep g lo hi p =>
      rep g p lo hi pos rest (fun pos' rest' => k pos' rest' c)
  | Opt a =>
      match run a pos rest c k with
      | Some r => Some r
      | None => k pos rest c
      end
  end.

End Matcher.

(** The result of [RegExp.prototype.exec]: [index], the offset just
    after the match, the matched text and the captures. *)
Record MatchResult : Type := mkMatch {
  m_index : nat;
  m_end : nat;
  m_text : jsstring;
  m_caps : caps
}.

(** [match[n]]; a group that did not take part reads as the empty
    string here (every group of the program's patterns takes part). *)
Definition group (n : nat) (m : MatchResult) : jsstring :=
  match cap_get n (m_caps m) with Some s => s | None => [] end.

Definition match_at (r : regex) (pos : nat) (rest : jsstring) : option MatchResult :=
  run r pos rest []
      (fun e _ c => Some (mkMatch pos e (firstn (e - pos) rest) c)).

(** The search of [exec]: try every start offset from [pos] up to and
    including the end of the input. *)
Fixpoint search (r : regex) (pos : nat) (rest : jsstring) : option MatchResult :=
  match match_at r pos rest with
  | Some m => Some m
  | None =>
      match rest with
      | [] => None
      | _ :: t => search r (S pos) t
      end
  end.

(** [str.match(r)] for a pattern without the [g] flag. *)
Definition js_match (r : regex) (s : jsstring) : option MatchResult :=
  search r 0 s.

(** [str.replace(r, '')] for a pattern without the [g] flag: the first
    match is removed. *)
Definition replace_empty (r : regex) (s : jsstring) : jsstring :=
  match js_match r s with
  | Some m => firstn (m_index m) s ++ skipn (m_end m) s
  | None => s
  end.

(** [while ((match = r.exec(s)) !== null) matches.push(...)] for a
    pattern with the [g] flag: each call searches from [lastIndex] and
    moves it to the end of the match.  [fuel] bounds the number of
    iterations; [None] is a loop that has not finished within it. *)
Fixpoint exec_loop (fuel : nat) (r : regex) (lastIndex : nat) (rest : jsstring)
  : option (list MatchResult) :=
  match search r lastIndex rest with
  | None => Some []
  | Some m =>
      match fuel with
      | O => None
      | S fuel' =>
          match exec_loop fuel' r (m_end m) (skipn (m_end m - lastIndex) rest) with
          | Some ms => Some (m :: ms)
          | None => None
          end
      end
  end.

(** ** The program's patterns *)

(** Lines 85 and 161: [/(\d{8,12}-\d{4}-\d{1,2})/] *)
Definition shippingRegex : regex :=
  Grp 1 (Seq (Rep true 8 (Some 12) Cls.digit)
        (Seq (Chr Cls.dash)
        (Seq (Rep true 4 (Some 4) Cls.digit)
        (Seq (Chr Cls.dash)
             (Rep true 1 (Some 2) Cls.digit))))).

(** The part of [rowEndRegex] after its first group, written with
    blanks between the atoms:
    [\s+ (\S+) \s+ (\d+) \s+ (\d{4}) \s* (?: \d+ \s* )? $] *)
Definition rowTail : regex :=
  Seq (Rep true 1 None Cls.space)
 (Seq (Grp 2 (Rep true 1 None Cls.nonspace))
 (Seq (Rep true 1 None Cls.space)
 (Seq (Grp 3 (Rep true 1 None Cls.digit))
 (Seq (Rep true 1 None Cls.space)
 (Seq (Grp 4 (Rep true 4 (Some 4) Cls.digit))
 (Seq (Rep true 0 None Cls.space)
 (Seq (Opt (Seq (Rep true 1 None Cls.digit) (Rep true 0 None Cls.space)))
      Eol))))))).

(** Line 107, [rowEndRegex]: the lazy group [(.*?)] followed by
    [rowTail]. *)
Definition rowEndRegex : regex :=
  Seq (Grp 1 (Rep false 0 None Cls.dot)) rowTail.

(** Line 115: [/([A-Za-z0-9]+[-/][A-Za-z0-9]+)/] *)
Definition articleRegex : regex :=
  Grp 1 (Seq (Rep true 1 None Cls.alnum)
        (Seq (Chr Cls.sep)
             (Rep true 1 None Cls.alnum))).

(** Line 125, the cleanup pattern [^ \s* \d+ \s*] (blanks added). *)
Definition leadingNumberRegex : regex :=
  Seq Bol
 (Seq (Rep true 0 None Cls.space)
 (Seq (Rep true 1 None Cls.digit)
      (Rep true 0 None Cls.space))).

(** ** The orders parser *)

Record OrderMapping : Type := mkMapping {
  shippingNumber : jsstring;
  article : jsstring;
  productName : jsstring
}.

(** An entry of [matches]: [{ number: match[1], index: match.index }]. *)
Record ShipMatch : Type := mkShip {
  number : jsstring;
  index : nat
}.

(** A non-empty string is truthy. *)
Definition truthy (s : jsstring) : bool :=
  match s with [] => false | _ :: _ => true end.

(** The [exec] loop over one page's text (lines 85 to 91). *)
Definition collectMatches (fullText : jsstring) : option (list ShipMatch) :=
  option_map (List.map (fun m => mkShip (group 1 m) (m_index m)))
             (exec_loop (S (length fullText)) shippingRegex 0 fullText).

(** The primary grammar (lines 105 to 112): [rowEndRegex], article in
    group 2 and product name in group 1, both trimmed. *)
Definition primaryGrammar (textBlock : jsstring) : option (jsstring * jsstring) :=
  match js_match rowEndRegex textBlock with
  | Some m => Some (trim (group 2 m), trim (group 1 m))
  | None => None
  end.

(** The fallback grammar (lines 113 to 122): [articleRegex], the text
    before the match, trimmed, as the product name. *)
Definition fallbackGrammar (textBlock : jsstring) : option (jsstring * jsstring) :=
  match js_match articleRegex textBlock with
  | Some m => Some (group 1 m, trim (substring textBlock 0 (m_index m)))
  | None => None
  end.

(** [article] and [productName] as they stand before the cleanup
    (lines 102 to 122): empty article and the whole block when neither
    grammar matches. *)
Definition rowFields (textBlock : jsstring) : jsstring * jsstring :=
  match primaryGrammar textBlock with
  | Some ap => ap
  | None =>
      match fallbackGrammar textBlock with
      | Some ap => ap
      | None => ([], textBlock)
      end
  end.

(** Line 125: [productName.replace(/^\s*\d+\s*/, '').trim()] *)
Definition cleanProductName (productName : jsstring) : jsstring :=
  trim (replace_empty leadingNumberRegex productName).

(** The text block of [matches[j]] (lines 97 to 100): from the end of
    the match to the start of [matches[j + 1]], or to the end of the
    text when there is no next match; trimmed. *)
Definition textBlockOf (fullText : jsstring) (currentMatch : ShipMatch)
           (nextMatch : option ShipMatch) : jsstring :=
  trim (substring fullText
          (index currentMatch + length (number currentMatch))
          (match nextMatch with
           | Some n => index n
           | None => length fullText
           end)).

(** One iteration of the loop over [matches] (lines 93 to 134);
    [matches[j + 1]] is [undefined] after the last match. *)
Definition rowStep (fullText : jsstring) (matches : list ShipMatch)
           (mappings : list OrderMapping) (j : nat) : list OrderMapping :=
  match nth_error matches j with
  | None => mappings
  | Some currentMatch =>
      let nextMatch := nth_error matches (j + 1) in
      let textBlock := textBlockOf fullText currentMatch nextMatch in
      let '(article, productName) := rowFields textBlock in
      let productName := cleanProductName productName in
      if truthy (number currentMatch)
      then mappings ++ [mkMapping (number currentMatch) article productName]
      else mappings
  end.

(** A page as the text extractor gives it: the [str] of its items,
    joined with blanks into [fullText] (line 82). *)
Definition TextPage := list jsstring.

Definition pageText (items : TextPage) : jsstring := join (lit " ") items.

(** The body of the loop over the pages of the orders document
    (lines 77 to 135); [mappings] is the array the records are pushed
    to. *)
Definition pageStep (mappings : list OrderMapping) (items : TextPage)
  : option (list OrderMapping) :=
  let fullText := pageText items in
  match collectMatches fullText with
  | None => None
  | Some matches =>
      Some (fold_left (rowStep fullText matches) (seq 0 (length matches)) mappings)
  end.

Fixpoint pagesLoop (mappings : list OrderMapping) (pages : list TextPage)
  : option (list OrderMapping) :=
  match pages with
  | [] => Some mappings
  | p :: rest =>
      match pageStep mappings p with
      | None => None
      | Some mappings' => pagesLoop mappings' rest
      end
  end.

(** [parseOrdersPdf]; [None] would be an [exec] loop that does not
    finish, which [parseOrdersPdf_total] rules out. *)
Definition parseOrdersPdf (pdf : list TextPage) : option (list OrderMapping) :=
  pagesLoop [] pdf.

(** ** The label pass

    The pages are those of pdf-lib as the program uses them: a page has
    a media box, read by [getSize] and [getMediaBox] and written by
    [setSize] and [setMediaBox], and a content stream to which
    [drawRectangle] and [drawText] append.  Page geometry is in PDF
    units; JavaScript numbers are taken as rationals, so rounding is
    left out of the model. *)

(** A media box as [getMediaBox] returns it. *)
Record MediaBox : Type := mkBox {
  box_x : Q;
  box_y : Q;
  box_width : Q;
  box_height : Q
}.

Inductive DrawOp : Type :=
| OpRectangle (x y width height : Q) (color : Q * Q * Q)
| OpText (text : jsstring) (x y size : Q) (color : Q * Q * Q).

(** A page of the document being modified: its media box and the
    drawing operators appended to its content so far. *)
Record PDFPage : Type := mkPage {
  mediaBox : MediaBox;
  drawn : list DrawOp
}.

(** The metrics of the embedded font.  The font file is fetched when
    the program runs, so its metrics are an input here. *)
Record Font : Type := mkFont {
  widthOfTextAtSize : jsstring -> Q -> Q;
  heightAtSize : Q -> Q
}.

Definition getSize (p : PDFPage) : Q * Q :=
  (box_width (mediaBox p), box_height (mediaBox p)).

(** [setSize] keeps the origin of the media box and replaces its width
    and height. *)
Definition setSize (width height : Q) (p : PDFPage) : PDFPage :=
  mkPage (mkBox (box_x (mediaBox p)) (box_y (mediaBox p)) width height) (drawn p).

Definition getMediaBox (p : PDFPage) : MediaBox := mediaBox p.

Definition setMediaBox (x y width height : Q) (p : PDFPage) : PDFPage :=
  mkPage (mkBox x y width height) (drawn p).

Definition draw (op : DrawOp) (p : PDFPage) : PDFPage :=
  mkPage (mediaBox p) (drawn p ++ [op]).

Definition fontSize : Q := 14%Q.
Definition extraHeight : Q := 25%Q.

(** The prefix of the annotation: U+0410 U+0440 U+0442, a colon and a
    space. *)
Definition artPrefix : jsstring := [1040%N; 1088%N; 1090%N; 58%N; 32%N].

Definition white : Q * Q * Q := (1%Q, 1%Q, 1%Q).
Definition black : Q * Q * Q := (0%Q, 0%Q, 0%Q).

(** The body of [if (mapping)] after [modifiedCount++] (lines 170 to
    228): what is done to the page. *)
Definition annotatePage (customFont : Font) (mapping : OrderMapping)
           (pdfPage : PDFPage) : PDFPage :=
  let '(width, height) := getSize pdfPage in
  let textToDraw := artPrefix ++ article mapping in
  let textWidth := widthOfTextAtSize customFont textToDraw fontSize in
  let textHeight := heightAtSize customFont fontSize in
  let pdfPage := setSize width (height + extraHeight)%Q pdfPage in
  let mb := getMediaBox pdfPage in
  let x := box_x mb in
  let y := box_y mb in
  let boxWidth := box_width mb in
  let boxHeight := box_height mb in
  let pdfPage := setMediaBox x (y - extraHeight)%Q boxWidth (boxHeight + extraHeight)%Q pdfPage in
  let newBottomY := (y - extraHeight)%Q in
  let xPos := ((width - textWidth) / 2)%Q in
  let yPos := (newBottomY + 5)%Q in
  let pdfPage :=
    draw (OpRectangle (xPos - 5)%Q (yPos - 2)%Q (textWidth + 10)%Q (textHeight + 4)%Q white)
         pdfPage in
  draw (OpText textToDraw xPos yPos fontSize black) pdfPage.

(** Line 166: [mappings.find(m => m.shippingNumber === shippingNumber)] *)
Definition findMapping (mappings : list OrderMapping) (wanted : jsstring)
  : option OrderMapping :=
  find (fun m => jsstring_eqb (shippingNumber m) wanted) mappings.

(** The mapping of a label page (lines 161 to 166), when its text has
    a shipment number and the first one is in the table. *)
Definition resolvePage (mappings : list OrderMapping) (items : TextPage)
  : option OrderMapping :=
  match js_match shippingRegex (pageText items) with
  | Some m => findMapping mappings (group 1 m)
  | None => None
  end.

Inductive Error : Type :=
| MissingInput        (* both files are asked for *)
| NoRecordsExtracted  (* no orders data found in the list file *)
| NoMatchesFound      (* no shipment number common to both files *)
| PageOutOfRange.     (* getPage on an index the document lacks *)

(** The state of the loop of [processLabelsPdf]. *)
Record LabelState : Type := mkState {
  pdfDoc : list PDFPage;
  modifiedCount : nat;
  pagesRead : list nat
}.

Fixpoint setNth (A : Type) (i : nat) (v : A) (l : list A) : list A :=
  match l, i with
  | [], _ => []
  | _ :: t, O => v :: t
  | x :: t, S i' => x :: setNth i' v t
  end.

(** One iteration for page [i] (zero-based) with text [items] (lines
    155 to 231); [pagesRead] records that the page was read.  When
    [getPage] throws, the pages read so far are those up to [i]. *)
Definition labelStep (customFont : Font) (mappings : list OrderMapping)
           (st : LabelState) (i : nat) (items : TextPage)
  : Error * list nat + LabelState :=
  let st := mkState (pdfDoc st) (modifiedCount st) (pagesRead st ++ [i]) in
  match resolvePage mappings items with
  | Some mapping =>
      match nth_error (pdfDoc st) i with
      | Some pdfPage =>
          inr (mkState (setNth i (annotatePage customFont mapping pdfPage) (pdfDoc st))
                       (S (modifiedCount st))
                       (pagesRead st))
      | None => inl (PageOutOfRange, pagesRead st)
      end
  | None => inr st
  end.

Fixpoint labelLoop (customFont : Font) (mappings : list OrderMapping)
         (st : LabelState) (i : nat) (pages : list TextPage)
  : Error * list nat + LabelState :=
  match pages with
  | [] => inr st
  | items :: rest =>
      match labelStep customFont mappings st i items with
      | inl e => inl e
      | inr st' => labelLoop customFont mappings st' (S i) rest
      end
  end.

(** [processLabelsPdf] (lines 140 to 238): [pdfjsDoc] is the text of
    the pages, [doc] the same file as loaded for modification.  The
    result is the document handed to [save], or the error thrown, with
    the list of label pages that were read. *)
Definition processLabelsPdf (customFont : Font) (pdfjsDoc : list TextPage)
           (doc : list PDFPage) (mappings : list OrderMapping)
  : (Error + list PDFPage) * list nat :=
  match labelLoop customFont mappings (mkState doc 0 []) 0 pdfjsDoc with
  | inl (e, read) => (inl e, read)
  | inr st =>
      if Nat.eqb (modifiedCount st) 0
      then (inl NoMatchesFound, pagesRead st)
      else (inr (pdfDoc st), pagesRead st)
  end.

(** ** The whole run *)

(** A labels file: each page with its text and its geometry. *)
Record LabelPage : Type := mkLabelPage {
  lp_items : TextPage;
  lp_page : PDFPage
}.

(** What a run leaves behind: an error message or the downloaded
    document, and the label pages read on the way. *)
Record Run : Type := mkRun {
  outcome : Error + list PDFPage;
  labelPagesRead : list nat
}.

(** [handleProcess] (lines 28 to 71) when every [await] delivers, on
    what the awaits deliver: the text of the orders document, the text
    and the pages of the labels document and the metrics of the font.
    A missing file, an empty mapping table and the errors of the label
    pass end the run.  The run in which an [await] is rejected is
    [handleProcess_try] below. *)
Definition handleProcess (customFont : Font)
           (ordersFile : option (list TextPage))
           (labelsFile : option (list LabelPage)) : option Run :=
  match ordersFile, labelsFile with
  | Some orders, Some labels =>
      match parseOrdersPdf orders with
      | None => None
      | Some mappings =>
          if Nat.eqb (length mappings) 0
          then Some (mkRun (inl NoRecordsExtracted) [])
          else
            let '(res, read) :=
              processLabelsPdf customFont (List.map lp_items labels)
                               (List.map lp_page labels) mappings in
            Some (mkRun res read)
      end
  | _, _ => Some (mkRun (inl MissingInput) [])
  end.

(** ** What a run awaits

    The files are read and loaded and the font is fetched and embedded
    while the program runs (lines 40, 41, 48, 51, 74 to 79 and 142 to
    157), and the document is saved at the end (line 237).  Each of
    these can be rejected; the rejection is caught with the program's
    own errors (lines 65 to 67) and its message is shown. *)

(** What the error box shows: the message of one of the program's
    errors, or the message of another failure caught on the way (a
    file that cannot be read, a font that cannot be fetched). *)
Inductive Failure : Type :=
| Own (e : Error)
| Other.

(** What the awaits of one run deliver: whether the orders file is
    read and its text extracted; whether the labels file is read,
    loaded by both libraries and its text extracted; the metrics of the
    font when it is fetched and embedded; whether the document is
    saved. *)
Record Awaits : Type := mkAwaits {
  ordersDelivered : bool;
  labelsDelivered : bool;
  fontDelivered : option Font;
  saveDelivered : bool
}.

(** The [try] block of [handleProcess] (lines 38 to 64) with its
    awaits, in the order of the code: the orders are parsed and the
    table is checked before the labels file is touched, the labels
    document is loaded and the font fetched before the first label page
    is annotated, and the document is saved after the check of
    [modifiedCount].  The result is the document downloaded, or what
    [catch] shows. *)
Definition handleProcess_try (env : Awaits)
           (orders : list TextPage) (labels : list LabelPage)
  : option (Failure + list PDFPage) :=
  if negb (ordersDelivered env) then Some (inl Other)
  else
    match parseOrdersPdf orders with
    | None => None
    | Some mappings =>
        if Nat.eqb (length mappings) 0
        then Some (inl (Own NoRecordsExtracted))
        else if negb (labelsDelivered env) then Some (inl Other)
        else
          match fontDelivered env with
          | None => Some (inl Other)
          | Some customFont =>
              match fst (processLabelsPdf customFont (List.map lp_items labels)
                                          (List.map lp_page labels) mappings) with
              | inl e => Some (inl (Own e))
              | inr doc =>
                  if saveDelivered env then Some (inr doc) else Some (inl Other)
              end
          end
    end.

(** ** The page: its state, the file inputs and the button

    The component keeps five values (lines 22 to 26).  A file input
    replaces its file (lines 269 and 294).  The button calls
    [handleProcess] unless it is disabled (lines 321 to 324).  The
    handler is asynchronous: the part before its first [await] (lines
    29 to 36) runs on the click, the rest (lines 38 to 70) when the
    work is done, on the files the handler was started with.  A value
    set by a handler is in place when the next event is handled. *)

(** The five values of the component, and around them the handlers
    that have not settled yet, each with the files it was started
    with, and the documents downloaded so far. *)
Record AppState : Type := mkApp {
  ordersFile : option (list TextPage);
  labelsFile : option (list LabelPage);
  isProcessing : bool;
  error : option Failure;
  success : bool;
  running : list (list TextPage * list LabelPage);
  downloaded : list (list PDFPage)
}.

Definition setOrdersFile (f : option (list TextPage)) (st : AppState) : AppState :=
  mkApp f (labelsFile st) (isProcessing st) (error st) (success st)
        (running st) (downloaded st).

Definition setLabelsFile (f : option (list LabelPage)) (st : AppState) : AppState :=
  mkApp (ordersFile st) f (isProcessing st) (error st) (success st)
        (running st) (downloaded st).

Definition setIsProcessing (b : bool) (st : AppState) : AppState :=
  mkApp (ordersFile st) (labelsFile st) b (error st) (success st)
        (running st) (downloaded st).

Definition setError (e : option Failure) (st : AppState) : AppState :=
  mkApp (ordersFile st) (labelsFile st) (isProcessing st) e (success st)
        (running st) (downloaded st).

Definition setSuccess (b : bool) (st : AppState) : AppState :=
  mkApp (ordersFile st) (labelsFile st) (isProcessing st) (error st) b
        (running st) (downloaded st).

Definition setRunning (r : list (list TextPage * list LabelPage)) (st : AppState)
  : AppState :=
  mkApp (ordersFile st) (labelsFile st) (isProcessing st) (error st) (success st)
        r (downloaded st).

(** Lines 54 to 62: the document is handed to the browser. *)
Definition download (doc : list PDFPage) (st : AppState) : AppState :=
  mkApp (ordersFile st) (labelsFile st) (isProcessing st) (error st) (success st)
        (running st) (downloaded st ++ [doc]).

(** Line 323: [disabled={!ordersFile || !labelsFile || isProcessing}] *)
Definition buttonDisabled (st : AppState) : bool :=
  match ordersFile st, labelsFile st with
  | Some _, Some _ => isProcessing st
  | _, _ => true
  end.

(** [handleProcess] up to its first [await] (lines 29 to 36). *)
Definition handleProcess_start (st : AppState) : AppState :=
  match ordersFile st, labelsFile st with
  | Some orders, Some labels =>
      setRunning (running st ++ [(orders, labels)])
        (setSuccess false (setError None (setIsProcessing true st)))
  | _, _ => setError (Some (Own MissingInput)) st
  end.

(** The rest of [handleProcess] (lines 38 to 70) for a handler started
    with [orders] and [labels]: the download and the success message,
    or the message of the error caught; then [finally]. *)
Definition handleProcess_settle (customFont : Font)
           (orders : list TextPage) (labels : list LabelPage)
           (st : AppState) : AppState :=
  match handleProcess customFont (Some orders) (Some labels) with
  | Some run =>
      match outcome run with
      | inr doc => setIsProcessing false (setSuccess true (download doc st))
      | inl e => setIsProcessing false (setError (Some (Own e)) st)
      end
  | None => st
  end.

(** What can happen to the page. *)
Inductive Event : Type :=
| ChooseOrders (file : option (list TextPage))
| ChooseLabels (file : option (list LabelPage))
| ClickProcess
| Settle    (* the oldest running handler comes to its end *)
| Reject.   (* the oldest running handler is ended by another failure *)

Definition step (customFont : Font) (st : AppState) (ev : Event) : AppState :=
  match ev with
  | ChooseOrders file => setOrdersFile file st
  | ChooseLabels file => setLabelsFile file st
  | ClickProcess => if buttonDisabled st then st else handleProcess_start st
  | Settle =>
      match running st with
      | [] => st
      | (orders, labels) :: rest =>
          handleProcess_settle customFont orders labels (setRunning rest st)
      end
  | Reject =>
      match running st with
      | [] => st
      | _ :: rest =>
          setIsProcessing false (setError (Some Other) (setRunning rest st))
      end
  end.

(** The page as it is first rendered. *)
Definition initialState : AppState := mkApp None None false None false [] [].

(** An event of a file input. *)
Definition isChoice (ev : Event) : bool :=
  match ev with
  | ChooseOrders _ | ChooseLabels _ => true
  | _ => false
  end.

Unset Implicit Arguments.

(** * Vocabulary of the properties *)

(** ** Paths through a pattern *)

(** [n] repetitions are within the upper bound [hi]. *)
Definition fits (hi : option nat) (n : nat) : Prop :=
  match hi with Some h => n <= h | None => True end.

(** [Matches r pos w rest c c']: the pattern [r], entered at offset
    [pos] with captures [c], can consume [w] in front of [rest] and
    leave the captures [c'].  This is one path through the pattern,
    without the order in which the matcher tries the paths. *)
Inductive Matches : regex -> nat -> jsstring -> jsstring -> caps -> caps -> Prop :=
| M_Eps pos rest c : Matches Eps pos [] rest c c
| M_Chr p x pos rest c : p x = true -> Matches (Chr p) pos [x] rest c c
| M_Bol rest c : Matches Bol 0 [] rest c c
| M_Eol pos c : Matches Eol pos [] [] c c
| M_Seq a b pos w1 w2 rest c c1 c2 :
    Matches a pos w1 (w2 ++ rest) c c1 ->
    Matches b (pos + length w1) w2 rest c1 c2 ->
    Matches (Seq a b) pos (w1 ++ w2) rest c c2
| M_Grp n a pos w rest c c1 :
    Matches a pos w rest c c1 ->
    Matches (Grp n a) pos w rest c ((n, w) :: c1)
| M_Rep g lo hi p pos w rest c :
    forallb p w = true -> lo <= length w -> fits hi (length w) ->
    Matches (Rep g lo hi p) pos w rest c c
| M_Opt_some a pos w rest c c1 :
    Matches a pos w rest c c1 -> Matches (Opt a) pos w rest c c1
| M_Opt_none a pos rest c : Matches (Opt a) pos [] rest c c.

(** ** Shapes of the text *)

(** No character of class [p] follows. *)
Definition stops (p : char -> bool) (suf : jsstring) : Prop :=
  match suf with [] => True | x :: _ => p x = false end.

(** Every character of [s] is of class [p]. *)
Definition all (p : char -> bool) (s : jsstring) : Prop := forallb p s = true.

(** The words of the shipment-number pattern: 8 to 12 digits, a
    hyphen, 4 digits, a hyphen, 1 or 2 digits. *)
Definition shipment_shape (s : jsstring) : Prop :=
  exists d1 d2 d3,
    s = d1 ++ 45%N :: d2 ++ 45%N :: d3 /\
    all Cls.digit d1 /\ 8 <= length d1 <= 12 /\
    all Cls.digit d2 /\ length d2 = 4 /\
    all Cls.digit d3 /\ 1 <= length d3 <= 2.

(** The row of the spec's test, after the shipment number. *)
Definition sampleRowTail : jsstring := lit " ProductName F/034 1 1785".

(** No shipment-shaped word starts at the head of [t]. *)
Definition no_shipment_here (t : jsstring) : Prop :=
  forall w r, t = w ++ r -> ~ shipment_shape w.

(** [Scan pos t ms]: [ms] are the shipment numbers of [t] in scan
    order, [t] being the text from offset [pos] on.  Each is the first
    shipment-shaped word to start after the end of the one before, and
    is as long as the text allows. *)
Inductive Scan : nat -> jsstring -> list ShipMatch -> Prop :=
| Scan_done pos t :
    (forall s1 s2, t = s1 ++ s2 -> no_shipment_here s2) ->
    Scan pos t []
| Scan_hit pos skipped w rest ms :
    shipment_shape w ->
    (forall s1 s2, skipped = s1 ++ s2 -> s2 <> [] ->
                   no_shipment_here (s2 ++ w ++ rest)) ->
    (forall x r, rest = x :: r -> ~ shipment_shape (w ++ [x])) ->
    Scan (pos + length skipped + length w) rest ms ->
    Scan pos (skipped ++ w ++ rest) (mkShip w (pos + length skipped) :: ms).

(** The entry pushed to [matches] for a match. *)
Definition toShip (m : MatchResult) : ShipMatch := mkShip (group 1 m) (m_index m).

(** The part of [t] between the offsets [a] and [b]. *)
Definition slice (t : jsstring) (a b : nat) : jsstring :=
  firstn (b - a) (skipn a t).

(** The matches lie in the text one after the other, starting no
    earlier than [from]. *)
Fixpoint placed (len from : nat) (ms : list ShipMatch) : Prop :=
  match ms with
  | [] => from <= len
  | m :: rest =>
      from <= index m /\ placed len (index m + length (number m)) rest
  end.

(** The raw text blocks of the matches [ms] of the text [t]: from the
    end of a match to the start of the next, or to the end of [t]. *)
Fixpoint blocksOf (t : jsstring) (ms : list ShipMatch) : list jsstring :=
  match ms with
  | [] => []
  | m :: rest =>
      slice t (index m + length (number m))
            (match rest with n :: _ => index n | [] => length t end)
      :: blocksOf t rest
  end.

(** The record of a match and its raw text block. *)
Definition recordOf (mb : ShipMatch * jsstring) : OrderMapping :=
  let block := trim (snd mb) in
  mkMapping (number (fst mb))
            (fst (rowFields block))
            (cleanProductName (snd (rowFields block))).

(** The matches of a text; the loop always finishes. *)
Definition matchesOf (fullText : jsstring) : list ShipMatch :=
  match collectMatches fullText with Some ms => ms | None => [] end.

(** The records of one page. *)
Definition pageRecords (items : TextPage) : list OrderMapping :=
  let t := pageText items in
  List.map recordOf (combine (matchesOf t) (blocksOf t (matchesOf t))).

(** The records of a text. *)
Definition textRecords (t : jsstring) : list OrderMapping :=
  List.map recordOf (combine (matchesOf t) (blocksOf t (matchesOf t))).

(** A character that can stand in a shipment number. *)
Definition shipchar (c : char) : bool := (Cls.digit c || Cls.dash c)%bool.

(** The text is empty or ends with a character that cannot stand in a
    shipment number. *)
Definition boundary (t : jsstring) : bool :=
  match rev t with
  | [] => true
  | c :: _ => negb (shipchar c)
  end.

(** The matches [ms], their indices moved by [k]. *)
Definition shift (k : nat) (ms : list ShipMatch) : list ShipMatch :=
  List.map (fun m => mkShip (number m) (k + index m)) ms.

(** The shipment number [s] is listed in the orders document: it is
    one of the matches of some page. *)
Definition listed (pdf : list TextPage) (s : jsstring) : Prop :=
  exists items ms,
    In items pdf /\ Scan 0 (pageText items) ms /\ In s (List.map number ms).

(** A label page resolves against the orders document: its text has a
    shipment number, and the first of them is listed. *)
Definition resolves (orders : list TextPage) (items : TextPage) : Prop :=
  exists m ms, Scan 0 (pageText items) (m :: ms) /\ listed orders (number m).

(** ** The label pass and the geometry *)

(** What the loop does to one page. *)
Definition annotateIfResolved (customFont : Font) (mappings : list OrderMapping)
           (items : TextPage) (page : PDFPage) : PDFPage :=
  match resolvePage mappings items with
  | Some mapping => annotatePage customFont mapping page
  | None => page
  end.

Definition resolved (mappings : list OrderMapping) (items : TextPage) : bool :=
  match resolvePage mappings items with Some _ => true | None => false end.

(** ** The page *)

(** What holds of the page after any events. *)
Definition pageInvariant (st : AppState) : Prop :=
  (isProcessing st = true <-> running st <> []) /\
  length (running st) <= 1 /\
  error st <> Some (Own MissingInput) /\
  error st <> Some (Own PageOutOfRange) /\
  ~ (error st <> None /\ success st = true) /\
  (isProcessing st = true -> error st = None /\ success st = false).

(** ** Runs and words *)

(** The longest prefix of [s] in class [p]. *)
Fixpoint takeWhile (p : char -> bool) (s : jsstring) : jsstring :=
  match s with
  | [] => []
  | x :: t => if p x then x :: takeWhile p t else []
  end.

Definition starts_with (p : char -> bool) (s : jsstring) : bool :=
  match s with x :: _ => p x | [] => false end.

Definition ends_with (p : char -> bool) (s : jsstring) : bool :=
  starts_with p (rev s).

(** The last line of a text: what follows its last line terminator. *)
Definition lastLine (s : jsstring) : jsstring :=
  rev (takeWhile Cls.dot (rev s)).

(** One leading number removed: optional whitespace, a run of digits,
    optional whitespace.  Without a digit after the leading whitespace
    the text is left as it is. *)
Definition stripLeadingNumber (s : jsstring) : jsstring :=
  if starts_with Cls.digit (dropWhile Cls.space s)
  then dropWhile Cls.space (dropWhile Cls.digit (dropWhile Cls.space s))
  else s.

(** An article-shaped token: alphanumerics, a hyphen or slash,
    alphanumerics. *)
Definition article_shape (w : jsstring) : Prop :=
  exists a x b,
    w = a ++ x :: b /\ all Cls.alnum a /\ a <> [] /\
    Cls.sep x = true /\ all Cls.alnum b /\ b <> [].

(** No article-shaped token starts at the head of [t]. *)
Definition no_article_here (t : jsstring) : Prop :=
  forall w r, t = w ++ r -> ~ article_shape w.

(** The words of a text: its maximal runs of characters that are not
    whitespace. *)
Fixpoint words (s : jsstring) : list jsstring :=
  match s with
  | [] => []
  | x :: t =>
      if Cls.space x then words t
      else if starts_with Cls.nonspace t
           then match words t with
                | w :: ws => (x :: w) :: ws
                | [] => [[x]]
                end
           else [x] :: words t
  end.

(** The optional carry-over number at the end of a row. *)
Definition opt_shape (opt : jsstring) : Prop :=
  opt = [] \/
  exists n ws5, opt = n ++ ws5 /\ all Cls.digit n /\ n <> [] /\ all Cls.space ws5.

(** The end of a row as [rowTail] reads it: whitespace, the article
    token, whitespace, the quantity, whitespace, four digits, optional
    whitespace and the optional carry-over number. *)
Definition row_tail_shape (tok q d4 R : jsstring) : Prop :=
  exists ws1 ws2 ws3 ws4 opt,
    R = ws1 ++ tok ++ ws2 ++ q ++ ws3 ++ d4 ++ ws4 ++ opt /\
    all Cls.space ws1 /\ ws1 <> [] /\
    all Cls.nonspace tok /\ tok <> [] /\
    all Cls.space ws2 /\ ws2 <> [] /\
    all Cls.digit q /\ q <> [] /\
    all Cls.space ws3 /\ ws3 <> [] /\
    all Cls.digit d4 /\ length d4 = 4 /\
    all Cls.space ws4 /\ opt_shape opt.

(** ** Tactics *)

(** Take a path through a fixed pattern apart. *)
Ltac invert_path :=
  repeat match goal with
         | H : Matches (Grp _ _) _ _ _ _ _ |- _ => inversion H; clear H; subst
         | H : Matches (Seq _ _) _ _ _ _ _ |- _ => inversion H; clear H; subst
         | H : Matches (Chr _) _ _ _ _ _ |- _ => inversion H; clear H; subst
         | H : Matches (Rep _ _ _ _) _ _ _ _ _ |- _ => inversion H; clear H; subst
         | H : Matches Eol _ _ _ _ _ |- _ => inversion H; clear H; subst
         | H : Matches Bol _ _ _ _ _ |- _ => inversion H; clear H; subst
         | H : Matches (Opt _) _ _ _ _ _ |- _ => inversion H; clear H; subst
         end.

(** Every way to cut the left side of [E] in two, the second part not empty, handled by
    [tac] once the parts are known. *)
Ltac each_split E tac :=
  lazymatch type of E with
  | _ = ?s1 ++ ?s2 =>
      destruct s1 as [|? s1]; simpl in E;
      [ subst s2; first [ congruence | tac ]
      | first [ discriminate E
              | injection E as ? E; subst; each_split E tac ] ]
  end.

(** ** Sample inputs *)

Definition sampleNumber : jsstring := lit "0149711785-0110-1".

(** A font of height 16 at the annotation size, seven units a
    character. *)
Definition sampleFont : Font :=
  mkFont (fun text size => (7 # 1) * inject_Z (Z.of_nat (length text)))%Q
         (fun size => 16%Q).



Definition samplePage : PDFPage := mkPage (mkBox 0 0 212 340)%Q [].


(** A row whose product name begins with two numbers. *)
Definition twoNumbersPage : TextPage :=
  [lit "0149711785-0110-1 12 34 abc F/034 1 1785"].

(** Two pages that list the same shipment number with two articles. *)
Definition repeatedNumberPdf : list TextPage :=
  [[lit "0149711785-0110-1 Name F/034 1 1785"];
   [lit "0149711785-0110-1 Other G/001 1 1785"]].

Definition firstRecord : OrderMapping :=
  mkMapping sampleNumber (lit "F/034") (lit "Name").

Definition laterRecord : OrderMapping :=
  mkMapping sampleNumber (lit "G/001") (lit "Other").

(** The product name "Detal pod pokrasku" in Cyrillic: its first two
    words, and its last word. *)
Definition nameStart : jsstring :=
  [1044; 1077; 1090; 1072; 1083; 1100; 32; 1087; 1086; 1076]%N.

Definition lastWord : jsstring :=
  [1087; 1086; 1082; 1088; 1072; 1089; 1082; 1091]%N.

(** The orders page and the label page of the end-to-end scenario:
    "Detal pod pokrasku" in Cyrillic, article F/034. *)
Definition scenarioOrders : list TextPage :=
  [[sampleNumber;
    [1044; 1077; 1090; 1072; 1083; 1100]%N; [1087; 1086; 1076]%N;
    [1087; 1086; 1082; 1088; 1072; 1089; 1082; 1091]%N;
    lit "F/034"; lit "1"; lit "1785"]].

Definition scenarioLabels : list LabelPage :=
  [mkLabelPage [lit "Ozon"; sampleNumber] samplePage].

(** Two rows of a report: the first up to the blank in front of the
    second, and the second. *)
Definition firstRowText : jsstring := lit "0149711785-0110-1 Name F/034 1 1785 ".

Definition secondRowText : jsstring := lit "0149711786-0111-2 Other G/001 2 1786".

(** * Properties *)

(** ** The matcher *)

Lemma fits_dec_S hi n : room hi = true -> fits (dec hi) n -> fits hi (S n).
Proof.
  destruct hi as [[|h]|]; simpl; intros; try discriminate; auto; lia.
Qed.

Lemma fits_S_room hi n : fits hi (S n) -> room hi = true /\ fits (dec hi) n.
Proof.
  destruct hi as [[|h]|]; simpl; intros; split; auto; lia.
Qed.

Section RepFacts.

Variable A : Type.
Implicit Types (k : nat -> jsstring -> option A) (p : char -> bool).

(** Whatever [rep] returns comes from its continuation, after a run
    of [p] characters of an allowed length. *)
Lemma rep_sound g p lo hi pos rest k r :
  rep g p lo hi pos rest k = Some r ->
  exists pre suf,
    rest = pre ++ suf /\ forallb p pre = true /\
    lo <= length pre /\ fits hi (length pre) /\
    k (pos + length pre) suf = Some r.
Proof.
  revert lo hi pos.
  induction rest as [|x t IH]; intros lo hi pos H.
  - destruct lo; simpl in H; [|discriminate].
    exists [], []. rewrite Nat.add_0_r.
    repeat split; simpl; auto; try lia.
    + destruct hi; simpl; auto; lia.
    + destruct g; auto. destruct (k pos []); auto.
  - assert (Hmore : forall lo',
               lo' <= lo ->
               (if (p x && room hi)%bool then rep g p lo' (dec hi) (S pos) t k else None) = Some r ->
               exists pre suf,
                 x :: t = pre ++ suf /\ forallb p pre = true /\
                 S lo' <= length pre /\ fits hi (length pre) /\
                 k (pos + length pre) suf = Some r).
    { intros lo' _ Hm.
      destruct (p x) eqn:Hp; simpl in Hm; [|discriminate].
      destruct (room hi) eqn:Hr; [|discriminate].
      apply IH in Hm. destruct Hm as (pre & suf & -> & Hall & Hlo & Hhi & Hk).
      exists (x :: pre), suf. simpl. rewrite Hp, Hall.
      repeat split; auto; try lia.
      - apply fits_dec_S; auto.
      - rewrite <- Hk. f_equal. lia. }
    assert (Hstop : k pos (x :: t) = Some r ->
               exists pre suf,
                 x :: t = pre ++ suf /\ forallb p pre = true /\
                 0 <= length pre /\ fits hi (length pre) /\
                 k (pos + length pre) suf = Some r).
    { intros Hk. exists [], (x :: t). rewrite Nat.add_0_r.
      repeat split; simpl; auto. destruct hi; simpl; auto; lia. }
    destruct lo as [|lo'].
    + simpl in H. destruct g.
      * destruct (if (p x && room hi)%bool then rep true p 0 (dec hi) (S pos) t k else None) eqn:E.
        -- inversion H; subst. destruct (Hmore 0) as (pre & suf & ? & ? & ? & ? & ?); auto.
           exists pre, suf. repeat split; auto; lia.
        -- auto.
      * destruct (k pos (x :: t)) eqn:E.
        -- inversion H; subst. auto.
        -- destruct (Hmore 0) as (pre & suf & ? & ? & ? & ? & ?); auto.
           exists pre, suf. repeat split; auto; lia.
    + simpl in H. apply (Hmore lo'); auto.
Qed.

(** If some allowed run of [p] characters leads to a continuation
    that succeeds, [rep] succeeds. *)
Lemma rep_complete g p lo hi pos pre suf k :
  forallb p pre = true -> lo <= length pre -> fits hi (length pre) ->
  k (pos + length pre) suf <> None ->
  rep g p lo hi pos (pre ++ suf) k <> None.
Proof.
  revert lo hi pos.
  induction pre as [|x pre IH]; intros lo hi pos Hall Hlo Hhi Hk.
  - simpl in *. assert (lo = 0) by lia. subst lo. rewrite Nat.add_0_r in Hk.
    destruct suf as [|y suf]; simpl.
    + destruct g; auto. destruct (k pos []); congruence.
    + destruct g.
      * destruct (if (p y && room hi)%bool then _ else _); [congruence|auto].
      * destruct (k pos (y :: suf)); congruence.
  - simpl in Hall. apply andb_true_iff in Hall. destruct Hall as [Hp Hall].
    simpl length in *. apply fits_S_room in Hhi. destruct Hhi as [Hr Hhi].
    assert (Hrec : forall lo', lo' <= length pre ->
               rep g p lo' (dec hi) (S pos) (pre ++ suf) k <> None).
    { intros lo' Hl. apply IH; auto. replace (S pos + length pre) with (pos + S (length pre)) by lia. auto. }
    destruct lo as [|lo']; simpl; rewrite Hp, Hr; simpl.
    + destruct g.
      * specialize (Hrec 0 ltac:(lia)).
        destruct (rep true p 0 (dec hi) (S pos) (pre ++ suf) k); congruence.
      * destruct (k pos (x :: pre ++ suf)); [congruence|]. apply Hrec; lia.
    + apply Hrec; lia.
Qed.

(** A greedy quantifier stops only where it has to: when its result
    comes from a run [pre], the continuation failed after every
    longer allowed run. *)
Lemma rep_greedy_longest p lo hi pos rest k r :
  rep true p lo hi pos rest k = Some r ->
  exists pre suf,
    rest = pre ++ suf /\ forallb p pre = true /\
    lo <= length pre /\ fits hi (length pre) /\
    k (pos + length pre) suf = Some r /\
    forall pre' suf',
      rest = pre' ++ suf' -> forallb p pre' = true ->
      fits hi (length pre') -> length pre < length pre' ->
      k (pos + length pre') suf' = None.
Proof.
  revert lo hi pos.
  induction rest as [|x t IH]; intros lo hi pos H.
  - destruct lo; simpl in H; [|discriminate].
    exists [], []. rewrite Nat.add_0_r.
    repeat split; simpl; auto; try lia.
    + destruct hi; simpl; auto; lia.
    + intros pre' suf' E. symmetry in E. apply app_eq_nil in E.
      destruct E; subst. simpl. lia.
  - assert (Hmore : forall lo',
               (if (p x && room hi)%bool then rep true p lo' (dec hi) (S pos) t k else None) = Some r ->
               exists pre suf,
                 x :: t = pre ++ suf /\ forallb p pre = true /\
                 S lo' <= length pre /\ fits hi (length pre) /\
                 k (pos + length pre) suf = Some r /\
                 forall pre' suf',
                   x :: t = pre' ++ suf' -> forallb p pre' = true ->
                   fits hi (length pre') -> length pre < length pre' ->
                   k (pos + length pre') suf' = None).
    { intros lo' Hm.
      destruct (p x) eqn:Hp; simpl in Hm; [|discriminate].
      destruct (room hi) eqn:Hr; [|discriminate].
      apply IH in Hm. destruct Hm as (pre & suf & -> & Hall & Hlo & Hhi & Hk & Hmax).
      exists (x :: pre), suf. simpl. rewrite Hp, Hall.
      repeat split; auto; try lia.
      - apply fits_dec_S; auto.
      - rewrite <- Hk. f_equal. lia.
      - intros pre' suf' E Hall' Hhi' Hlen.
        destruct pre' as [|y pre']; simpl in Hlen; [lia|].
        simpl in E. inversion E; subst y.
        simpl in Hall'. apply andb_true_iff in Hall'. destruct Hall' as [_ Hall'].
        simpl length in Hhi'. apply fits_S_room in Hhi'. destruct Hhi' as [_ Hhi'].
        replace (pos + length (x :: pre')) with (S pos + length pre') by (simpl; lia).
        apply (Hmax pre' suf'); auto. lia. }
    destruct lo as [|lo']; simpl in H.
    + destruct (if (p x && room hi)%bool then rep true p 0 (dec hi) (S pos) t k else None) eqn:E.
      * inversion H; subst.
        destruct (Hmore 0 E) as (pre & suf & ? & ? & ? & ? & ? & ?).
        exists pre, suf. repeat split; auto; lia.
      * exists [], (x :: t). rewrite Nat.add_0_r.
        repeat split; simpl; auto; try lia.
        -- destruct hi; simpl; auto; lia.
        -- intros pre' suf' E' Hall' Hhi' Hlen.
           destruct pre' as [|y pre']; simpl in Hlen; [lia|].
           simpl in E'. inversion E'; subst y.
           simpl in Hall'. apply andb_true_iff in Hall'. destruct Hall' as [Hp Hall'].
           simpl length in Hhi'. apply fits_S_room in Hhi'. destruct Hhi' as [Hr Hhi'].
           rewrite Hp, Hr in E. simpl in E.
           destruct (k (pos + length (x :: pre')) suf') eqn:Ek; auto.
           exfalso. revert E. subst t. apply rep_complete; auto; try lia.
           replace (S pos + length pre') with (pos + length (x :: pre')) by (simpl; lia).
           congruence.
    + apply Hmore; auto.
Qed.

(** A lazy quantifier stops as soon as it can: the continuation failed
    after every shorter allowed run. *)
Lemma rep_lazy_shortest p lo hi pos rest k r :
  rep false p lo hi pos rest k = Some r ->
  exists pre suf,
    rest = pre ++ suf /\ forallb p pre = true /\
    lo <= length pre /\ fits hi (length pre) /\
    k (pos + length pre) suf = Some r /\
    forall pre' suf',
      rest = pre' ++ suf' -> lo <= length pre' -> length pre' < length pre ->
      k (pos + length pre') suf' = None.
Proof.
  revert lo hi pos.
  induction rest as [|x t IH]; intros lo hi pos H.
  - destruct lo; simpl in H; [|discriminate].
    exists [], []. rewrite Nat.add_0_r.
    split; [reflexivity|]. split; [reflexivity|]. split; [simpl; lia|].
    split; [destruct hi; simpl; auto; lia|].
    split; [destruct (k pos []); auto|].
    simpl; intros; lia.
  - assert (Hmore : forall lo',
               (if (p x && room hi)%bool then rep false p lo' (dec hi) (S pos) t k else None) = Some r ->
               exists pre suf,
                 x :: t = pre ++ suf /\ forallb p pre = true /\
                 S lo' <= length pre /\ fits hi (length pre) /\
                 k (pos + length pre) suf = Some r /\
                 forall pre' suf',
                   x :: t = pre' ++ suf' -> S lo' <= length pre' -> length pre' < length pre ->
                   k (pos + length pre') suf' = None).
    { intros lo' Hm.
      destruct (p x) eqn:Hp; simpl in Hm; [|discriminate].
      destruct (room hi) eqn:Hr; [|discriminate].
      apply IH in Hm. destruct Hm as (pre & suf & -> & Hall & Hlo & Hhi & Hk & Hmin).
      exists (x :: pre), suf. simpl. rewrite Hp, Hall.
      repeat split; auto; try lia.
      - apply fits_dec_S; auto.
      - rewrite <- Hk. f_equal. lia.
      - intros pre' suf' E Hlo' Hlen.
        destruct pre' as [|y pre']; simpl in Hlo'; [lia|].
        simpl in E. inversion E; subst y.
        replace (pos + length (x :: pre')) with (S pos + length pre') by (simpl; lia).
        apply (Hmin pre' suf'); auto; simpl in Hlen; lia. }
    destruct lo as [|lo']; simpl in H.
    + destruct (k pos (x :: t)) eqn:E.
      * inversion H; subst. exists [], (x :: t). rewrite Nat.add_0_r.
        split; [reflexivity|]. split; [reflexivity|]. split; [simpl; lia|].
        split; [destruct hi; simpl; auto; lia|].
        split; [auto|]. simpl; intros; lia.
      * destruct (Hmore 0 H) as (pre & suf & ? & ? & ? & ? & ? & Hmin).
        exists pre, suf. repeat split; auto; try lia.
        intros pre' suf' E' _ Hlen.
        destruct pre' as [|y pre'].
        -- simpl in E'. subst suf'. simpl. rewrite Nat.add_0_r. auto.
        -- apply Hmin; auto. simpl; lia.
    + apply Hmore; auto.
Qed.

End RepFacts.

Lemma firstn_length_app (A : Type) (w rest : list A) n :
  n = length w -> firstn n (w ++ rest) = w.
Proof.
  intros ->. rewrite firstn_app, Nat.sub_diag, firstn_all. simpl. apply app_nil_r.
Qed.

Lemma skipn_length_app (A : Type) (w rest : list A) n :
  n = length w -> skipn n (w ++ rest) = rest.
Proof.
  intros ->. rewrite skipn_app, Nat.sub_diag, skipn_all. reflexivity.
Qed.

Section RunFacts.

Variable A : Type.
Implicit Types (k : nat -> jsstring -> caps -> option A).

(** A result of [run] is the continuation's, after some path. *)
Lemma run_sound r : forall pos rest c k res,
  run r pos rest c k = Some res ->
  exists w rest' c',
    rest = w ++ rest' /\ Matches r pos w rest' c c' /\
    k (pos + length w) rest' c' = Some res.
Proof.
  induction r as [|p| | |a IHa b IHb|n a IHa|g lo hi p|a IHa];
    intros pos rest c k res H; simpl in H.
  - exists [], rest, c. rewrite Nat.add_0_r. repeat split; auto. constructor.
  - destruct rest as [|x t]; [discriminate|].
    destruct (p x) eqn:Hp; [|discriminate].
    exists [x], t, c. replace (pos + length [x]) with (S pos) by (simpl; lia).
    repeat split; auto. constructor; auto.
  - destruct (Nat.eqb pos 0) eqn:E; [|discriminate].
    apply Nat.eqb_eq in E. subst pos.
    exists [], rest, c. repeat split; auto. constructor.
  - destruct rest; [|discriminate].
    exists [], [], c. rewrite Nat.add_0_r. repeat split; auto. constructor.
  - apply IHa in H. destruct H as (w1 & rest1 & c1 & -> & Ha & H).
    apply IHb in H. destruct H as (w2 & rest2 & c2 & -> & Hb & H).
    exists (w1 ++ w2), rest2, c2. rewrite app_assoc.
    repeat split; auto.
    + econstructor; eauto.
    + rewrite length_app, Nat.add_assoc. auto.
  - apply IHa in H. destruct H as (w & rest' & c' & -> & Ha & H).
    rewrite firstn_length_app in H by lia.
    exists w, rest', ((n, w) :: c'). repeat split; auto. constructor; auto.
  - apply rep_sound in H. destruct H as (pre & suf & -> & Hall & Hlo & Hhi & H).
    exists pre, suf, c. repeat split; auto. constructor; auto.
  - destruct (run a pos rest c k) eqn:E.
    + inversion H; subst. apply IHa in E.
      destruct E as (w & rest' & c' & -> & Ha & E).
      exists w, rest', c'. repeat split; auto. apply M_Opt_some; auto.
    + exists [], rest, c. rewrite Nat.add_0_r. repeat split; auto. apply M_Opt_none.
Qed.

(** If some path leads to a continuation that succeeds, [run]
    succeeds (possibly along an earlier path). *)
Lemma run_complete r : forall pos w rest c c' k,
  Matches r pos w rest c c' ->
  k (pos + length w) rest c' <> None ->
  run r pos (w ++ rest) c k <> None.
Proof.
  intros pos w rest c c' k M. revert k.
  induction M; intros k Hk; simpl in *; rewrite ?Nat.add_0_r in Hk; auto.
  - rewrite H. replace (S pos) with (pos + 1) by lia. auto.
  - rewrite <- app_assoc. apply IHM1. apply IHM2.
    rewrite length_app, Nat.add_assoc in Hk. auto.
  - apply IHM. rewrite firstn_length_app by lia. auto.
  - apply rep_complete; auto.
  - specialize (IHM k Hk). destruct (run a pos (w ++ rest) c k); congruence.
  - destruct (run a pos rest c k); congruence.
Qed.

End RunFacts.

(** What a match consumed is a prefix of the input, and its length is
    the distance between the offsets. *)
Lemma match_at_sound r pos rest m :
  match_at r pos rest = Some m ->
  exists rest' c',
    rest = m_text m ++ rest' /\ Matches r pos (m_text m) rest' [] c' /\
    m_index m = pos /\ m_end m = pos + length (m_text m) /\ m_caps m = c'.
Proof.
  unfold match_at. intros H. apply run_sound in H.
  destruct H as (w & rest' & c' & -> & M & H). inversion H; subst; clear H. simpl.
  replace (pos + length w - pos) with (length w) by lia.
  rewrite firstn_length_app by reflexivity.
  exists rest', c'. repeat split; auto.
Qed.

Lemma match_at_complete r pos w rest c' :
  Matches r pos w rest [] c' -> match_at r pos (w ++ rest) <> None.
Proof.
  intros M. unfold match_at. eapply run_complete; eauto. discriminate.
Qed.

(** [search] returns the match at the first offset that has one. *)
Lemma search_sound r : forall rest pos m,
  search r pos rest = Some m ->
  exists skipped rest',
    rest = skipped ++ rest' /\ m_index m = pos + length skipped /\
    match_at r (m_index m) rest' = Some m /\
    forall s1 s2, skipped = s1 ++ s2 -> s2 <> [] ->
                  match_at r (pos + length s1) (s2 ++ rest') = None.
Proof.
  induction rest as [|x t IH]; intros pos m H; simpl in H.
  - destruct (match_at r pos []) eqn:E; [|discriminate]. inversion H; subst.
    destruct (match_at_sound _ _ _ _ E) as (? & ? & ? & ? & Hi & ? & ?).
    exists [], []. rewrite Hi, Nat.add_0_r. repeat split; auto.
    intros s1 s2 E'. symmetry in E'. apply app_eq_nil in E'. tauto.
  - destruct (match_at r pos (x :: t)) eqn:E.
    + inversion H; subst.
      destruct (match_at_sound _ _ _ _ E) as (? & ? & ? & ? & Hi & ? & ?).
      exists [], (x :: t). rewrite Hi, Nat.add_0_r. repeat split; auto.
      intros s1 s2 E'. symmetry in E'. apply app_eq_nil in E'. tauto.
    + apply IH in H. destruct H as (sk & rest' & -> & Hi & Hm & Hnone).
      exists (x :: sk), rest'. simpl. repeat split; auto; try lia.
      intros s1 s2 E' Hne. destruct s1 as [|y s1]; simpl in E'.
      * subst s2. simpl. rewrite Nat.add_0_r. auto.
      * inversion E'; subst. simpl.
        replace (pos + S (length s1)) with (S pos + length s1) by lia.
        apply Hnone; auto.
Qed.

Lemma search_none r : forall rest pos,
  search r pos rest = None ->
  forall s1 s2, rest = s1 ++ s2 -> match_at r (pos + length s1) s2 = None.
Proof.
  induction rest as [|x t IH]; intros pos H s1 s2 E; simpl in H.
  - symmetry in E. apply app_eq_nil in E. destruct E; subst. simpl.
    rewrite Nat.add_0_r. destruct (match_at r pos []); congruence.
  - destruct (match_at r pos (x :: t)) eqn:E0; [discriminate|].
    destruct s1 as [|y s1]; simpl in E.
    + subst s2. simpl. rewrite Nat.add_0_r. auto.
    + inversion E; subst. simpl.
      replace (pos + S (length s1)) with (S pos + length s1) by lia.
      apply IH; auto.
Qed.

Lemma search_complete r : forall skipped pos rest',
  match_at r (pos + length skipped) rest' <> None ->
  search r pos (skipped ++ rest') <> None.
Proof.
  intros skipped pos rest' H E.
  apply H. eapply search_none; eauto.
Qed.

Lemma search_first r : forall skipped pos rest' m,
  (forall s1 s2, skipped = s1 ++ s2 -> s2 <> [] ->
                 match_at r (pos + length s1) (s2 ++ rest') = None) ->
  match_at r (pos + length skipped) rest' = Some m ->
  search r pos (skipped ++ rest') = Some m.
Proof.
  induction skipped as [|x sk IH]; intros pos rest' m Hnone Hm; simpl in *.
  - rewrite Nat.add_0_r in Hm.
    destruct rest'; simpl; rewrite Hm; reflexivity.
  - pose proof (Hnone [] (x :: sk) eq_refl ltac:(discriminate)) as H0.
    simpl in H0. rewrite Nat.add_0_r in H0. rewrite H0.
    apply IH.
    + intros s1 s2 E Hne.
      replace (S pos + length s1) with (pos + length (x :: s1)) by (simpl; lia).
      apply Hnone; auto. simpl. congruence.
    + rewrite <- Hm. f_equal. lia.
Qed.

Section GreedyMax.

Variable A : Type.

Lemma app_eq_length : forall (pre pre' suf suf' : jsstring),
  pre ++ suf = pre' ++ suf' -> length pre = length pre' ->
  pre = pre' /\ suf = suf'.
Proof.
  induction pre as [|x pre IH]; intros [|y pre'] suf suf' E L;
    simpl in *; try lia; auto.
  inversion E; subst. destruct (IH pre' suf suf'); auto. subst. auto.
Qed.

Lemma run_past_stop p : forall pre pre' suf suf',
  pre ++ suf = pre' ++ suf' -> forallb p pre' = true -> stops p suf ->
  length pre' <= length pre.
Proof.
  induction pre as [|x pre IH]; intros [|y pre'] suf suf' E Hall Hs;
    simpl in *; try lia.
  - subst suf. simpl in Hs. apply andb_true_iff in Hall. destruct Hall. congruence.
  - inversion E; subst. apply andb_true_iff in Hall. destruct Hall.
    apply le_n_S. eapply IH; eauto.
Qed.

(** A greedy quantifier whose continuation accepts after the longest
    run returns that result. *)
Lemma rep_greedy_max p lo hi pos pre suf (k : nat -> jsstring -> option A) r :
  forallb p pre = true -> lo <= length pre -> fits hi (length pre) ->
  hi = Some (length pre) \/ stops p suf ->
  k (pos + length pre) suf = Some r ->
  rep true p lo hi pos (pre ++ suf) k = Some r.
Proof.
  intros Hall Hlo Hhi Hstop Hk.
  destruct (rep true p lo hi pos (pre ++ suf) k) as [r'|] eqn:E.
  - apply rep_greedy_longest in E.
    destruct E as (pre0 & suf0 & E0 & Hall0 & Hlo0 & Hhi0 & Hk0 & Hmax).
    assert (L : length pre0 = length pre).
    { destruct (Nat.lt_trichotomy (length pre0) (length pre)) as [Hlt|[Heq|Hgt]]; auto.
      - rewrite (Hmax pre suf eq_refl Hall Hhi Hlt) in Hk. discriminate.
      - exfalso. destruct Hstop as [->|Hs].
        + simpl in Hhi0. lia.
        + pose proof (run_past_stop p pre pre0 suf suf0 E0 Hall0 Hs). lia. }
    destruct (app_eq_length pre0 pre suf0 suf (eq_sym E0) L). subst.
    congruence.
  - exfalso. revert E. apply rep_complete; auto. congruence.
Qed.

End GreedyMax.

(** ** Shipment numbers *)

Lemma dash_eq x : Cls.dash x = true -> x = 45%N.
Proof. unfold Cls.dash. apply N.eqb_eq. Qed.

(** The paths through [shippingRegex] are the shipment-shaped words. *)
Lemma shipping_Matches pos w rest c c' :
  Matches shippingRegex pos w rest c c' <->
  shipment_shape w /\ c' = (1, w) :: c.
Proof.
  unfold shippingRegex. split.
  - intros M.
    repeat match goal with
           | H : Matches (Grp _ _) _ _ _ _ _ |- _ => inversion H; clear H; subst
           | H : Matches (Seq _ _) _ _ _ _ _ |- _ => inversion H; clear H; subst
           | H : Matches (Chr _) _ _ _ _ _ |- _ => inversion H; clear H; subst
           | H : Matches (Rep _ _ _ _) _ _ _ _ _ |- _ => inversion H; clear H; subst
           end.
    repeat match goal with H : Cls.dash _ = true |- _ => apply dash_eq in H; subst end.
    split; auto.
    match goal with
    | |- shipment_shape (?a ++ [_] ++ ?b ++ [_] ++ ?d) => exists a, b, d
    end.
    unfold fits, all in *. repeat split; auto; lia.
  - intros [(d1 & d2 & d3 & -> & H1 & L1 & H2 & L2 & H3 & L3) ->].
    apply M_Grp.
    eapply M_Seq with (w1 := d1) (w2 := 45%N :: d2 ++ 45%N :: d3); [constructor; simpl; auto; lia|].
    eapply M_Seq with (w1 := [45%N]) (w2 := d2 ++ 45%N :: d3); [constructor; reflexivity|].
    eapply M_Seq with (w1 := d2) (w2 := 45%N :: d3); [constructor; simpl; auto; lia|].
    eapply M_Seq with (w1 := [45%N]) (w2 := d3); [constructor; reflexivity|].
    constructor; simpl; auto; lia.
Qed.

(** Every match of [shippingRegex] is a shipment-shaped word, captured
    whole by group 1. *)
Lemma shipping_match_at pos rest m :
  match_at shippingRegex pos rest = Some m ->
  shipment_shape (m_text m) /\ group 1 m = m_text m /\
  m_index m = pos /\ m_end m = pos + length (m_text m) /\
  exists rest', rest = m_text m ++ rest'.
Proof.
  intros H. apply match_at_sound in H.
  destruct H as (rest' & c' & E & M & Hi & He & Hc).
  apply shipping_Matches in M. destruct M as [Hs ->].
  repeat split; auto.
  - unfold group. rewrite Hc. reflexivity.
  - eauto.
Qed.

Lemma shipment_shape_length s : shipment_shape s -> 15 <= length s <= 20.
Proof.
  intros (d1 & d2 & d3 & -> & _ & L1 & _ & L2 & _ & L3).
  rewrite length_app. simpl. rewrite length_app. simpl. lia.
Qed.

(** Where a shipment-shaped word starts, [shippingRegex] matches. *)
Lemma shipping_match_at_complete pos w rest :
  shipment_shape w -> match_at shippingRegex pos (w ++ rest) <> None.
Proof.
  intros Hs. eapply match_at_complete. apply shipping_Matches. split; eauto.
Qed.

(** The match at the start of a shipment-shaped word is the word
    itself, when its last digit group cannot be extended. *)
Lemma shipping_match_exact pos d1 d2 d3 rest :
  all Cls.digit d1 -> 8 <= length d1 <= 12 ->
  all Cls.digit d2 -> length d2 = 4 ->
  all Cls.digit d3 -> 1 <= length d3 <= 2 ->
  length d3 = 2 \/ stops Cls.digit rest ->
  let s := d1 ++ 45%N :: d2 ++ 45%N :: d3 in
  match_at shippingRegex pos (s ++ rest) =
  Some (mkMatch pos (pos + length s) s [(1, s)]).
Proof.
  intros H1 L1 H2 L2 H3 L3 Hstop s.
  unfold match_at, shippingRegex. cbn [run].
  subst s. rewrite <- app_assoc. cbn [app]. rewrite <- app_assoc. cbn [app].
  apply rep_greedy_max; auto; try (simpl; lia); try (right; reflexivity).
  cbn beta iota. change (Cls.dash 45%N) with true. cbn beta iota.
  apply rep_greedy_max; auto; try (simpl; lia); try (right; reflexivity).
  cbn beta iota. change (Cls.dash 45%N) with true. cbn beta iota.
  apply rep_greedy_max; auto; try (simpl; lia);
    try (destruct Hstop as [->|Hs]; auto; fail).
  f_equal.
  assert (E : S (S (pos + length d1) + length d2) + length d3 =
              pos + length (d1 ++ 45%N :: d2 ++ 45%N :: d3)).
  { rewrite length_app. simpl. rewrite length_app. simpl. lia. }
  rewrite E.
  replace (pos + length (d1 ++ 45%N :: d2 ++ 45%N :: d3) - pos)
    with (length (d1 ++ 45%N :: d2 ++ 45%N :: d3)) by lia.
  replace (d1 ++ 45%N :: d2 ++ 45%N :: d3 ++ rest)
    with ((d1 ++ 45%N :: d2 ++ 45%N :: d3) ++ rest)
    by (rewrite <- app_assoc; cbn [app]; rewrite <- app_assoc; reflexivity).
  rewrite firstn_length_app by reflexivity. reflexivity.
Qed.

(** ** The [exec] loop *)

Lemma exec_loop_none fuel r pos rest :
  search r pos rest = None -> exec_loop fuel r pos rest = Some [].
Proof. intros H. destruct fuel; simpl; rewrite H; reflexivity. Qed.

Lemma exec_loop_some fuel r pos rest m :
  search r pos rest = Some m ->
  exec_loop (S fuel) r pos rest =
  match exec_loop fuel r (m_end m) (skipn (m_end m - pos) rest) with
  | Some ms => Some (m :: ms)
  | None => None
  end.
Proof. intros H. simpl. rewrite H. reflexivity. Qed.

(** The shape of a [search] result for [shippingRegex]: some text is
    skipped, in which no shipment-shaped word starts, and a
    shipment-shaped word follows. *)
Lemma shipping_search pos rest m :
  search shippingRegex pos rest = Some m ->
  exists skipped rest',
    rest = skipped ++ m_text m ++ rest' /\
    m_index m = pos + length skipped /\
    m_end m = m_index m + length (m_text m) /\
    shipment_shape (m_text m) /\ group 1 m = m_text m /\
    match_at shippingRegex (m_index m) (m_text m ++ rest') = Some m /\
    forall s1 s2, skipped = s1 ++ s2 -> s2 <> [] ->
                  match_at shippingRegex (pos + length s1) (s2 ++ m_text m ++ rest') = None.
Proof.
  intros H. apply search_sound in H.
  destruct H as (sk & rest0 & -> & Hi & Hm & Hnone).
  destruct (shipping_match_at _ _ _ Hm) as (Hs & Hg & _ & He & rest' & ->).
  exists sk, rest'. repeat split; auto.
Qed.

(** The loop finishes: each match is at least 15 characters long. *)
Lemma exec_loop_shipping_total : forall fuel rest pos,
  length rest < fuel ->
  exists ms, exec_loop fuel shippingRegex pos rest = Some ms.
Proof.
  induction fuel as [|fuel IH]; intros rest pos Hf; [lia|].
  destruct (search shippingRegex pos rest) as [m|] eqn:E.
  - rewrite (exec_loop_some _ _ _ _ _ E).
    destruct (shipping_search _ _ _ E) as (sk & rest' & -> & Hi & He & Hs & _).
    apply shipment_shape_length in Hs.
    replace (m_end m - pos) with (length (sk ++ m_text m))
      by (rewrite length_app; lia).
    rewrite app_assoc, skipn_length_app by reflexivity.
    destruct (IH rest' (m_end m)) as [ms ->]; eauto.
    rewrite !length_app in Hf. lia.
  - rewrite exec_loop_none by auto. eauto.
Qed.

Lemma collectMatches_total fullText :
  exists matches, collectMatches fullText = Some matches.
Proof.
  unfold collectMatches.
  destruct (exec_loop_shipping_total (S (length fullText)) fullText 0) as [ms ->]; [lia|].
  simpl. eauto.
Qed.

(** ** String primitives *)

Lemma substring_mid (a b c : jsstring) :
  substring (a ++ b ++ c) (length a) (length a + length b) = b.
Proof.
  unfold substring. rewrite !length_app.
  rewrite !Nat.min_l by lia. rewrite Nat.max_r by lia.
  replace (length a + length b - length a) with (length b) by lia.
  rewrite skipn_length_app by reflexivity.
  apply firstn_length_app. reflexivity.
Qed.

Lemma substring_suffix (a b : jsstring) :
  substring (a ++ b) (length a) (length (a ++ b)) = b.
Proof.
  rewrite <- (app_nil_r b) at 1. rewrite length_app.
  rewrite substring_mid. reflexivity.
Qed.

Lemma substring_prefix (a b : jsstring) :
  substring (a ++ b) 0 (length a) = a.
Proof.
  change (a ++ b) with ([] ++ a ++ b). apply (substring_mid [] a b).
Qed.

Lemma shipment_shape_truthy s : shipment_shape s -> truthy s = true.
Proof.
  intros H. apply shipment_shape_length in H. destruct s; simpl in *; auto; lia.
Qed.

(** ** The test row of the spec *)

Lemma sampleRowTail_no_match pos : search shippingRegex pos sampleRowTail = None.
Proof. reflexivity. Qed.

Lemma sample_collect s :
  shipment_shape s ->
  collectMatches (s ++ sampleRowTail) = Some [mkShip s 0].
Proof.
  intros (d1 & d2 & d3 & -> & H1 & L1 & H2 & L2 & H3 & L3).
  unfold collectMatches.
  assert (E : search shippingRegex 0 ((d1 ++ 45%N :: d2 ++ 45%N :: d3) ++ sampleRowTail) =
              Some (mkMatch 0 (0 + length (d1 ++ 45%N :: d2 ++ 45%N :: d3))
                            (d1 ++ 45%N :: d2 ++ 45%N :: d3)
                            [(1, d1 ++ 45%N :: d2 ++ 45%N :: d3)])).
  { apply (search_first shippingRegex [] 0).
    - intros s1 s2 E. symmetry in E. apply app_eq_nil in E. tauto.
    - apply shipping_match_exact; auto. right. reflexivity. }
  rewrite (exec_loop_some _ _ _ _ _ E). cbn [m_end].
  rewrite Nat.sub_0_r, skipn_length_app by reflexivity.
  rewrite exec_loop_none by apply sampleRowTail_no_match.
  reflexivity.
Qed.

(** C1. For every shipment-shaped string [s], a page whose text is [s]
    followed by " ProductName F/034 1 1785" parses to exactly one
    record: shipment number [s], article "F/034", product name
    "ProductName". *)
Theorem C1_sample_row_one_record (s : jsstring) (items : TextPage) :
  shipment_shape s ->
  pageText items = s ++ lit " ProductName F/034 1 1785" ->
  parseOrdersPdf [items] =
  Some [mkMapping s (lit "F/034") (lit "ProductName")].
Proof.
  intros Hs Ht.
  unfold parseOrdersPdf, pagesLoop, pageStep. rewrite Ht.
  change (lit " ProductName F/034 1 1785") with sampleRowTail.
  rewrite sample_collect by assumption.
  cbn [length seq fold_left]. unfold rowStep.
  cbn [nth_error Nat.add number index].
  unfold textBlockOf. cbn [number index Nat.add].
  rewrite substring_suffix.
  rewrite (shipment_shape_truthy _ Hs).
  reflexivity.
Qed.

(** ** Segmentation of a page *)

Lemma match_none_no_shipment pos t :
  match_at shippingRegex pos t = None -> no_shipment_here t.
Proof.
  intros H w r -> Hs. revert H. apply shipping_match_at_complete. auto.
Qed.

Lemma all_app p a b : all p (a ++ b) <-> all p a /\ all p b.
Proof. unfold all. rewrite forallb_app. apply andb_true_iff. Qed.

Lemma last_digit_of_shape w x :
  shipment_shape (w ++ [x]) -> Cls.digit x = true.
Proof.
  intros (d1 & d2 & d3 & E & _ & _ & _ & _ & H3 & L3).
  destruct d3 as [|a d3] using rev_ind; [simpl in L3; lia|].
  clear IHd3.
  replace (d1 ++ 45%N :: d2 ++ 45%N :: d3 ++ [a])
    with ((d1 ++ 45%N :: d2 ++ 45%N :: d3) ++ [a]) in E
    by (rewrite <- app_assoc; simpl; rewrite <- app_assoc; reflexivity).
  apply app_inj_tail in E. destruct E as [_ ->].
  apply all_app in H3. destruct H3 as [_ H3]. unfold all in H3. simpl in H3.
  rewrite andb_true_r in H3. auto.
Qed.

(** Two runs of [p] characters in front of the same text, each
    followed by a character outside [p], are the same run. *)
Lemma run_unique p : forall (a b : jsstring) x y r r',
  a ++ x :: r = b ++ y :: r' -> all p a -> all p b ->
  p x = false -> p y = false -> a = b /\ x :: r = y :: r'.
Proof.
  unfold all.
  induction a as [|u a IH]; intros [|v b] x y r r' E Ha Hb Hx Hy; simpl in *.
  - auto.
  - inversion E; subst. apply andb_true_iff in Hb. destruct Hb. congruence.
  - inversion E; subst. apply andb_true_iff in Ha. destruct Ha. congruence.
  - inversion E; subst.
    apply andb_true_iff in Ha. apply andb_true_iff in Hb.
    destruct Ha, Hb.
    destruct (IH b x y r r') as [-> ?]; auto.
Qed.

(** A match cannot be extended to a longer shipment-shaped word. *)
Lemma shipping_match_longest pos w rest m x r :
  match_at shippingRegex pos (w ++ rest) = Some m -> m_text m = w ->
  rest = x :: r -> ~ shipment_shape (w ++ [x]).
Proof.
  intros Hm Ht -> Hs.
  pose proof (last_digit_of_shape _ _ Hs) as Hx.
  destruct (shipping_match_at _ _ _ Hm) as (Hw & _).
  rewrite Ht in Hw.
  destruct Hw as (d1 & d2 & d3 & -> & H1 & L1 & H2 & L2 & H3 & L3).
  destruct Hs as (e1 & e2 & e3 & E & G1 & K1 & G2 & K2 & G3 & K3).
  assert (L : length d3 = 1).
  { replace ((d1 ++ 45%N :: d2 ++ 45%N :: d3) ++ [x])
      with (d1 ++ 45%N :: d2 ++ 45%N :: d3 ++ [x]) in E
      by (repeat (rewrite <- ?app_assoc; simpl); reflexivity).
    apply (run_unique Cls.digit) in E; auto.
    destruct E as [_ E]. inversion E as [E2].
    apply (run_unique Cls.digit) in E2; auto.
    destruct E2 as [_ E3]. inversion E3 as [E4].
    apply (f_equal (@length N)) in E4. rewrite length_app in E4. simpl in E4. lia. }
  assert (H3' : all Cls.digit (d3 ++ [x])).
  { apply all_app. split; auto. unfold all. simpl. rewrite Hx. reflexivity. }
  pose proof (shipping_match_exact pos d1 d2 (d3 ++ [x]) r H1 L1 H2 L2 H3'
                ltac:(rewrite length_app; simpl; lia)
                ltac:(left; rewrite length_app; simpl; lia)) as X.
  cbv zeta in X.
  replace ((d1 ++ 45%N :: d2 ++ 45%N :: d3 ++ [x]) ++ r)
    with ((d1 ++ 45%N :: d2 ++ 45%N :: d3) ++ x :: r) in X.
  - rewrite X in Hm. inversion Hm; subst m. simpl in Ht.
    apply (f_equal (@length N)) in Ht. rewrite !length_app in Ht.
    simpl in Ht. rewrite !length_app in Ht. simpl in Ht. rewrite !length_app in Ht.
    simpl in Ht. lia.
  - repeat (rewrite <- ?app_assoc; simpl). reflexivity.
Qed.

Lemma exec_loop_scan : forall fuel pos t ms,
  exec_loop fuel shippingRegex pos t = Some ms ->
  Scan pos t (List.map toShip ms).
Proof.
  induction fuel as [|fuel IH]; intros pos t ms H.
  - simpl in H. destruct (search shippingRegex pos t) eqn:E; [discriminate|].
    inversion H; subst. simpl. apply Scan_done.
    intros s1 s2 ->. eapply match_none_no_shipment.
    eapply search_none; eauto.
  - destruct (search shippingRegex pos t) as [m|] eqn:E.
    + rewrite (exec_loop_some _ _ _ _ _ E) in H.
      destruct (shipping_search _ _ _ E) as (sk & rest' & -> & Hi & He & Hs & Hg & Hm & Hnone).
      replace (m_end m - pos) with (length (sk ++ m_text m)) in H
        by (rewrite length_app; lia).
      rewrite app_assoc, skipn_length_app in H by reflexivity.
      destruct (exec_loop fuel shippingRegex (m_end m) rest') as [ms'|] eqn:E'; [|discriminate].
      inversion H; subst ms. simpl. unfold toShip at 1. rewrite Hg, Hi.
      apply Scan_hit; auto.
      * intros s1 s2 E1 Hne. eapply match_none_no_shipment. eauto.
      * intros x r Er. eapply shipping_match_longest; eauto.
      * apply IH. rewrite <- Hi, <- He. auto.
    + rewrite exec_loop_none in H by auto. inversion H; subst. simpl.
      apply Scan_done. intros s1 s2 ->. eapply match_none_no_shipment.
      eapply search_none; eauto.
Qed.

Lemma collectMatches_scan fullText matches :
  collectMatches fullText = Some matches -> Scan 0 fullText matches.
Proof.
  unfold collectMatches. intros H.
  destruct (exec_loop _ _ _ _) as [ms|] eqn:E; [|discriminate].
  inversion H; subst. eapply exec_loop_scan; eauto.
Qed.

Lemma substring_slice t a b :
  a <= b -> b <= length t -> substring t a b = slice t a b.
Proof.
  intros Hab Hb. unfold substring, slice.
  rewrite (Nat.min_l a) by lia. rewrite (Nat.min_l b) by lia.
  rewrite Nat.min_l by lia. rewrite Nat.max_r by lia. reflexivity.
Qed.

Lemma placed_le len : forall ms from, placed len from ms -> from <= len.
Proof.
  induction ms as [|m ms IH]; simpl; intros from H; auto.
  destruct H as [H1 H2]. apply IH in H2. lia.
Qed.

Lemma Scan_placed pos t ms :
  Scan pos t ms -> placed (pos + length t) pos ms.
Proof.
  induction 1; simpl.
  - lia.
  - split; [lia|]. rewrite !length_app.
    replace (pos + (length skipped + (length w + length rest)))
      with (pos + length skipped + length w + length rest) by lia.
    auto.
Qed.

Lemma Scan_shapes pos t ms :
  Scan pos t ms -> Forall (fun m => shipment_shape (number m)) ms.
Proof. induction 1; constructor; auto. Qed.

(** Each match is the text found at its index. *)
Lemma Scan_occurs pos t ms :
  Scan pos t ms ->
  forall pre, length pre = pos ->
  Forall (fun m => slice (pre ++ t) (index m) (index m + length (number m)) = number m) ms.
Proof.
  induction 1; intros pre Hp; constructor.
  - simpl. unfold slice.
    replace (pos + length skipped + length w - (pos + length skipped))
      with (length w) by lia.
    rewrite app_assoc, skipn_length_app by (rewrite length_app; lia).
    apply firstn_length_app. reflexivity.
  - specialize (IHScan (pre ++ skipped ++ w)).
    rewrite <- !app_assoc in IHScan. apply IHScan.
    rewrite !length_app. lia.
Qed.

Lemma nth_error_app_here (A : Type) (pre : list A) x suf :
  nth_error (pre ++ x :: suf) (length pre) = Some x.
Proof.
  rewrite nth_error_app2 by lia. rewrite Nat.sub_diag. reflexivity.
Qed.

Lemma rows_fold fullText : forall suf pre acc from,
  Forall (fun m => shipment_shape (number m)) suf ->
  placed (length fullText) from suf ->
  fold_left (rowStep fullText (pre ++ suf)) (seq (length pre) (length suf)) acc =
  acc ++ List.map recordOf (combine suf (blocksOf fullText suf)).
Proof.
  induction suf as [|m suf IH]; intros pre acc from Hsh Hpl.
  - simpl. rewrite app_nil_r. reflexivity.
  - inversion Hsh as [|? ? Hm Hsuf]; subst.
    destruct Hpl as [Hfrom Hpl].
    cbn [length seq fold_left].
    replace (pre ++ m :: suf) with ((pre ++ [m]) ++ suf)
      by (rewrite <- app_assoc; reflexivity).
    replace (S (length pre)) with (length (pre ++ [m]))
      by (rewrite length_app; simpl; lia).
    assert (Estep : rowStep fullText ((pre ++ [m]) ++ suf) acc (length pre) =
                    acc ++ [recordOf (m, slice fullText (index m + length (number m))
                                                (match suf with n :: _ => index n | [] => length fullText end))]).
    { unfold rowStep. rewrite <- app_assoc. cbn [app].
      rewrite nth_error_app_here.
      replace (length pre + 1) with (length (pre ++ [m]))
        by (rewrite length_app; simpl; lia).
      replace (pre ++ m :: suf) with ((pre ++ [m]) ++ suf)
        by (rewrite <- app_assoc; reflexivity).
      rewrite nth_error_app2 by lia. rewrite Nat.sub_diag.
      unfold textBlockOf, recordOf. cbn [fst snd].
      rewrite (shipment_shape_truthy _ Hm).
      assert (Eb : substring fullText (index m + length (number m))
                     (match nth_error suf 0 with Some n => index n | None => length fullText end) =
                   slice fullText (index m + length (number m))
                     (match suf with n :: _ => index n | [] => length fullText end)).
      { destruct suf as [|n suf']; cbn [nth_error].
        - apply substring_slice; simpl in Hpl; lia.
        - destruct Hpl as [H1 H2]. apply placed_le in H2.
          apply substring_slice; lia. }
      rewrite Eb.
      destruct (rowFields _) as [a p]. reflexivity. }
    rewrite Estep.
    rewrite (IH (pre ++ [m]) _ (index m + length (number m))) by auto.
    cbn [blocksOf combine List.map]. rewrite <- app_assoc. reflexivity.
Qed.

(** The records of one page are the records of its matches, in scan
    order, after what was collected before. *)
Lemma pageStep_rows mappings items matches :
  collectMatches (pageText items) = Some matches ->
  pageStep mappings items =
  Some (mappings ++
        List.map recordOf (combine matches (blocksOf (pageText items) matches))).
Proof.
  intros H. unfold pageStep. rewrite H.
  pose proof (collectMatches_scan _ _ H) as Hs.
  pose proof (rows_fold (pageText items) matches [] mappings 0) as F.
  cbn [app length] in F. rewrite F; auto.
  - eapply Scan_shapes; eauto.
  - apply Scan_placed in Hs. auto.
Qed.

Lemma collectMatches_matchesOf fullText :
  collectMatches fullText = Some (matchesOf fullText).
Proof.
  unfold matchesOf. destruct (collectMatches_total fullText) as [ms ->]. reflexivity.
Qed.

Lemma pageStep_pageRecords mappings items :
  pageStep mappings items = Some (mappings ++ pageRecords items).
Proof. apply pageStep_rows. apply collectMatches_matchesOf. Qed.

Lemma pagesLoop_flat : forall pages mappings,
  pagesLoop mappings pages = Some (mappings ++ flat_map pageRecords pages).
Proof.
  induction pages as [|p pages IH]; intros mappings; simpl.
  - rewrite app_nil_r. reflexivity.
  - rewrite pageStep_pageRecords, IH, app_assoc. reflexivity.
Qed.

(** [parseOrdersPdf] always returns: the records of the pages in page
    order, each page's in scan order. *)
Lemma parseOrdersPdf_total pdf :
  parseOrdersPdf pdf = Some (flat_map pageRecords pdf).
Proof. unfold parseOrdersPdf. rewrite pagesLoop_flat. reflexivity. Qed.

Lemma blocksOf_length t : forall ms, length (blocksOf t ms) = length ms.
Proof. induction ms; simpl; auto. Qed.

Lemma pageRecords_length items :
  length (pageRecords items) = length (matchesOf (pageText items)).
Proof.
  unfold pageRecords. cbv zeta.
  rewrite length_map, length_combine, blocksOf_length. lia.
Qed.

Lemma blocksOf_nth t : forall ms j m,
  nth_error ms j = Some m ->
  nth_error (blocksOf t ms) j =
  Some (slice t (index m + length (number m))
              (match nth_error ms (S j) with
               | Some n => index n
               | None => length t
               end)).
Proof.
  induction ms as [|a ms IH]; intros [|j] m H; simpl in *; try discriminate.
  - inversion H; subst. destruct ms; reflexivity.
  - apply IH; auto.
Qed.

Lemma combine_nth_error (A B : Type) : forall (l : list A) (l' : list B) j a b,
  nth_error l j = Some a -> nth_error l' j = Some b ->
  nth_error (combine l l') j = Some (a, b).
Proof.
  induction l as [|x l IH]; intros [|y l'] [|j] a b Ha Hb; simpl in *;
    try discriminate.
  - inversion Ha; inversion Hb; subst. reflexivity.
  - apply IH; auto.
Qed.

Lemma rowFields_neither block :
  primaryGrammar block = None -> fallbackGrammar block = None ->
  rowFields block = ([], block).
Proof. intros H1 H2. unfold rowFields. rewrite H1, H2. reflexivity. Qed.

(** C8. The segmenter emits one record per shipment-number match of
    the page text, in scan order: the matches are the successive
    leftmost shipment-shaped words, which do not overlap; record [j] is
    keyed by match [j] and parsed from the text between the end of
    match [j] and the start of match [j + 1] (the end of the text for
    the last match); and when both grammars fail the record is still
    emitted, with an empty article. *)
Theorem C8_one_record_per_match (items : TextPage) :
  let t := pageText items in
  exists matches records,
    collectMatches t = Some matches /\
    Scan 0 t matches /\ placed (length t) 0 matches /\
    pageStep [] items = Some records /\
    length records = length matches /\
    (forall j m,
        nth_error matches j = Some m ->
        let block := slice t (index m + length (number m))
                           (match nth_error matches (S j) with
                            | Some n => index n
                            | None => length t
                            end) in
        slice t (index m) (index m + length (number m)) = number m /\
        nth_error records j = Some (recordOf (m, block)) /\
        shippingNumber (recordOf (m, block)) = number m /\
        (primaryGrammar (trim block) = None ->
         fallbackGrammar (trim block) = None ->
         article (recordOf (m, block)) = [])).
Proof.
  intros t. exists (matchesOf t), (pageRecords items).
  pose proof (collectMatches_matchesOf t) as Hc.
  pose proof (collectMatches_scan _ _ Hc) as Hs.
  split; [exact Hc|]. split; [exact Hs|].
  split; [apply (Scan_placed 0 t _ Hs)|].
  split; [apply (pageStep_pageRecords [] items)|].
  split; [apply pageRecords_length|].
  intros j m Hj block.
  split; [|split; [|split]].
  - pose proof (Scan_occurs _ _ _ Hs [] eq_refl) as Ho.
    rewrite Forall_forall in Ho. apply Ho. eapply nth_error_In; eauto.
  - unfold pageRecords. cbv zeta. fold t.
    apply map_nth_error. apply combine_nth_error; auto.
    apply blocksOf_nth; auto.
  - reflexivity.
  - intros H1 H2. unfold recordOf. cbn [fst snd article].
    rewrite (rowFields_neither _ H1 H2). reflexivity.
Qed.

(** ** Lookup *)

Lemma jsstring_eqb_eq : forall a b, jsstring_eqb a b = true <-> a = b.
Proof.
  induction a as [|x a IH]; intros [|y b]; simpl; split; intros H;
    try discriminate; auto.
  - apply andb_true_iff in H. destruct H as [H1 H2].
    apply N.eqb_eq in H1. apply IH in H2. subst. reflexivity.
  - inversion H; subst. apply andb_true_iff. split.
    + apply N.eqb_refl.
    + apply IH. reflexivity.
Qed.

(** [findMapping] returns the first record with the wanted number. *)
Lemma findMapping_first : forall mappings s r,
  findMapping mappings s = Some r <->
  exists pre post,
    mappings = pre ++ r :: post /\ shippingNumber r = s /\
    forall r', In r' pre -> shippingNumber r' <> s.
Proof.
  unfold findMapping.
  induction mappings as [|a l IH]; intros s r; simpl.
  - split; [discriminate|]. intros (pre & post & E & _). destruct pre; discriminate.
  - destruct (jsstring_eqb (shippingNumber a) s) eqn:Ea.
    + apply jsstring_eqb_eq in Ea. split.
      * intros H. inversion H; subst. exists [], l.
        split; [reflexivity|]. split; [reflexivity|]. intros r' [].
      * intros (pre & post & E & Hs & Hn). destruct pre as [|b pre]; simpl in E.
        -- inversion E; subst. reflexivity.
        -- inversion E; subst. exfalso. apply (Hn b); simpl; auto.
    + assert (Hne : shippingNumber a <> s).
      { intros E. apply jsstring_eqb_eq in E. congruence. }
      rewrite IH. split.
      * intros (pre & post & -> & Hs & Hn). exists (a :: pre), post.
        repeat split; auto. intros r' [<-|Hin]; auto.
      * intros (pre & post & E & Hs & Hn). destruct pre as [|b pre]; simpl in E.
        -- inversion E; subst. congruence.
        -- inversion E; subst. exists pre, post. repeat split; auto.
           intros r' Hin. apply Hn. simpl. auto.
Qed.

(** C6. The mapping table lists the records in page order and, within
    a page, in scan order; when a shipment number occurs in several
    rows, the lookup returns the record of the first of them and never
    a later one, and that is the record a label page bearing the number
    resolves to. *)
Theorem C6_lookup_first_occurrence (pdf : list TextPage)
        (mappings pre post : list OrderMapping) (first : OrderMapping) :
  parseOrdersPdf pdf = Some mappings ->
  mappings = pre ++ first :: post ->
  (forall r, In r pre -> shippingNumber r <> shippingNumber first) ->
  mappings = flat_map pageRecords pdf /\
  findMapping mappings (shippingNumber first) = Some first /\
  (forall later, In later post -> shippingNumber later = shippingNumber first ->
                 article later <> article first ->
                 findMapping mappings (shippingNumber first) <> Some later) /\
  (forall items m, js_match shippingRegex (pageText items) = Some m ->
                   group 1 m = shippingNumber first ->
                   resolvePage mappings items = Some first).
Proof.
  intros Hparse E Hpre.
  assert (F : findMapping mappings (shippingNumber first) = Some first).
  { apply findMapping_first. exists pre, post. auto. }
  split; [|split; [|split]].
  - rewrite parseOrdersPdf_total in Hparse. congruence.
  - exact F.
  - intros later _ _ Hart H. rewrite F in H. inversion H; subst. congruence.
  - intros items m Hm Hg. unfold resolvePage. rewrite Hm, Hg. exact F.
Qed.

(** ** The label loop *)

Lemma setNth_app_here (A : Type) (pre : list A) x v suf :
  setNth (length pre) v (pre ++ x :: suf) = pre ++ v :: suf.
Proof. induction pre; simpl; congruence. Qed.

Lemma labelLoop_spec customFont mappings : forall labels done count read,
  labelLoop customFont mappings
            (mkState (done ++ List.map lp_page labels) count read)
            (length done) (List.map lp_items labels) =
  inr (mkState
         (done ++ List.map (fun p => annotateIfResolved customFont mappings
                                        (lp_items p) (lp_page p)) labels)
         (count + length (filter (fun p => resolved mappings (lp_items p)) labels))
         (read ++ seq (length done) (length labels))).
Proof.
  induction labels as [|p labels IH]; intros done count read; simpl.
  - rewrite Nat.add_0_r, !app_nil_r. reflexivity.
  - unfold labelStep, annotateIfResolved, resolved. cbn [pdfDoc modifiedCount pagesRead].
    destruct (resolvePage mappings (lp_items p)) as [mapping|] eqn:E.
    + rewrite nth_error_app_here, setNth_app_here.
      specialize (IH (done ++ [annotatePage customFont mapping (lp_page p)])
                     (S count) (read ++ [length done])).
      rewrite <- !app_assoc in IH. simpl in IH.
      rewrite length_app in IH. simpl in IH.
      rewrite Nat.add_1_r in IH. rewrite IH.
      simpl. rewrite <- plus_n_Sm. reflexivity.
    + specialize (IH (done ++ [lp_page p]) count (read ++ [length done])).
      rewrite <- !app_assoc in IH. simpl in IH.
      rewrite length_app in IH. simpl in IH.
      rewrite Nat.add_1_r in IH. rewrite IH. reflexivity.
Qed.

(** [processLabelsPdf] on the two views of one labels file. *)
Lemma processLabelsPdf_spec customFont mappings labels :
  processLabelsPdf customFont (List.map lp_items labels)
                   (List.map lp_page labels) mappings =
  if Nat.eqb (length (filter (fun p => resolved mappings (lp_items p)) labels)) 0
  then (inl NoMatchesFound, seq 0 (length labels))
  else (inr (List.map (fun p => annotateIfResolved customFont mappings
                                   (lp_items p) (lp_page p)) labels),
        seq 0 (length labels)).
Proof.
  unfold processLabelsPdf.
  pose proof (labelLoop_spec customFont mappings labels [] 0 []) as H.
  simpl in H. rewrite H. reflexivity.
Qed.

Lemma filter_nil_iff (A : Type) (f : A -> bool) l :
  filter f l = [] <-> forall x, In x l -> f x = false.
Proof.
  induction l as [|a l IH]; simpl.
  - split; auto. intros _ x [].
  - destruct (f a) eqn:E.
    + split; [discriminate|]. intros H. rewrite (H a) in E; auto. discriminate.
    + rewrite IH. split.
      * intros H x [<-|Hin]; auto.
      * intros H x Hin. apply H. auto.
Qed.

(** C4. When no page of the labels document resolves against the
    mapping table, the label pass ends in the no-matches error and the
    document is not handed to [save]; when at least one page resolves,
    it does not end in that error and the document is returned. *)
Theorem C4_no_matches_error (customFont : Font) (mappings : list OrderMapping)
        (labels : list LabelPage) :
  let res := fst (processLabelsPdf customFont (List.map lp_items labels)
                                   (List.map lp_page labels) mappings) in
  ((forall p, In p labels -> resolvePage mappings (lp_items p) = None) ->
   res = inl NoMatchesFound) /\
  ((exists p, In p labels /\ resolvePage mappings (lp_items p) <> None) ->
   res <> inl NoMatchesFound /\
   res = inr (List.map (fun p => annotateIfResolved customFont mappings
                                    (lp_items p) (lp_page p)) labels)).
Proof.
  intros res. subst res. rewrite processLabelsPdf_spec. split.
  - intros H.
    assert (E : filter (fun p => resolved mappings (lp_items p)) labels = []).
    { apply filter_nil_iff. intros p Hin. unfold resolved. rewrite (H p Hin). reflexivity. }
    rewrite E. reflexivity.
  - intros (p & Hin & Hres).
    destruct (filter (fun p => resolved mappings (lp_items p)) labels) as [|q l] eqn:E.
    + exfalso. rewrite filter_nil_iff in E. specialize (E p Hin).
      unfold resolved in E. destruct (resolvePage mappings (lp_items p)); congruence.
    + simpl. split; [discriminate|reflexivity].
Qed.

(** ** The whole run *)

(** No shipment-number token on a page means no match collected. *)
Lemma matchesOf_nil_iff t :
  matchesOf t = [] <->
  forall s1 w s2, t = s1 ++ w ++ s2 -> ~ shipment_shape w.
Proof.
  pose proof (collectMatches_scan _ _ (collectMatches_matchesOf t)) as Hs.
  split.
  - intros E. rewrite E in Hs. inversion Hs; subst.
    intros s1 w s2 -> Hw. eapply H; eauto.
  - intros H. destruct (matchesOf t) as [|m ms]; auto.
    inversion Hs; subst. exfalso. eapply H; eauto.
Qed.

Lemma flat_map_nil_iff (A B : Type) (f : A -> list B) l :
  flat_map f l = [] <-> forall x, In x l -> f x = [].
Proof.
  induction l as [|a l IH]; simpl.
  - split; auto. intros _ x [].
  - split.
    + intros H. apply app_eq_nil in H. destruct H as [Ha Hl].
      intros x [<-|Hin]; auto. apply IH; auto.
    + intros H. rewrite (H a) by auto. simpl. apply IH. intros x Hin. apply H. auto.
Qed.

(** The mapping table is empty exactly when no page of the orders
    document holds a shipment-shaped word. *)
Lemma parseOrdersPdf_empty_iff pdf :
  parseOrdersPdf pdf = Some [] <->
  forall items, In items pdf ->
  forall s1 w s2, pageText items = s1 ++ w ++ s2 -> ~ shipment_shape w.
Proof.
  rewrite parseOrdersPdf_total. split.
  - intros H. inversion H as [E]. rewrite flat_map_nil_iff in E.
    intros items Hin. apply matchesOf_nil_iff.
    specialize (E items Hin). apply (f_equal (@length _)) in E.
    rewrite pageRecords_length in E. simpl in E.
    destruct (matchesOf (pageText items)); simpl in E; auto; discriminate.
  - intros H. f_equal. apply flat_map_nil_iff. intros items Hin.
    specialize (H items Hin). apply matchesOf_nil_iff in H.
    unfold pageRecords. cbv zeta. rewrite H. reflexivity.
Qed.

(** C5. When the orders document holds no shipment-number token on any
    page, so that the mapping table is empty, the run ends in the
    no-records error without reading any label page and hands out no
    document. *)
Theorem C5_no_records_error (customFont : Font) (orders : list TextPage)
        (labels : list LabelPage) :
  (forall items, In items orders ->
   forall s1 w s2, pageText items = s1 ++ w ++ s2 -> ~ shipment_shape w) ->
  parseOrdersPdf orders = Some [] /\
  handleProcess customFont (Some orders) (Some labels) =
  Some (mkRun (inl NoRecordsExtracted) []).
Proof.
  intros H. apply parseOrdersPdf_empty_iff in H. split; auto.
  unfold handleProcess. rewrite H. reflexivity.
Qed.

(** ** Page geometry *)

Local Open Scope Q_scope.

(** The height of an annotated page. *)
Lemma annotatePage_height customFont mapping page :
  box_height (mediaBox (annotatePage customFont mapping page)) ==
  box_height (mediaBox page) + 2 * extraHeight.
Proof. unfold annotatePage. simpl. unfold extraHeight. ring. Qed.

(** C2 (the code differs). The height of a page after annotation is
    its height before plus twice [extraHeight]: [setSize] has already
    added the margin when [getMediaBox] is read, and [setMediaBox] adds
    it again.  So the height after is never the height before plus
    [extraHeight]. *)
Theorem C2_height_grows_twice (customFont : Font) (mapping : OrderMapping)
        (page : PDFPage) :
  box_height (mediaBox (annotatePage customFont mapping page)) ==
  box_height (mediaBox page) + extraHeight + extraHeight /\
  ~ box_height (mediaBox (annotatePage customFont mapping page)) ==
    box_height (mediaBox page) + extraHeight.
Proof.
  split.
  - rewrite annotatePage_height. ring.
  - rewrite annotatePage_height. unfold extraHeight. intros H.
    assert (X : box_height (mediaBox page) + 2 * 25 - box_height (mediaBox page) ==
                box_height (mediaBox page) + 25 - box_height (mediaBox page))
      by (rewrite H; reflexivity).
    ring_simplify in X. discriminate X.
Qed.

(** What [annotatePage] draws, from the old geometry and the font
    metrics. *)
Lemma annotatePage_drawn customFont mapping page :
  let text := artPrefix ++ article mapping in
  let textWidth := widthOfTextAtSize customFont text fontSize in
  let textHeight := heightAtSize customFont fontSize in
  drawn (annotatePage customFont mapping page) =
  drawn page ++
  [OpRectangle ((box_width (mediaBox page) - textWidth) / 2 - 5)
               (box_y (mediaBox page) - extraHeight + 5 - 2)
               (textWidth + 10) (textHeight + 4) white;
   OpText text ((box_width (mediaBox page) - textWidth) / 2)
          (box_y (mediaBox page) - extraHeight + 5) fontSize black].
Proof.
  unfold annotatePage. simpl. rewrite <- app_assoc. reflexivity.
Qed.



Local Close Scope Q_scope.

(** ** Runs of characters *)

Lemma take_drop p : forall s, s = takeWhile p s ++ dropWhile p s.
Proof.
  induction s as [|x t IH]; simpl; auto.
  destruct (p x); simpl; congruence.
Qed.

Lemma takeWhile_all p : forall s, all p (takeWhile p s).
Proof.
  unfold all. induction s as [|x t IH]; simpl; auto.
  destruct (p x) eqn:E; simpl; auto. rewrite E. auto.
Qed.

Lemma dropWhile_stops p : forall s, stops p (dropWhile p s).
Proof.
  induction s as [|x t IH]; simpl; auto.
  destruct (p x) eqn:E; simpl; auto.
Qed.

Lemma dropWhile_app_all p : forall a b, all p a -> dropWhile p (a ++ b) = dropWhile p b.
Proof.
  unfold all. induction a as [|x a IH]; intros b H; simpl in *; auto.
  apply andb_true_iff in H. destruct H as [-> H]. auto.
Qed.

Lemma dropWhile_stopped p s : stops p s -> dropWhile p s = s.
Proof. destruct s as [|x t]; simpl; auto. intros ->. reflexivity. Qed.

Lemma starts_with_dropWhile p s : starts_with p (dropWhile p s) = false.
Proof.
  pose proof (dropWhile_stops p s) as H.
  destruct (dropWhile p s); simpl in *; auto.
Qed.

Lemma stops_starts_with p s : stops p s <-> starts_with p s = false.
Proof. destruct s; simpl; split; auto. Qed.

Lemma digit_not_space x : Cls.digit x = true -> Cls.space x = false.
Proof.
  unfold Cls.digit, Cls.between. intros H.
  apply andb_true_iff in H. destruct H as [H1 H2].
  apply N.leb_le in H1. apply N.leb_le in H2.
  unfold Cls.space, Cls.line_terminator, Cls.between.
  repeat match goal with
         | |- (_ || _)%bool = false => apply orb_false_iff; split
         | |- (_ && _)%bool = false => apply andb_false_iff; left
         | |- N.eqb _ _ = false => apply N.eqb_neq; lia
         | |- N.leb _ _ = false => apply N.leb_gt; lia
         end.
Qed.

(** ** [trim] *)

Lemma dropWhile_keeps_last p : forall s c,
  p c = false -> exists z, dropWhile p (s ++ [c]) = z ++ [c].
Proof.
  induction s as [|x s IH]; intros c Hc; simpl.
  - rewrite Hc. exists []. reflexivity.
  - destruct (p x).
    + apply IH; auto.
    + exists (x :: s). reflexivity.
Qed.

Lemma trimEnd_keeps_head s :
  starts_with Cls.space s = false -> starts_with Cls.space (trimEnd s) = false.
Proof.
  unfold trimEnd. destruct s as [|c s]; simpl; auto. intros Hc.
  destruct (dropWhile_keeps_last Cls.space (rev s) c Hc) as [z ->].
  rewrite rev_app_distr. simpl. auto.
Qed.

(** A trimmed string begins with no whitespace. *)
Lemma trim_no_leading_space s : starts_with Cls.space (trim s) = false.
Proof.
  unfold trim. apply trimEnd_keeps_head. apply starts_with_dropWhile.
Qed.

(** A trimmed string ends with no whitespace. *)
Lemma trim_no_trailing_space s : ends_with Cls.space (trim s) = false.
Proof.
  unfold ends_with, trim, trimEnd. rewrite rev_involutive.
  apply starts_with_dropWhile.
Qed.

(** The head of [trim s] is the first character of [s] that is not
    whitespace. *)
Lemma trim_head s : starts_with Cls.digit (trim s) = starts_with Cls.digit (trimStart s).
Proof.
  unfold trim.
  pose proof (starts_with_dropWhile Cls.space s) as Hh. fold (trimStart s) in Hh.
  destruct (trimStart s) as [|c y] eqn:E; [reflexivity|].
  simpl in Hh. unfold trimEnd. simpl.
  destruct (dropWhile_keeps_last Cls.space (rev y) c Hh) as [z ->].
  rewrite rev_app_distr. reflexivity.
Qed.

(** ** The cleanup of the product name *)

Lemma search_bol_later r : forall rest pos, search (Seq Bol r) (S pos) rest = None.
Proof. induction rest as [|x t IH]; intros pos; simpl; auto. Qed.

Lemma leadingNumber_Matches pos w rest c c' :
  Matches leadingNumberRegex pos w rest c c' ->
  exists a b d, w = a ++ b ++ d /\ all Cls.space a /\ all Cls.digit b /\
                b <> [] /\ all Cls.space d.
Proof.
  unfold leadingNumberRegex. intros M.
  repeat match goal with
         | H : Matches (Seq _ _) _ _ _ _ _ |- _ => inversion H; clear H; subst
         | H : Matches Bol _ _ _ _ _ |- _ => inversion H; clear H; subst
         | H : Matches (Rep _ _ _ _) _ _ _ _ _ |- _ => inversion H; clear H; subst
         end.
  match goal with
  | |- exists _ _ _, [] ++ ?a ++ ?b ++ ?d = _ /\ _ => exists a, b, d
  end.
  repeat split; auto.
  intros ->. simpl in *. lia.
Qed.

Lemma leadingNumber_no_match s :
  starts_with Cls.digit (dropWhile Cls.space s) = false ->
  js_match leadingNumberRegex s = None.
Proof.
  intros H. unfold js_match.
  assert (E : match_at leadingNumberRegex 0 s = None).
  { destruct (match_at leadingNumberRegex 0 s) as [m|] eqn:E; auto. exfalso.
    apply match_at_sound in E. destruct E as (rest' & c' & E & M & _).
    apply leadingNumber_Matches in M.
    destruct M as (a & b & d & Ew & Ha & Hb & Hne & Hd).
    rewrite Ew in E. subst s.
    rewrite <- !app_assoc in H. rewrite dropWhile_app_all in H by auto.
    destruct b as [|x b]; [congruence|].
    apply all_app with (a := [x]) (b := b) in Hb. destruct Hb as [Hx _].
    unfold all in Hx. simpl in Hx. rewrite andb_true_r in Hx.
    simpl in H. rewrite (digit_not_space _ Hx) in H. simpl in H. congruence. }
  destruct s as [|x t]; cbn [search]; rewrite E; [reflexivity|].
  apply search_bol_later.
Qed.

Lemma leadingNumber_match s :
  starts_with Cls.digit (dropWhile Cls.space s) = true ->
  exists m,
    js_match leadingNumberRegex s = Some m /\ m_index m = 0 /\
    skipn (m_end m) s =
    dropWhile Cls.space (dropWhile Cls.digit (dropWhile Cls.space s)).
Proof.
  intros H.
  set (ws := takeWhile Cls.space s).
  set (s1 := dropWhile Cls.space s) in *.
  set (ds := takeWhile Cls.digit s1).
  set (s2 := dropWhile Cls.digit s1).
  set (ws2 := takeWhile Cls.space s2).
  set (s3 := dropWhile Cls.space s2).
  assert (E : s = ws ++ ds ++ ws2 ++ s3).
  { unfold ws, ds, ws2, s3, s2, s1. rewrite <- !take_drop. reflexivity. }
  assert (Hds : 1 <= length ds).
  { unfold ds. destruct s1 as [|x t]; simpl in *; [discriminate|].
    rewrite H. simpl. lia. }
  assert (Hs1 : stops Cls.space (ds ++ ws2 ++ s3)).
  { unfold ds, ws2, s3, s2. rewrite <- !take_drop. apply dropWhile_stops. }
  assert (Hs2 : stops Cls.digit (ws2 ++ s3)).
  { unfold ws2, s3. rewrite <- take_drop. apply dropWhile_stops. }
  assert (Hs3 : stops Cls.space s3) by apply dropWhile_stops.
  set (e := length ws + length ds + length ws2).
  assert (M : match_at leadingNumberRegex 0 s =
              Some (mkMatch 0 e (firstn (e - 0) s) [])).
  { unfold match_at, leadingNumberRegex. cbn [run Nat.eqb].
    rewrite E at 1.
    apply rep_greedy_max;
      [apply takeWhile_all | lia | exact I | right; assumption | cbn beta].
    apply rep_greedy_max;
      [apply takeWhile_all | lia | exact I | right; assumption | cbn beta].
    apply rep_greedy_max;
      [apply takeWhile_all | lia | exact I | right; assumption | cbn beta].
    reflexivity. }
  exists (mkMatch 0 e (firstn (e - 0) s) []). split; [|split; [reflexivity|]].
  - unfold js_match. destruct s; cbn [search]; rewrite M; reflexivity.
  - cbn [m_end]. rewrite E.
    replace (ws ++ ds ++ ws2 ++ s3) with ((ws ++ ds ++ ws2) ++ s3)
      by (rewrite <- !app_assoc; reflexivity).
    apply skipn_length_app. unfold e. rewrite !length_app. lia.
Qed.

(** The cleanup pattern removes one leading number. *)
Lemma replace_leadingNumber s :
  replace_empty leadingNumberRegex s = stripLeadingNumber s.
Proof.
  unfold replace_empty, stripLeadingNumber.
  destruct (starts_with Cls.digit (dropWhile Cls.space s)) eqn:H.
  - destruct (leadingNumber_match s H) as (m & -> & Hi & He).
    rewrite Hi, He. reflexivity.
  - rewrite leadingNumber_no_match by auto. reflexivity.
Qed.

Lemma cleanProductName_spec raw :
  cleanProductName raw = trim (stripLeadingNumber raw).
Proof. unfold cleanProductName. rewrite replace_leadingNumber. reflexivity. Qed.

Lemma stripped_starts_with_digit raw :
  starts_with Cls.digit (trim (stripLeadingNumber raw)) = true ->
  exists ws1 d1 ws2 x rest,
    raw = ws1 ++ d1 ++ ws2 ++ x :: rest /\
    all Cls.space ws1 /\ all Cls.digit d1 /\ d1 <> [] /\
    all Cls.space ws2 /\ ws2 <> [] /\ Cls.digit x = true.
Proof.
  rewrite trim_head. unfold stripLeadingNumber, trimStart.
  destruct (starts_with Cls.digit (dropWhile Cls.space raw)) eqn:H; [|congruence].
  set (s1 := dropWhile Cls.space raw) in *.
  set (s2 := dropWhile Cls.digit s1).
  set (s3 := dropWhile Cls.space s2).
  rewrite (dropWhile_stopped Cls.space s3) by apply dropWhile_stops.
  intros H3.
  destruct s3 as [|x rest] eqn:E3; [discriminate|]. simpl in H3.
  exists (takeWhile Cls.space raw), (takeWhile Cls.digit s1),
    (takeWhile Cls.space s2), x, rest.
  rewrite <- E3. unfold s3, s2, s1. rewrite <- !take_drop.
  repeat split; auto using takeWhile_all.
  - fold s1. destruct s1 as [|y t]; simpl in *; [discriminate|].
    rewrite H. discriminate.
  - fold s1. fold s2. intros Hnil.
    pose proof (take_drop Cls.space s2) as Ed. rewrite Hnil in Ed. simpl in Ed.
    fold s3 in Ed. rewrite E3 in Ed.
    pose proof (starts_with_dropWhile Cls.digit s1) as Hd. fold s2 in Hd.
    rewrite Ed in Hd. simpl in Hd. congruence.
Qed.

(** Conversely, a name with two leading numbers keeps the second. *)
Lemma stripped_keeps_second_number ws1 d1 ws2 x rest :
  all Cls.space ws1 -> all Cls.digit d1 -> d1 <> [] ->
  all Cls.space ws2 -> ws2 <> [] -> Cls.digit x = true ->
  starts_with Cls.digit
    (trim (stripLeadingNumber (ws1 ++ d1 ++ ws2 ++ x :: rest))) = true.
Proof.
  intros H1 Hd Nd H2 N2 Hx.
  rewrite trim_head. unfold stripLeadingNumber, trimStart.
  rewrite (dropWhile_app_all Cls.space ws1) by exact H1.
  assert (S1 : dropWhile Cls.space (d1 ++ ws2 ++ x :: rest) = d1 ++ ws2 ++ x :: rest).
  { apply dropWhile_stopped. destruct d1 as [|c d1']; [congruence|]. simpl.
    apply digit_not_space. unfold all in Hd. simpl in Hd.
    apply andb_true_iff in Hd. tauto. }
  rewrite S1.
  assert (S2 : starts_with Cls.digit (d1 ++ ws2 ++ x :: rest) = true).
  { destruct d1 as [|c d1']; [congruence|]. simpl.
    unfold all in Hd. simpl in Hd. apply andb_true_iff in Hd. tauto. }
  rewrite S2.
  rewrite (dropWhile_app_all Cls.digit d1) by exact Hd.
  assert (S3 : dropWhile Cls.digit (ws2 ++ x :: rest) = ws2 ++ x :: rest).
  { apply dropWhile_stopped. destruct ws2 as [|c ws2']; [congruence|]. simpl.
    unfold all in H2. simpl in H2. apply andb_true_iff in H2. destruct H2 as [Hc _].
    destruct (Cls.digit c) eqn:E; [|reflexivity].
    apply digit_not_space in E. congruence. }
  rewrite S3.
  rewrite (dropWhile_app_all Cls.space ws2) by exact H2.
  assert (S4 : dropWhile Cls.space (x :: rest) = x :: rest).
  { apply dropWhile_stopped. simpl. apply digit_not_space. exact Hx. }
  rewrite S4, S4. exact Hx.
Qed.

(** Where the text block of a row ends. *)
Lemma placed_bounds len : forall ms from j m,
  placed len from ms -> nth_error ms j = Some m ->
  index m + length (number m) <=
    match nth_error ms (S j) with Some n => index n | None => len end /\
  match nth_error ms (S j) with Some n => index n | None => len end <= len.
Proof.
  induction ms as [|a ms IH]; intros from [|j] m Hp Hj; simpl in *; try discriminate.
  - inversion Hj; subst. destruct Hp as [_ Hp].
    destruct ms as [|b ms']; simpl in *.
    + lia.
    + destruct Hp as [H1 H2]. apply placed_le in H2. lia.
  - destruct Hp as [_ Hp]. eapply IH; eauto.
Qed.

(** What [rowStep] does for row [j]: the text block is the text between
    the match and the next, trimmed, and one record is pushed. *)
Lemma rowStep_row fullText matches j m :
  Scan 0 fullText matches -> nth_error matches j = Some m ->
  let gap := slice fullText (index m + length (number m))
                   (match nth_error matches (S j) with
                    | Some n => index n
                    | None => length fullText
                    end) in
  textBlockOf fullText m (nth_error matches (j + 1)) = trim gap /\
  forall mappings,
    rowStep fullText matches mappings j = mappings ++ [recordOf (m, gap)].
Proof.
  intros Hs Hj gap.
  pose proof (Scan_placed _ _ _ Hs) as Hp. simpl in Hp.
  destruct (placed_bounds _ _ _ _ _ Hp Hj) as [B1 B2].
  assert (E : textBlockOf fullText m (nth_error matches (j + 1)) = trim gap).
  { unfold textBlockOf. rewrite Nat.add_1_r.
    rewrite substring_slice by assumption. reflexivity. }
  split; [exact E|].
  intros mappings. unfold rowStep. rewrite Hj. cbv zeta. rewrite E.
  pose proof (Scan_shapes _ _ _ Hs) as Hsh. rewrite Forall_forall in Hsh.
  rewrite (shipment_shape_truthy _ (Hsh m (nth_error_In _ _ Hj))).
  unfold recordOf. cbn [fst snd].
  destruct (rowFields (trim gap)) as [a p]. reflexivity.
Qed.

(** Every record of the table is pushed by [rowStep] for a row of a
    page. *)
Lemma record_of_row pdf r :
  In r (flat_map pageRecords pdf) ->
  exists items matches j m,
    In items pdf /\ collectMatches (pageText items) = Some matches /\
    nth_error matches j = Some m /\
    (forall mappings,
       rowStep (pageText items) matches mappings j = mappings ++ [r]) /\
    r = mkMapping (number m)
          (fst (rowFields (textBlockOf (pageText items) m (nth_error matches (j + 1)))))
          (cleanProductName
             (snd (rowFields (textBlockOf (pageText items) m (nth_error matches (j + 1)))))).
Proof.
  intros Hin. apply in_flat_map in Hin. destruct Hin as (items & Hi & Hin).
  apply In_nth_error in Hin. destruct Hin as [j Hj].
  unfold pageRecords in Hj. cbv zeta in Hj.
  rewrite nth_error_map in Hj.
  destruct (nth_error (combine _ _) j) as [[m b]|] eqn:Ec; [|discriminate].
  simpl in Hj. injection Hj as Hr.
  pose proof (collectMatches_matchesOf (pageText items)) as Hc.
  pose proof (collectMatches_scan _ _ Hc) as Hs.
  assert (Hm : nth_error (matchesOf (pageText items)) j = Some m).
  { revert Ec. generalize (blocksOf (pageText items) (matchesOf (pageText items))).
    generalize (matchesOf (pageText items)). clear. intros l.
    revert j. induction l as [|x l IH]; intros [|j] [|y l'] H; simpl in *;
      try discriminate; [congruence|eauto]. }
  assert (Hb : nth_error (blocksOf (pageText items) (matchesOf (pageText items))) j = Some b).
  { revert Ec. generalize (blocksOf (pageText items) (matchesOf (pageText items))).
    generalize (matchesOf (pageText items)). clear. intros l.
    revert j. induction l as [|x l IH]; intros [|j] [|y l'] H; simpl in *;
      try discriminate; [congruence|eauto]. }
  assert (Eb : b = slice (pageText items) (index m + length (number m))
                     (match nth_error (matchesOf (pageText items)) (S j) with
                      | Some n => index n
                      | None => length (pageText items)
                      end)).
  { pose proof (blocksOf_nth (pageText items) _ _ _ Hm) as Hb'. congruence. }
  subst b.
  destruct (rowStep_row _ _ _ _ Hs Hm) as [E Hrow]. cbv zeta in E, Hrow.
  rewrite Hr in Hrow.
  exists items, (matchesOf (pageText items)), j, m.
  split; [exact Hi|]. split; [exact Hc|]. split; [exact Hm|].
  split; [exact Hrow|].
  rewrite E. rewrite <- Hr. reflexivity.
Qed.

(** C9 (the code differs). The cleanup removes one leading number, not
    every leading run of digits and whitespace.  Every record of the
    table is pushed by [rowStep] for a row of a page, and its product
    name is the name the grammars gave for the text block of that row
    with one leading number (optional whitespace, a run of digits,
    optional whitespace) removed and then trimmed.  The name never
    begins or ends with whitespace, but it begins with a digit exactly
    when the number removed was followed by whitespace and a further
    digit.  On the row with the name "12 34 abc" the product name is
    "34 abc". *)
Theorem C9_one_leading_number_stripped (pdf : list TextPage) :
  match parseOrdersPdf pdf with
  | Some table =>
      forall r, In r table ->
      exists items matches j m,
        In items pdf /\ collectMatches (pageText items) = Some matches /\
        nth_error matches j = Some m /\
        let block := textBlockOf (pageText items) m (nth_error matches (j + 1)) in
        let raw := snd (rowFields block) in
        (forall mappings,
           rowStep (pageText items) matches mappings j = mappings ++ [r]) /\
        productName r = trim (stripLeadingNumber raw) /\
        starts_with Cls.space (productName r) = false /\
        ends_with Cls.space (productName r) = false /\
        (starts_with Cls.digit (productName r) = true <->
         exists ws1 d1 ws2 x rest,
           raw = ws1 ++ d1 ++ ws2 ++ x :: rest /\
           all Cls.space ws1 /\ all Cls.digit d1 /\ d1 <> [] /\
           all Cls.space ws2 /\ ws2 <> [] /\ Cls.digit x = true)
  | None => False
  end /\
  (parseOrdersPdf [twoNumbersPage] =
   Some [mkMapping (lit "0149711785-0110-1") (lit "F/034") (lit "34 abc")] /\
   starts_with Cls.digit (lit "34 abc") = true).
Proof.
  split; [|split; [vm_compute; reflexivity|reflexivity]].
  rewrite parseOrdersPdf_total. intros r Hin.
  destruct (record_of_row pdf r Hin) as (items & matches & j & m & Hi & Hc & Hm & Hrow & Hr).
  exists items, matches, j, m.
  split; [exact Hi|]. split; [exact Hc|]. split; [exact Hm|].
  cbv zeta. split; [exact Hrow|].
  assert (Hn : productName r =
               trim (stripLeadingNumber
                       (snd (rowFields (textBlockOf (pageText items) m
                                                    (nth_error matches (j + 1))))))).
  { rewrite Hr. cbn [productName]. apply cleanProductName_spec. }
  split; [exact Hn|]. rewrite Hn.
  split; [apply trim_no_leading_space|].
  split; [apply trim_no_trailing_space|].
  split.
  - apply stripped_starts_with_digit.
  - intros (ws1 & d1 & ws2 & x & rest & -> & H1 & Hd & Nd & H2 & N2 & Hx).
    apply stripped_keeps_second_number; assumption.
Qed.

(** ** The fallback grammar *)

Lemma length_pos_nonempty (A : Type) (l : list A) : 1 <= length l <-> l <> [].
Proof. destruct l; simpl; split; intros; try congruence; lia. Qed.

Lemma article_Matches pos w rest c c' :
  Matches articleRegex pos w rest c c' <->
  article_shape w /\ c' = (1, w) :: c.
Proof.
  unfold articleRegex. split.
  - intros M.
    repeat match goal with
           | H : Matches (Grp _ _) _ _ _ _ _ |- _ => inversion H; clear H; subst
           | H : Matches (Seq _ _) _ _ _ _ _ |- _ => inversion H; clear H; subst
           | H : Matches (Chr _) _ _ _ _ _ |- _ => inversion H; clear H; subst
           | H : Matches (Rep _ _ _ _) _ _ _ _ _ |- _ => inversion H; clear H; subst
           end.
    split; auto.
    match goal with
    | |- article_shape (?a ++ [?x] ++ ?b) => exists a, x, b
    end.
    repeat split; auto; apply length_pos_nonempty; auto.
  - intros [(a & x & b & -> & Ha & Na & Hx & Hb & Nb) ->].
    apply length_pos_nonempty in Na. apply length_pos_nonempty in Nb.
    apply M_Grp.
    eapply M_Seq with (w1 := a) (w2 := x :: b); [constructor; simpl; auto|].
    eapply M_Seq with (w1 := [x]) (w2 := b); [constructor; auto|].
    constructor; simpl; auto.
Qed.

Lemma sep_not_alnum x : Cls.sep x = true -> Cls.alnum x = false.
Proof.
  unfold Cls.sep. intros H. apply orb_true_iff in H.
  destruct H as [H|H]; apply N.eqb_eq in H; subst; reflexivity.
Qed.

(** At the start of an article-shaped token that cannot be extended,
    [articleRegex] matches that token. *)
Lemma article_match_exact pos a x b post :
  all Cls.alnum a -> a <> [] -> Cls.sep x = true ->
  all Cls.alnum b -> b <> [] -> stops Cls.alnum post ->
  let w := a ++ x :: b in
  match_at articleRegex pos (w ++ post) =
  Some (mkMatch pos (pos + length w) w [(1, w)]).
Proof.
  intros Ha Na Hx Hb Nb Hstop w.
  apply length_pos_nonempty in Na. apply length_pos_nonempty in Nb.
  unfold match_at, articleRegex. cbn [run].
  subst w. rewrite <- app_assoc. cbn [app].
  apply rep_greedy_max; [exact Ha | lia | exact I | | cbn beta iota].
  { right. simpl. apply sep_not_alnum. auto. }
  rewrite Hx.
  apply rep_greedy_max; [exact Hb | lia | exact I | right; exact Hstop | cbn beta].
  f_equal.
  assert (E : S (pos + length a) + length b = pos + length (a ++ x :: b)).
  { rewrite length_app. simpl. lia. }
  rewrite E.
  replace (pos + length (a ++ x :: b) - pos) with (length (a ++ x :: b)) by lia.
  replace (a ++ x :: b ++ post) with ((a ++ x :: b) ++ post)
    by (rewrite <- app_assoc; reflexivity).
  rewrite firstn_length_app by reflexivity. reflexivity.
Qed.

Lemma article_match_none pos t :
  no_article_here t -> match_at articleRegex pos t = None.
Proof.
  intros H. destruct (match_at articleRegex pos t) as [m|] eqn:E; auto.
  exfalso. apply match_at_sound in E.
  destruct E as (rest' & c' & Et & M & _).
  apply article_Matches in M. destruct M as [Hs _].
  eapply H; eauto.
Qed.

(** The fallback grammar on a block whose first article-shaped token
    is [a ++ x :: b], after the text [pre]. *)
Lemma fallbackGrammar_first_token pre a x b post :
  all Cls.alnum a -> a <> [] -> Cls.sep x = true ->
  all Cls.alnum b -> b <> [] -> stops Cls.alnum post ->
  (forall s1 s2, pre = s1 ++ s2 -> s2 <> [] ->
                 no_article_here (s2 ++ (a ++ x :: b) ++ post)) ->
  fallbackGrammar (pre ++ (a ++ x :: b) ++ post) =
  Some (a ++ x :: b, trim pre).
Proof.
  intros Ha Na Hx Hb Nb Hstop Hfirst.
  unfold fallbackGrammar, js_match.
  rewrite (search_first articleRegex pre 0 ((a ++ x :: b) ++ post)
             (mkMatch (0 + length pre) (0 + length pre + length (a ++ x :: b))
                      (a ++ x :: b) [(1, a ++ x :: b)])).
  - cbn [m_index group m_caps cap_get Nat.eqb]. simpl Nat.add.
    rewrite substring_prefix. reflexivity.
  - intros s1 s2 E Hne. apply article_match_none. eapply Hfirst; eauto.
  - apply article_match_exact; auto.
Qed.

Lemma article_none_no_article pos t :
  match_at articleRegex pos t = None -> no_article_here t.
Proof.
  intros H w r -> Hs. revert H.
  eapply match_at_complete. apply article_Matches. split; eauto.
Qed.

(** C7 (amended). On a text block where the primary grammar fails and
    whose first article-shaped token is [a ++ x :: b], standing after
    the text [pre], the article is that token, which is not empty, and
    the product name is [pre] trimmed, from which the cleanup then
    removes one leading number. *)
Theorem C7_fallback_takes_first_token (m : ShipMatch)
        (block pre a b post : jsstring) (x : char) :
  primaryGrammar (trim block) = None ->
  trim block = pre ++ (a ++ x :: b) ++ post ->
  all Cls.alnum a -> a <> [] -> Cls.sep x = true ->
  all Cls.alnum b -> b <> [] -> stops Cls.alnum post ->
  (forall s1 s2, pre = s1 ++ s2 -> s2 <> [] ->
                 no_article_here (s2 ++ (a ++ x :: b) ++ post)) ->
  rowFields (trim block) = (a ++ x :: b, trim pre) /\
  recordOf (m, block) =
  mkMapping (number m) (a ++ x :: b) (trim (stripLeadingNumber (trim pre))) /\
  article (recordOf (m, block)) <> [].
Proof.
  intros Hprim E Ha Na Hx Hb Nb Hstop Hfirst.
  assert (F : rowFields (trim block) = (a ++ x :: b, trim pre)).
  { unfold rowFields. rewrite Hprim, E.
    rewrite fallbackGrammar_first_token; auto. }
  split; [exact F|].
  unfold recordOf. cbn [fst snd]. rewrite F. cbn [fst snd article].
  rewrite cleanProductName_spec. split; [reflexivity|].
  destruct a; [congruence|discriminate].
Qed.

(** C7 as stated fails: in the block "12 abc F/034" the text before
    the first token is "12 abc " with its blank, while the product name
    the fallback grammar assigns is "12 abc" and the one of the record
    is "abc". *)
Lemma C7_name_is_not_the_text_before :
  primaryGrammar (lit "12 abc F/034") = None /\
  lit "12 abc F/034" = lit "12 abc " ++ lit "F/034" /\
  rowFields (lit "12 abc F/034") = (lit "F/034", lit "12 abc") /\
  parseOrdersPdf [[lit "0149711785-0110-1 12 abc F/034"]] =
  Some [mkMapping (lit "0149711785-0110-1") (lit "F/034") (lit "abc")] /\
  lit "12 abc" <> lit "12 abc " /\ lit "abc" <> lit "12 abc ".
Proof.
  repeat split; try (vm_compute; reflexivity); discriminate.
Qed.

(** ** Words *)

Lemma words_space_app : forall a r, all Cls.space a -> words (a ++ r) = words r.
Proof.
  unfold all. induction a as [|x a IH]; intros r H; simpl in *; auto.
  apply andb_true_iff in H. destruct H as [-> H]. auto.
Qed.

Lemma nonspace_true x : Cls.nonspace x = true <-> Cls.space x = false.
Proof. unfold Cls.nonspace. apply negb_true_iff. Qed.

Lemma words_word_app : forall w r,
  all Cls.nonspace w -> w <> [] -> stops Cls.nonspace r ->
  words (w ++ r) = w :: words r.
Proof.
  unfold all. induction w as [|x w IH]; intros r H Hne Hr; [congruence|].
  simpl in H. apply andb_true_iff in H. destruct H as [Hx H].
  apply nonspace_true in Hx. simpl. rewrite Hx.
  destruct w as [|y w].
  - simpl. apply stops_starts_with in Hr. rewrite Hr. reflexivity.
  - rewrite IH by (auto; discriminate).
    simpl in H. apply andb_true_iff in H. destruct H as [Hy _].
    simpl. rewrite Hy. reflexivity.
Qed.

Lemma words_nil_all_space : forall s, words s = [] -> all Cls.space s.
Proof.
  unfold all. induction s as [|x t IH]; simpl; auto.
  destruct (Cls.space x) eqn:E.
  - intros H. simpl. auto.
  - destruct (starts_with Cls.nonspace t).
    + destruct (words t); discriminate.
    + discriminate.
Qed.

Lemma space_stops_nonspace ws r :
  all Cls.space ws -> ws <> [] -> stops Cls.nonspace (ws ++ r).
Proof.
  unfold all. destruct ws as [|x ws]; [congruence|]. simpl.
  intros H _. apply andb_true_iff in H. destruct H as [H _].
  unfold Cls.nonspace. rewrite H. reflexivity.
Qed.

Lemma digits_nonspace d : all Cls.digit d -> all Cls.nonspace d.
Proof.
  unfold all. rewrite !forallb_forall. intros H x Hx.
  apply nonspace_true. apply digit_not_space. auto.
Qed.

(** Words are not split by text that is put in front of a blank. *)
Lemma words_app_before_space a r :
  stops Cls.nonspace r -> words (a ++ r) = words a ++ words r.
Proof.
  intros Hr. induction a as [|x a IH]; simpl; auto.
  destruct (Cls.space x); auto.
  rewrite IH.
  assert (E : starts_with Cls.nonspace (a ++ r) = starts_with Cls.nonspace a).
  { destruct a; simpl; auto. apply stops_starts_with. auto. }
  rewrite E.
  destruct (starts_with Cls.nonspace a) eqn:Ea; auto.
  destruct a as [|y a]; [discriminate|]. simpl in Ea.
  apply nonspace_true in Ea.
  destruct (words (y :: a)) eqn:Ew; auto.
  exfalso. apply words_nil_all_space in Ew. unfold all in Ew. simpl in Ew.
  rewrite Ea in Ew. discriminate.
Qed.

Lemma trim_nonspace w : all Cls.nonspace w -> trim w = w.
Proof.
  unfold all. intros H. unfold trim, trimStart, trimEnd.
  assert (S1 : forall s, forallb Cls.nonspace s = true -> stops Cls.space s).
  { intros [|x s]; simpl; auto. intros Hs. apply andb_true_iff in Hs.
    destruct Hs as [Hx _]. apply nonspace_true. auto. }
  rewrite (dropWhile_stopped Cls.space w) by auto.
  rewrite (dropWhile_stopped Cls.space (rev w)).
  - apply rev_involutive.
  - apply S1. rewrite forallb_forall in *. intros x Hx. apply H. apply in_rev. auto.
Qed.

(** ** The primary grammar *)

Lemma rowTail_sound pos w rest c c' :
  Matches rowTail pos w rest c c' ->
  rest = [] /\
  exists tok q d4,
    row_tail_shape tok q d4 w /\ c' = (4, d4) :: (3, q) :: (2, tok) :: c.
Proof.
  unfold rowTail. intros M. invert_path.
  - split; [reflexivity|].
    match goal with
    | |- exists _ _ _, row_tail_shape _ _ _
           (?w1 ++ ?tok ++ ?w2 ++ ?q ++ ?w3 ++ ?d ++ ?w4 ++ (?n ++ ?w5) ++ []) /\ _ =>
        exists tok, q, d; split; [exists w1, w2, w3, w4, (n ++ w5)|reflexivity]
    end.
    rewrite app_nil_r. unfold fits in *.
    repeat split; auto; try (apply length_pos_nonempty; assumption); try lia.
    right. eexists _, _. repeat split; eauto. apply length_pos_nonempty; auto.
  - split; [reflexivity|].
    match goal with
    | |- exists _ _ _, row_tail_shape _ _ _
           (?w1 ++ ?tok ++ ?w2 ++ ?q ++ ?w3 ++ ?d ++ ?w4 ++ [] ++ []) /\ _ =>
        exists tok, q, d; split; [exists w1, w2, w3, w4, []|reflexivity]
    end.
    unfold fits in *.
    repeat split; auto; try (apply length_pos_nonempty; assumption); try lia.
    left. reflexivity.
Qed.

Lemma rowTail_complete pos tok q d4 R c :
  row_tail_shape tok q d4 R ->
  Matches rowTail pos R [] c ((4, d4) :: (3, q) :: (2, tok) :: c).
Proof.
  intros (ws1 & ws2 & ws3 & ws4 & opt & -> & H1 & N1 & Ht & Nt & H2 & N2 &
          Hq & Nq & H3 & N3 & Hd & Ld & H4 & Ho).
  apply length_pos_nonempty in N1, Nt, N2, Nq, N3.
  unfold rowTail.
  eapply M_Seq; [constructor; simpl; auto|].
  eapply M_Seq; [apply M_Grp; constructor; simpl; auto|].
  eapply M_Seq; [constructor; simpl; auto|].
  eapply M_Seq; [apply M_Grp; constructor; simpl; auto|].
  eapply M_Seq; [constructor; simpl; auto|].
  eapply M_Seq; [apply M_Grp; constructor; simpl; auto; lia|].
  eapply M_Seq; [constructor; simpl; auto; lia|].
  rewrite <- (app_nil_r opt).
  eapply M_Seq; [|apply M_Eol].
  destruct Ho as [->|(n & ws5 & -> & Hn & Nn & H5)].
  - apply M_Opt_none.
  - apply length_pos_nonempty in Nn.
    apply M_Opt_some.
    eapply M_Seq with (w1 := n) (w2 := ws5); apply M_Rep; simpl; auto; lia.
Qed.

Lemma stops_nonspace_after_space ws r :
  all Cls.space ws -> stops Cls.nonspace r -> stops Cls.nonspace (ws ++ r).
Proof.
  destruct ws as [|x ws]; simpl; auto. unfold all. simpl. intros H _.
  apply andb_true_iff in H. destruct H as [H _].
  unfold Cls.nonspace. rewrite H. reflexivity.
Qed.

Lemma row_tail_stops tok q d4 R :
  row_tail_shape tok q d4 R -> stops Cls.nonspace R.
Proof.
  intros (ws1 & ws2 & ws3 & ws4 & opt & -> & H1 & N1 & _).
  apply space_stops_nonspace; auto.
Qed.

(** The words of a row end: the token, the quantity, and then either
    one word that begins with the four digits or the four digits and
    the carry-over number. *)
Lemma row_tail_words tok q d4 R :
  row_tail_shape tok q d4 R ->
  (exists n, all Cls.digit n /\ words R = [tok; q; d4 ++ n]) \/
  (exists n, all Cls.digit n /\ n <> [] /\ words R = [tok; q; d4; n]).
Proof.
  intros (ws1 & ws2 & ws3 & ws4 & opt & -> & H1 & N1 & Ht & Nt & H2 & N2 &
          Hq & Nq & H3 & N3 & Hd & Ld & H4 & Ho).
  assert (Nd : d4 <> []) by (destruct d4; simpl in Ld; [lia|discriminate]).
  rewrite (words_space_app ws1) by auto.
  rewrite (words_word_app tok) by (auto using space_stops_nonspace).
  rewrite (words_space_app ws2) by auto.
  rewrite (words_word_app q) by (auto using space_stops_nonspace, digits_nonspace).
  rewrite (words_space_app ws3) by auto.
  destruct Ho as [->|(n & ws5 & -> & Hn & Nn & H5)].
  - left. exists []. split; [reflexivity|].
    rewrite (words_word_app d4);
      [|apply digits_nonspace; auto|auto|apply stops_nonspace_after_space; simpl; auto].
    rewrite (words_space_app ws4) by auto. rewrite app_nil_r. reflexivity.
  - destruct ws4 as [|y ws4].
    + left. exists n. split; [auto|]. cbn [app]. rewrite app_assoc.
      rewrite (words_word_app (d4 ++ n)).
      * rewrite <- (app_nil_r ws5), (words_space_app ws5) by auto. reflexivity.
      * apply digits_nonspace. apply all_app. auto.
      * destruct d4; simpl; [congruence|discriminate].
      * rewrite <- (app_nil_r ws5). apply stops_nonspace_after_space; simpl; auto.
    + right. exists n. split; [auto|]. split; [auto|].
      rewrite (words_word_app d4);
        [|apply digits_nonspace; auto|auto|apply space_stops_nonspace; auto; discriminate].
      rewrite (words_space_app (y :: ws4)) by auto.
      rewrite (words_word_app n).
      * rewrite <- (app_nil_r ws5), (words_space_app ws5) by auto. reflexivity.
      * apply digits_nonspace; auto.
      * auto.
      * rewrite <- (app_nil_r ws5). apply stops_nonspace_after_space; simpl; auto.
Qed.

(** When a row end has a second reading that starts further left, its
    token is all digits, its quantity has four digits, and it has three
    words.  Otherwise both readings have the same token. *)
Lemma row_tail_token_unique X tok q d4 tok' q' d4' R :
  row_tail_shape tok q d4 R ->
  row_tail_shape tok' q' d4' (X ++ R) ->
  ~ all Cls.digit tok \/ length q <> 4 \/ length (words R) = 4 ->
  tok' = tok /\ all Cls.space X.
Proof.
  intros HR HX D.
  pose proof (row_tail_stops _ _ _ _ HR) as Hst.
  pose proof (row_tail_words _ _ _ _ HX) as WX.
  pose proof (row_tail_words _ _ _ _ HR) as WR.
  destruct HX as (_ & _ & _ & _ & _ & _ & _ & _ & _ & _ & _ & _ & Hq' & _ & _ & _ & _ & Ld' & _).
  rewrite (words_app_before_space X R Hst) in WX.
  destruct (words X) as [|x1 [|x2 xs]] eqn:EX.
  - split; [|apply words_nil_all_space; exact EX]. simpl in WX.
    destruct WX as [(n' & _ & E')|(n' & _ & _ & E')];
      destruct WR as [(n & _ & E)|(n & _ & _ & E)];
      rewrite E in E'; inversion E'; reflexivity.
  - exfalso. simpl in WX.
    destruct WX as [(n' & _ & E')|(n' & _ & _ & E')];
      destruct WR as [(n & _ & E)|(n & _ & _ & E)];
      rewrite E in E'; inversion E'; subst.
    destruct D as [D|[D|D]]; auto. rewrite E in D. discriminate.
  - exfalso. simpl in WX.
    destruct WX as [(n' & _ & E')|(n' & _ & _ & E')];
      destruct WR as [(n & _ & E)|(n & _ & _ & E)];
      rewrite E in E'; apply (f_equal (@length _)) in E'; simpl in E';
      rewrite length_app in E'; simpl in E'; lia.
Qed.

Lemma app_split_le : forall (a b c d : jsstring),
  a ++ b = c ++ d -> length c <= length a ->
  exists x, a = c ++ x /\ d = x ++ b.
Proof.
  induction a as [|u a IH]; intros b c d E L.
  - destruct c; simpl in L; [|lia]. exists []. simpl in *. auto.
  - destruct c as [|v c]; simpl in *.
    + exists (u :: a). auto.
    + inversion E; subst. destruct (IH b c d) as (x & -> & ->); auto; try lia.
      exists x. auto.
Qed.

Lemma rowEnd_at_tail pos tok q d4 R :
  row_tail_shape tok q d4 R -> match_at rowEndRegex pos R <> None.
Proof.
  intros H. rewrite <- (app_nil_r R).
  eapply match_at_complete. unfold rowEndRegex.
  eapply M_Seq with (w1 := []) (w2 := R).
  - apply M_Grp. apply M_Rep; simpl; auto.
  - apply rowTail_complete. eauto.
Qed.

Lemma dropWhile_app_cases p : forall (g y : jsstring),
  (all p g /\ dropWhile p g = [] /\ dropWhile p (g ++ y) = dropWhile p y) \/
  dropWhile p (g ++ y) = dropWhile p g ++ y.
Proof.
  unfold all. induction g as [|x g IH]; intros y; simpl.
  - left. auto.
  - destruct (p x); simpl; auto.
Qed.

(** Whitespace at the end does not change what [trim] returns. *)
Lemma trim_app_space g y : all Cls.space y -> trim (g ++ y) = trim g.
Proof.
  intros Hy. unfold trim, trimStart.
  destruct (dropWhile_app_cases Cls.space g y) as [(Hg & E1 & E2)|E].
  - rewrite E2, E1. rewrite <- (app_nil_r y), dropWhile_app_all by auto. reflexivity.
  - rewrite E. unfold trimEnd. rewrite rev_app_distr.
    rewrite dropWhile_app_all; auto.
    unfold all in *. rewrite forallb_forall in *. intros c Hc.
    apply Hy. apply in_rev. auto.
Qed.

(** The primary grammar on a block that ends in a row end: it matches,
    the article is the token of the row end unless the row end has a
    second reading further left, and the product name is the text
    before the row end, trimmed, when that text is on one line. *)
Lemma primaryGrammar_row_end pre tok q d4 R :
  row_tail_shape tok q d4 R ->
  ~ all Cls.digit tok \/ length q <> 4 \/ length (words R) = 4 ->
  exists name,
    primaryGrammar (pre ++ R) = Some (tok, name) /\
    (all Cls.dot pre -> name = trim pre).
Proof.
  intros HR D. unfold primaryGrammar, js_match.
  destruct (search rowEndRegex 0 (pre ++ R)) as [m|] eqn:S0.
  2:{ exfalso. revert S0. apply search_complete. eapply rowEnd_at_tail; eauto. }
  apply search_sound in S0.
  destruct S0 as (sk & rest' & E & Hi & Hm & Hnone).
  simpl in Hi.
  (* the match does not start after [pre] *)
  assert (Lsk : length sk <= length pre).
  { destruct (Nat.le_gt_cases (length sk) (length pre)) as [|Hgt]; auto. exfalso.
    symmetry in E.
    destruct (app_split_le sk rest' pre R E ltac:(lia)) as (x & Ex & ER).
    assert (Nx : x <> []).
    { intros ->. rewrite app_nil_r in Ex. subst. lia. }
    specialize (Hnone pre x Ex Nx). rewrite <- ER in Hnone.
    revert Hnone. eapply rowEnd_at_tail; eauto. }
  destruct (app_split_le pre R sk rest' E Lsk) as (x & Ex & ER).
  (* open the lazy group *)
  rewrite Hi in Hm. clear Hi.
  unfold match_at, rowEndRegex in Hm. cbn [run] in Hm.
  apply rep_lazy_shortest in Hm.
  destruct Hm as (g1 & suf & Eg & Hdot & _ & _ & Hk & Hmin).
  apply run_sound in Hk.
  destruct Hk as (w & rest2 & c' & Es & M & Hfin).
  apply rowTail_sound in M.
  destruct M as (-> & tok' & q' & d4' & Hshape & ->).
  rewrite app_nil_r in Es. subst suf.
  inversion Hfin; subst m; clear Hfin.
  cbn [group m_caps cap_get Nat.eqb].
  (* the lazy group does not reach past [pre] *)
  assert (Lg : length g1 <= length x).
  { destruct (Nat.le_gt_cases (length g1) (length x)) as [|Hgt]; auto. exfalso.
    assert (E2 : g1 ++ w = x ++ R) by congruence.
    destruct (app_split_le g1 w x R E2 ltac:(lia)) as (y & Ey & Ew).
    specialize (Hmin x R ltac:(congruence) ltac:(lia) ltac:(lia)).
    revert Hmin. rewrite <- (app_nil_r R) at 1.
    eapply run_complete.
    - apply rowTail_complete. eauto.
    - discriminate. }
  assert (E2 : x ++ R = g1 ++ w) by congruence.
  destruct (app_split_le x R g1 w E2 Lg) as (y & Ey & Ew).
  subst w.
  destruct (row_tail_token_unique y tok q d4 tok' q' d4' R HR Hshape D) as [-> Hy].
  rewrite (trim_nonspace tok)
    by (destruct HR as (? & ? & ? & ? & ? & ? & ? & ? & ? & ? & ?); auto).
  eexists. split; [reflexivity|].
  intros Hpre.
  replace (length sk + length g1 - length sk) with (length g1) by lia.
  rewrite Eg, firstn_length_app by reflexivity.
  (* on one line the match starts at the beginning *)
  assert (sk = []).
  { destruct sk as [|u sk']; auto. exfalso.
    specialize (Hnone [] (u :: sk') eq_refl ltac:(discriminate)).
    rewrite <- E in Hnone. revert Hnone.
    rewrite <- (app_nil_r (pre ++ R)).
    eapply match_at_complete. unfold rowEndRegex.
    eapply M_Seq with (w1 := pre) (w2 := R).
    - apply M_Grp. apply M_Rep; simpl; auto; lia.
    - apply rowTail_complete. eauto. }
  subst sk. simpl in Ex. subst pre x.
  symmetry. apply trim_app_space. exact Hy.
Qed.

Lemma row_tail_four_words ws1 tok ws2 q ws3 d4 ws4 n ws5 :
  all Cls.space ws1 -> all Cls.nonspace tok -> tok <> [] ->
  all Cls.space ws2 -> ws2 <> [] -> all Cls.digit q -> q <> [] ->
  all Cls.space ws3 -> ws3 <> [] -> all Cls.digit d4 -> length d4 = 4 ->
  all Cls.space ws4 -> ws4 <> [] -> all Cls.digit n -> n <> [] ->
  all Cls.space ws5 ->
  words (ws1 ++ tok ++ ws2 ++ q ++ ws3 ++ d4 ++ ws4 ++ n ++ ws5) = [tok; q; d4; n].
Proof.
  intros H1 Ht Nt H2 N2 Hq Nq H3 N3 Hd Ld H4 N4 Hn Nn H5.
  assert (Nd : d4 <> []) by (destruct d4; simpl in Ld; [lia|discriminate]).
  rewrite (words_space_app ws1) by auto.
  rewrite (words_word_app tok) by (auto using space_stops_nonspace).
  rewrite (words_space_app ws2) by auto.
  rewrite (words_word_app q) by (auto using space_stops_nonspace, digits_nonspace).
  rewrite (words_space_app ws3) by auto.
  rewrite (words_word_app d4) by (auto using space_stops_nonspace, digits_nonspace).
  rewrite (words_space_app ws4) by auto.
  rewrite (words_word_app n);
    [|apply digits_nonspace; auto|auto|
     rewrite <- (app_nil_r ws5); apply stops_nonspace_after_space; simpl; auto].
  rewrite <- (app_nil_r ws5), (words_space_app ws5) by auto. reflexivity.
Qed.

(** C10 (amended). A text block that ends in whitespace, a token
    without whitespace, whitespace, an integer, whitespace and four
    digits, optionally followed by one more integer, is matched by the
    primary grammar, so it does not reach the fallback grammar: the
    fields of the row are those the primary grammar gives.  The token
    is taken as the article whatever its shape, numeric or a plain
    word, provided the block has no second reading one word to the
    left: the token has a character that is not a digit, or the integer
    is not four digits long, or the further integer stands apart after
    whitespace.  The product name is then the text before, trimmed,
    when that text is on one line. *)
Theorem C10_primary_takes_any_token
        (block pre ws1 tok ws2 q ws3 d4 ws4 n ws5 : jsstring) :
  block = pre ++ ws1 ++ tok ++ ws2 ++ q ++ ws3 ++ d4 ++ ws4 ++ n ++ ws5 ->
  all Cls.space ws1 -> ws1 <> [] ->
  all Cls.nonspace tok -> tok <> [] ->
  all Cls.space ws2 -> ws2 <> [] ->
  all Cls.digit q -> q <> [] ->
  all Cls.space ws3 -> ws3 <> [] ->
  all Cls.digit d4 -> length d4 = 4 ->
  all Cls.space ws4 -> all Cls.digit n -> all Cls.space ws5 ->
  exists article name,
    primaryGrammar block = Some (article, name) /\
    rowFields block = (article, name) /\
    (~ all Cls.digit tok \/ length q <> 4 \/ (ws4 <> [] /\ n <> []) ->
     article = tok /\ (all Cls.dot pre -> name = trim pre)).
Proof.
  intros -> H1 N1 Ht Nt H2 N2 Hq Nq H3 N3 Hd Ld H4 Hn H5.
  set (R := ws1 ++ tok ++ ws2 ++ q ++ ws3 ++ d4 ++ ws4 ++ n ++ ws5).
  assert (HR : row_tail_shape tok q d4 R).
  { destruct n as [|c n'].
    - exists ws1, ws2, ws3, (ws4 ++ ws5), [].
      unfold R. cbn [app]. rewrite app_nil_r.
      repeat split; auto.
      + apply all_app. auto.
      + left. reflexivity.
    - exists ws1, ws2, ws3, ws4, ((c :: n') ++ ws5).
      repeat split; auto.
      right. exists (c :: n'), ws5. repeat split; auto. discriminate. }
  (* the pattern matches where the end of the row begins, if not before *)
  destruct (primaryGrammar (pre ++ R)) as [[article name]|] eqn:Hp.
  2:{ exfalso. unfold primaryGrammar, js_match in Hp.
      destruct (search rowEndRegex 0 (pre ++ R)) eqn:S0; [discriminate|].
      revert S0. apply search_complete. eapply rowEnd_at_tail; eauto. }
  exists article, name. split; [reflexivity|].
  split; [unfold rowFields; rewrite Hp; reflexivity|].
  intros D.
  assert (D' : ~ all Cls.digit tok \/ length q <> 4 \/ length (words R) = 4).
  { destruct D as [D|[D|[N4 Nn]]]; auto.
    right. right. unfold R. rewrite row_tail_four_words; auto. }
  destruct (primaryGrammar_row_end pre tok q d4 R HR D') as (name' & Hp' & Hname).
  rewrite Hp in Hp'. inversion Hp'; subst. split; [reflexivity|exact Hname].
Qed.

(** C10 as stated fails: a block that is nothing but a token, an
    integer and four digits is not matched by the primary grammar,
    since the pattern asks for whitespace before the token.  The block
    reaches the fallback grammar, and here no article is found. *)
Lemma C10_bare_row_end_reaches_fallback :
  lit "12345 1 1785" = [] ++ lit "12345" ++ lit " " ++ lit "1" ++ lit " " ++ lit "1785" /\
  primaryGrammar (lit "12345 1 1785") = None /\
  rowFields (lit "12345 1 1785") = ([], lit "12345 1 1785") /\
  parseOrdersPdf [[lit "0149711785-0110-1 12345 1 1785"]] =
  Some [mkMapping (lit "0149711785-0110-1") [] (lit "1 1785")].
Proof. repeat split; vm_compute; reflexivity. Qed.

(** A block with two readings: "11 1234 5678" is a token, an integer
    and four digits, and so is "a 11 1234" with the further integer
    "5678"; the primary grammar takes the reading further left. *)
Lemma rowEnd_second_reading :
  primaryGrammar (lit "x a 11 1234 5678") = Some (lit "a", lit "x").
Proof. vm_compute. reflexivity. Qed.

(** * Instances *)

Lemma sampleNumber_shape : shipment_shape sampleNumber.
Proof.
  exists (lit "0149711785"), (lit "0110"), (lit "1").
  repeat split; simpl; lia.
Defined.

(** C1 on the row of the end-to-end scenario. *)
Lemma C1_sample_row_instance :
  parseOrdersPdf [[lit "0149711785-0110-1 ProductName F/034 1 1785"]] =
  Some [mkMapping sampleNumber (lit "F/034") (lit "ProductName")].
Proof.
  apply (C1_sample_row_one_record sampleNumber).
  - exact sampleNumber_shape.
  - reflexivity.
Defined.

(** C5 on an orders page without a shipment number. *)
Lemma C5_no_records_instance :
  parseOrdersPdf [[lit "hello"]] = Some [] /\
  handleProcess sampleFont (Some [[lit "hello"]]) (Some []) =
  Some (mkRun (inl NoRecordsExtracted) []).
Proof.
  apply (C5_no_records_error sampleFont [[lit "hello"]] []).
  intros items [<-|[]] s1 w s2 E Hw.
  apply shipment_shape_length in Hw.
  apply (f_equal (@length N)) in E. rewrite !length_app in E.
  simpl in E. lia.
Defined.

(** C6 on these pages. *)
Lemma C6_lookup_instance :
  [firstRecord; laterRecord] = flat_map pageRecords repeatedNumberPdf /\
  findMapping [firstRecord; laterRecord] (shippingNumber firstRecord) =
  Some firstRecord /\
  (forall later, In later [laterRecord] ->
                 shippingNumber later = shippingNumber firstRecord ->
                 article later <> article firstRecord ->
                 findMapping [firstRecord; laterRecord]
                             (shippingNumber firstRecord) <> Some later) /\
  (forall items m, js_match shippingRegex (pageText items) = Some m ->
                   group 1 m = shippingNumber firstRecord ->
                   resolvePage [firstRecord; laterRecord] items = Some firstRecord).
Proof.
  apply (C6_lookup_first_occurrence repeatedNumberPdf
           [firstRecord; laterRecord] [] [laterRecord] firstRecord).
  - vm_compute. reflexivity.
  - reflexivity.
  - intros r [].
Defined.

(** C7 on the block "12 abc F/034". *)
Lemma C7_fallback_instance :
  rowFields (trim (lit "12 abc F/034")) = (lit "F" ++ 47%N :: lit "034", trim (lit "12 abc ")) /\
  recordOf (mkShip sampleNumber 0, lit "12 abc F/034") =
  mkMapping (number (mkShip sampleNumber 0)) (lit "F" ++ 47%N :: lit "034")
            (trim (stripLeadingNumber (trim (lit "12 abc ")))) /\
  article (recordOf (mkShip sampleNumber 0, lit "12 abc F/034")) <> [].
Proof.
  apply (C7_fallback_takes_first_token (mkShip sampleNumber 0)
           (lit "12 abc F/034") (lit "12 abc ") (lit "F") (lit "034") [] 47%N).
  - vm_compute. reflexivity.
  - vm_compute. reflexivity.
  - reflexivity.
  - discriminate.
  - reflexivity.
  - reflexivity.
  - discriminate.
  - exact I.
  - intros s1 s2 E Hne. apply (article_none_no_article 0).
    unfold lit in E. simpl in E. each_split E ltac:(vm_compute; reflexivity).
Defined.

(** C10 on a row without an article column: the last word of the
    product name is taken as the article. *)
Lemma C10_last_word_instance :
  primaryGrammar (nameStart ++ lit " " ++ lastWord ++ lit " 1 1785") =
  Some (lastWord, trim nameStart) /\
  rowFields (nameStart ++ lit " " ++ lastWord ++ lit " 1 1785") =
  (lastWord, trim nameStart).
Proof.
  destruct (C10_primary_takes_any_token
              (nameStart ++ lit " " ++ lastWord ++ lit " 1 1785")
              nameStart (lit " ") lastWord (lit " ") (lit "1") (lit " ") (lit "1785")
              [] [] [])
    as (article & name & Hp & Hr & HD);
    try reflexivity; try discriminate.
  destruct HD as [Ha Hn]; [left; vm_compute; discriminate|].
  rewrite Hp, Hr, Ha, (Hn eq_refl). split; reflexivity.
Defined.

(** * Further properties *)

(** X1. The orders parser always returns: the records of the pages in page
    order, each page's in scan order. *)
Theorem parser_always_returns (pdf : list TextPage) :
  parseOrdersPdf pdf = Some (flat_map pageRecords pdf) /\
  length (flat_map pageRecords pdf) =
  list_sum (List.map (fun items => length (matchesOf (pageText items))) pdf).
Proof.
  split; [apply parseOrdersPdf_total|].
  induction pdf as [|items pdf IH]; simpl; auto.
  rewrite length_app, pageRecords_length, IH. reflexivity.
Qed.

(** X2. The key of every record the parser returns is a shipment-shaped
    word, so it is never empty; and the guard before the push (line
    127) never drops a row: for each match of a page [rowStep] pushes
    one record, keyed by the match. *)
Theorem record_keys_well_formed (pdf : list TextPage) :
  match parseOrdersPdf pdf with
  | Some table =>
      Forall (fun r => shipment_shape (shippingNumber r) /\ shippingNumber r <> [])
             table
  | None => False
  end /\
  forall items,
    match collectMatches (pageText items) with
    | Some matches =>
        forall j m mappings,
          nth_error matches j = Some m ->
          shipment_shape (number m) /\
          exists r,
            rowStep (pageText items) matches mappings j = mappings ++ [r] /\
            shippingNumber r = number m
    | None => False
    end.
Proof.
  split.
  - rewrite parseOrdersPdf_total.
    apply Forall_forall. intros r Hin.
    destruct (record_of_row pdf r Hin) as (items & matches & j & m & _ & Hc & Hm & _ & ->).
    cbn [shippingNumber].
    pose proof (Scan_shapes _ _ _ (collectMatches_scan _ _ Hc)) as Hs.
    rewrite Forall_forall in Hs. specialize (Hs m (nth_error_In _ _ Hm)).
    split; [exact Hs|].
    apply shipment_shape_length in Hs. destruct (number m); simpl in *; [lia|discriminate].
  - intros items. rewrite collectMatches_matchesOf.
    intros j m mappings Hj.
    pose proof (collectMatches_scan _ _ (collectMatches_matchesOf (pageText items))) as Hs.
    split.
    + pose proof (Scan_shapes _ _ _ Hs) as Hsh. rewrite Forall_forall in Hsh.
      apply Hsh. eapply nth_error_In; eauto.
    + destruct (rowStep_row _ _ _ _ Hs Hj) as [_ Hrow]. cbv zeta in Hrow.
      eexists. split; [apply Hrow|]. reflexivity.
Qed.

(** X3. The cleanup of the product name removes one leading number and
    trims. *)
Theorem cleanup_removes_one_number (productName : jsstring) :
  cleanProductName productName = trim (stripLeadingNumber productName).
Proof. apply cleanProductName_spec. Qed.

(** X4. The label pass keeps the number and order of the pages, annotates
    the pages that resolve and leaves the others as they were. *)
Theorem label_pass_keeps_pages (customFont : Font) (mappings : list OrderMapping)
        (labels : list LabelPage) :
  let out := List.map (fun p => annotateIfResolved customFont mappings
                                  (lp_items p) (lp_page p)) labels in
  (fst (processLabelsPdf customFont (List.map lp_items labels)
                         (List.map lp_page labels) mappings) = inr out \/
   fst (processLabelsPdf customFont (List.map lp_items labels)
                         (List.map lp_page labels) mappings) = inl NoMatchesFound) /\
  length out = length labels /\
  Forall2 (fun p page' =>
             match resolvePage mappings (lp_items p) with
             | Some mapping => page' = annotatePage customFont mapping (lp_page p)
             | None => page' = lp_page p
             end) labels out.
Proof.
  intros out. rewrite processLabelsPdf_spec. split; [|split].
  - destruct (Nat.eqb _ 0); simpl; auto.
  - unfold out. apply length_map.
  - unfold out. induction labels as [|p labels IH]; simpl; constructor; auto.
    unfold annotateIfResolved. destruct (resolvePage mappings (lp_items p)); reflexivity.
Qed.

Lemma first_match_head (fullText : jsstring) :
  option_map toShip (js_match shippingRegex fullText) = hd_error (matchesOf fullText).
Proof.
  unfold matchesOf, collectMatches, js_match.
  destruct (search shippingRegex 0 fullText) as [m|] eqn:E.
  - rewrite (exec_loop_some _ _ _ _ _ E).
    destruct (shipping_search _ _ _ E) as (sk & rest' & -> & Hi & He & Hs & _).
    apply shipment_shape_length in Hs.
    destruct (exec_loop_shipping_total (length (sk ++ m_text m ++ rest'))
                (skipn (m_end m - 0) (sk ++ m_text m ++ rest')) (m_end m)) as [ms ->].
    + rewrite Nat.sub_0_r.
      replace (m_end m) with (length (sk ++ m_text m))
        by (rewrite length_app; simpl in Hi; lia).
      rewrite app_assoc, skipn_length_app by reflexivity.
      rewrite !length_app. lia.
    + reflexivity.
  - rewrite exec_loop_none by auto. reflexivity.
Qed.

(** X5. On a label page the first shipment number counts: the one the
    [exec] loop would find first. *)
Theorem label_page_first_number (fullText : jsstring) :
  option_map toShip (js_match shippingRegex fullText) = hd_error (matchesOf fullText).
Proof. apply first_match_head. Qed.

(** The end-to-end scenario: the run succeeds, one label page is read
    and annotated, a rectangle (at x = 66) and the text of the prefix
    and "F/034" (at x = 71) are drawn, and the page, 340 units high,
    ends 390 units high. *)
Example scenario_run :
  parseOrdersPdf scenarioOrders =
  Some [mkMapping sampleNumber (lit "F/034")
                  ([1044; 1077; 1090; 1072; 1083; 1100; 32; 1087; 1086; 1076; 32;
                    1087; 1086; 1082; 1088; 1072; 1089; 1082; 1091]%N)] /\
  exists page' rect,
    handleProcess sampleFont (Some scenarioOrders) (Some scenarioLabels) =
    Some (mkRun (inr [page']) [0]) /\
    drawn page' = [rect; OpText (artPrefix ++ lit "F/034") (142 # 2) (-20) 14 black] /\
    rect = OpRectangle (132 # 2) (-22) 80 20 white /\
    (box_height (mediaBox page') == 390)%Q /\
    (box_y (mediaBox page') == -25)%Q.
Proof.
  split; [vm_compute; reflexivity|].
  eexists. eexists. split; [vm_compute; reflexivity|].
  split; [|split; [reflexivity|split; vm_compute; reflexivity]].
  vm_compute. reflexivity.
Qed.

(** X7. The rectangle and the text that [annotatePage] draws are centred
    on half the page width measured from zero: the x origin of the
    media box does not enter their position.  The rectangle is ten
    units wider than the text. *)
Theorem band_centred_from_zero (customFont : Font) (mapping : OrderMapping)
        (page : PDFPage) :
  let textWidth :=
    widthOfTextAtSize customFont (artPrefix ++ article mapping) fontSize in
  exists rx ry rw rh tx ty,
    drawn (annotatePage customFont mapping page) =
    drawn page ++ [OpRectangle rx ry rw rh white;
                   OpText (artPrefix ++ article mapping) tx ty fontSize black] /\
    (rx + rw / 2 == box_width (mediaBox page) / 2)%Q /\
    (tx + textWidth / 2 == box_width (mediaBox page) / 2)%Q /\
    (rw == textWidth + 10)%Q.
Proof.
  intros textWidth.
  do 6 eexists. split; [apply annotatePage_drawn|].
  fold textWidth. repeat split; field.
Qed.

(** ** The segmenter in full *)

Lemma search_none_intro r : forall rest pos,
  (forall s1 s2, rest = s1 ++ s2 -> match_at r (pos + length s1) s2 = None) ->
  search r pos rest = None.
Proof.
  induction rest as [|x t IH]; intros pos H; simpl.
  - pose proof (H [] [] eq_refl) as H0. simpl in H0. rewrite Nat.add_0_r in H0.
    rewrite H0. reflexivity.
  - pose proof (H [] (x :: t) eq_refl) as H0. simpl in H0. rewrite Nat.add_0_r in H0.
    rewrite H0. apply IH. intros s1 s2 E.
    replace (S pos + length s1) with (pos + length (x :: s1)) by (simpl; lia).
    apply H. simpl. congruence.
Qed.

Lemma no_shipment_match_none pos t :
  no_shipment_here t -> match_at shippingRegex pos t = None.
Proof.
  intros H. destruct (match_at shippingRegex pos t) as [m|] eqn:E; auto.
  exfalso. destruct (shipping_match_at _ _ _ E) as (Hs & _ & _ & _ & rest' & Er).
  eapply H; eauto.
Qed.

(** The loop returns the matches that [Scan] describes. *)
Lemma scan_exec_loop : forall pos t ms,
  Scan pos t ms ->
  forall fuel, length t < fuel ->
  option_map (List.map toShip) (exec_loop fuel shippingRegex pos t) = Some ms.
Proof.
  induction 1 as [pos t Hnone|pos sk w rest ms Hw Hsk Hmax Hrest IH]; intros fuel Hf.
  - rewrite exec_loop_none; [reflexivity|].
    apply search_none_intro. intros s1 s2 E.
    apply no_shipment_match_none. eapply Hnone; eauto.
  - destruct fuel as [|fuel]; [lia|].
    pose proof (shipment_shape_length _ Hw) as Lw.
    destruct Hw as (d1 & d2 & d3 & Ew & H1 & L1 & H2 & L2 & H3 & L3).
    assert (Hstop : length d3 = 2 \/ stops Cls.digit rest).
    { destruct rest as [|x r]; [right; exact I|].
      destruct (Cls.digit x) eqn:Hx; [|right; exact Hx].
      destruct (Nat.eq_dec (length d3) 2) as [|Hn]; [left; assumption|].
      exfalso. apply (Hmax x r eq_refl).
      exists d1, d2, (d3 ++ [x]). subst w.
      repeat split; auto; try lia.
      - repeat (rewrite <- ?app_assoc; simpl). reflexivity.
      - apply all_app. split; auto. unfold all. simpl. rewrite Hx. reflexivity.
      - rewrite length_app. simpl. lia.
      - rewrite length_app. simpl. lia. }
    pose proof (shipping_match_exact (pos + length sk) d1 d2 d3 rest
                  H1 L1 H2 L2 H3 L3 Hstop) as M.
    cbv zeta in M. rewrite <- Ew in M.
    assert (S0 : search shippingRegex pos (sk ++ w ++ rest) =
                 Some (mkMatch (pos + length sk) (pos + length sk + length w) w [(1, w)])).
    { apply search_first; auto.
      intros s1 s2 E Hne. apply no_shipment_match_none. eapply Hsk; eauto. }
    rewrite (exec_loop_some _ _ _ _ _ S0). cbn [m_end].
    replace (pos + length sk + length w - pos) with (length (sk ++ w))
      by (rewrite length_app; lia).
    rewrite app_assoc, skipn_length_app by reflexivity.
    specialize (IH fuel). rewrite !length_app in Hf.
    destruct (exec_loop fuel shippingRegex (pos + length sk + length w) rest) as [l|];
      simpl in IH |- *.
    + specialize (IH ltac:(lia)). inversion IH; subst. reflexivity.
    + specialize (IH ltac:(lia)). discriminate.
Qed.

(** X8. [Scan] is exactly what the [exec] loop of the orders parser
    collects: the loop returns [matches] for a text if and only if
    [matches] are its successive leftmost shipment-shaped words, each
    as long as the text allows. *)
Theorem collectMatches_iff_Scan (fullText : jsstring) (matches : list ShipMatch) :
  collectMatches fullText = Some matches <-> Scan 0 fullText matches.
Proof.
  split.
  - apply collectMatches_scan.
  - intros H. unfold collectMatches. apply scan_exec_loop; auto.
Qed.

(** ** Concatenated texts *)

Lemma shape_shipchars w : shipment_shape w -> forallb shipchar w = true.
Proof.
  intros (d1 & d2 & d3 & -> & H1 & _ & H2 & _ & H3 & _).
  assert (D : forall d, all Cls.digit d -> forallb shipchar d = true).
  { unfold all. intros d Hd. rewrite forallb_forall in *. intros x Hx.
    unfold shipchar. rewrite (Hd x Hx). reflexivity. }
  rewrite forallb_app. simpl. rewrite forallb_app. simpl.
  rewrite !D by auto. reflexivity.
Qed.

(** A word of shipment characters that starts in [a], in front of a
    character of another kind, ends in [a]. *)
Lemma prefix_within : forall (v r a b : jsstring) c,
  v ++ r = a ++ c :: b -> forallb shipchar v = true -> shipchar c = false ->
  exists r', a = v ++ r'.
Proof.
  induction v as [|x v IH]; intros r a b c E Hv Hc.
  - exists a. reflexivity.
  - simpl in Hv. apply andb_true_iff in Hv. destruct Hv as [Hx Hv].
    destruct a as [|y a]; simpl in E; inversion E; subst.
    + congruence.
    + destruct (IH r a b c) as [r' ->]; auto. exists r'. reflexivity.
Qed.

Lemma boundary_last t :
  boundary t = true -> t <> [] ->
  exists pre c, t = pre ++ [c] /\ shipchar c = false.
Proof.
  unfold boundary. intros H Hne.
  destruct (rev t) as [|c l] eqn:E.
  - apply (f_equal (@rev N)) in E. rewrite rev_involutive in E. simpl in E. congruence.
  - exists (rev l), c. split.
    + apply (f_equal (@rev N)) in E. rewrite rev_involutive in E. simpl in E. exact E.
    + apply negb_true_iff. exact H.
Qed.

Lemma boundary_suffix a b : boundary (a ++ b) = true -> b <> [] -> boundary b = true.
Proof.
  unfold boundary. rewrite rev_app_distr. intros H Hne.
  destruct (rev b) as [|c l] eqn:E; auto.
Qed.

Lemma Scan_shift pos t ms :
  Scan pos t ms -> forall k, Scan (k + pos) t (shift k ms).
Proof.
  induction 1 as [pos t Hnone|pos sk w rest ms Hw Hsk Hmax Hrest IH]; intros k; simpl.
  - apply Scan_done. auto.
  - replace (k + (pos + length sk)) with (k + pos + length sk) by lia.
    apply Scan_hit; auto.
    replace (k + pos + length sk + length w) with (k + (pos + length sk + length w)) by lia.
    apply IH.
Qed.

(** The matches of [t1] followed by those of a text that begins with a
    shipment number are the matches of the whole, when [t1] ends at a
    boundary. *)
Lemma Scan_app : forall pos t1 ms1,
  Scan pos t1 ms1 -> boundary t1 = true ->
  forall w rest ms2,
    Scan (pos + length t1) (w ++ rest) (mkShip w (pos + length t1) :: ms2) ->
    Scan pos (t1 ++ w ++ rest) (ms1 ++ mkShip w (pos + length t1) :: ms2).
Proof.
  induction 1 as [pos t Hnone|pos sk w1 rest1 ms Hw Hsk Hmax Hrest IH];
    intros Hb w rest ms2 H2.
  - (* no match in [t1]: it is skipped *)
    inversion H2 as [|pos' sk' w' rest' ms' Hw' Hsk' Hmax' Hrest' E1 E2 E3]; subst.
    assert (sk' = []) by (destruct sk'; simpl in *; [reflexivity|lia]). subst sk'.
    simpl in *. apply app_inv_head in E2. subst rest'.
    rewrite ?Nat.add_0_r in *.
    apply Scan_hit; auto.
    + intros s1 s2 E Hne v r Ev Hv.
      assert (Hb2 : boundary s2 = true) by (subst t; eapply boundary_suffix; eauto).
      destruct (boundary_last s2 Hb2 Hne) as (p & c & -> & Hc).
      rewrite <- app_assoc in Ev. simpl in Ev. symmetry in Ev.
      destruct (prefix_within v r p (w ++ rest) c Ev (shape_shipchars _ Hv) Hc) as [r' ->].
      apply (Hnone s1 ((v ++ r') ++ [c]) E v (r' ++ [c])); auto.
      rewrite <- app_assoc. reflexivity.
  - (* a match in [t1] *)
    assert (Hr1 : rest1 <> []).
    { intros ->. rewrite app_nil_r in Hb.
      unfold boundary in Hb. rewrite rev_app_distr in Hb.
      pose proof (shape_shipchars _ Hw) as Hc.
      pose proof (shipment_shape_length _ Hw) as Lw.
      destruct (rev w1) as [|c l] eqn:E.
      - apply (f_equal (@length N)) in E. rewrite length_rev in E. simpl in E. lia.
      - simpl in Hb. apply negb_true_iff in Hb.
        rewrite forallb_forall in Hc. rewrite (Hc c) in Hb; [discriminate|].
        apply in_rev. rewrite E. left. reflexivity. }
    assert (Hb1 : boundary rest1 = true).
    { rewrite app_assoc in Hb. eapply boundary_suffix; eauto. }
    rewrite <- !app_assoc. cbn [app].
    apply Scan_hit; auto.
    + intros s1 s2 E Hne v r Ev Hv.
      destruct (boundary_last rest1 Hb1 Hr1) as (p & c & -> & Hc).
      replace (s2 ++ w1 ++ (p ++ [c]) ++ w ++ rest)
        with ((s2 ++ w1 ++ p) ++ c :: (w ++ rest)) in Ev
        by (repeat (rewrite <- ?app_assoc; simpl); reflexivity).
      symmetry in Ev.
      destruct (prefix_within v r _ _ c Ev (shape_shipchars _ Hv) Hc) as [r' Er].
      apply (Hsk s1 s2 E Hne v (r' ++ [c])); auto.
      rewrite (app_assoc v), <- Er, <- !app_assoc. reflexivity.
    + intros x r E. destruct rest1 as [|y rest1']; [congruence|].
      simpl in E. inversion E; subst. eapply Hmax; eauto.
    + replace (pos + length (sk ++ w1 ++ rest1))
        with (pos + length sk + length w1 + length rest1) in *
        by (rewrite !length_app; lia).
      apply IH; auto.
Qed.

Lemma Scan_matchesOf t ms : Scan 0 t ms -> matchesOf t = ms.
Proof.
  intros H. unfold matchesOf, collectMatches.
  change (fun m => mkShip (group 1 m) (m_index m)) with toShip.
  rewrite (scan_exec_loop 0 t ms H); auto.
Qed.

Lemma matchesOf_Scan t : Scan 0 t (matchesOf t).
Proof. apply collectMatches_scan. apply collectMatches_matchesOf. Qed.

Lemma slice_app_l (t1 t2 : jsstring) a b :
  b <= length t1 -> slice (t1 ++ t2) a b = slice t1 a b.
Proof.
  intros Hb. unfold slice.
  destruct (le_lt_dec a (length t1)) as [Ha|Ha].
  - rewrite skipn_app. replace (a - length t1) with 0 by lia. simpl.
    rewrite firstn_app. rewrite length_skipn.
    replace (b - a - (length t1 - a)) with 0 by lia.
    simpl. apply app_nil_r.
  - replace (b - a) with 0 by lia. reflexivity.
Qed.

Lemma slice_app_r (t1 t2 : jsstring) a b :
  slice (t1 ++ t2) (length t1 + a) (length t1 + b) = slice t2 a b.
Proof.
  unfold slice. rewrite skipn_app.
  rewrite (skipn_all2 t1) by lia. simpl.
  replace (length t1 + a - length t1) with a by lia.
  replace (length t1 + b - (length t1 + a)) with (b - a) by lia.
  reflexivity.
Qed.

Lemma blocksOf_shift (t1 t2 : jsstring) : forall ms,
  blocksOf (t1 ++ t2) (shift (length t1) ms) = blocksOf t2 ms.
Proof.
  induction ms as [|m ms IH]; simpl; [reflexivity|].
  f_equal; [|exact IH].
  replace (length t1 + index m + length (number m))
    with (length t1 + (index m + length (number m))) by lia.
  destruct ms as [|n ms]; simpl.
  - rewrite length_app. apply slice_app_r.
  - apply slice_app_r.
Qed.

Lemma blocksOf_app (t1 t2 : jsstring) m ms2 : forall ms1 from,
  placed (length t1) from ms1 -> index m = 0 ->
  blocksOf (t1 ++ t2) (ms1 ++ shift (length t1) (m :: ms2)) =
  blocksOf t1 ms1 ++ blocksOf t2 (m :: ms2).
Proof.
  induction ms1 as [|a ms1 IH]; intros from Hp Hm.
  - apply blocksOf_shift.
  - destruct Hp as [_ Hp]. cbn [app blocksOf].
    f_equal; [|eapply IH; eauto].
    destruct ms1 as [|b ms1].
    + cbn [app shift List.map index]. rewrite Hm, Nat.add_0_r.
      simpl in Hp. apply slice_app_l. lia.
    + cbn [app]. apply slice_app_l. simpl in Hp.
      destruct Hp as [_ Hp].
      assert (G : forall l f, placed (length t1) f l -> f <= length t1).
      { induction l as [|x l IHl]; simpl; intros f Hf; [lia|].
        destruct Hf as [? Hf]. apply IHl in Hf. lia. }
      apply G in Hp. lia.
Qed.

Lemma records_shift k : forall ms bl,
  List.map recordOf (combine (shift k ms) bl) = List.map recordOf (combine ms bl).
Proof.
  induction ms as [|m ms IH]; intros [|b bl]; simpl; auto.
  f_equal. apply IH.
Qed.

Lemma combine_app_eq {A B} : forall (l1 : list A) (r1 : list B) l2 r2,
  length l1 = length r1 ->
  combine (l1 ++ l2) (r1 ++ r2) = combine l1 r1 ++ combine l2 r2.
Proof.
  induction l1 as [|x l1 IH]; intros [|y r1] l2 r2 H; simpl in *; try lia; auto.
  f_equal. apply IH. lia.
Qed.

(** The matches of a text that ends at a boundary, followed by a text
    that begins with a shipment number. *)
Lemma matchesOf_app t1 t2 m ms :
  boundary t1 = true -> matchesOf t2 = m :: ms -> index m = 0 ->
  matchesOf (t1 ++ t2) = matchesOf t1 ++ shift (length t1) (m :: ms).
Proof.
  intros Hb E Hm.
  pose proof (matchesOf_Scan t2) as H2. rewrite E in H2.
  pose proof H2 as H2'.
  inversion H2' as [|pos' sk w rest ms' Hw Hsk Hmax Hrest E1 E2 E3]; subst.
  simpl in Hm. destruct sk; [|simpl in Hm; discriminate]. cbn [app] in *.
  apply Scan_matchesOf.
  pose proof (Scan_app 0 t1 (matchesOf t1) (matchesOf_Scan t1) Hb w rest
                (shift (length t1) ms)) as A.
  cbn [shift List.map number index length]. simpl in A.
  rewrite Nat.add_0_r. apply A.
  pose proof (Scan_shift 0 (w ++ rest) _ H2 (length t1)) as B.
  simpl in B. rewrite Nat.add_0_r in B. exact B.
Qed.

(** X9. Segmentation composes.  When a text ends at a boundary (it is
    empty, or its last character is neither a digit nor a dash) and the
    text that follows begins with a shipment number, a page that holds
    the two texts one after the other parses as two pages that hold one
    each: a record is made of nothing but its own number and the text
    up to the next number. *)
Theorem segmentation_composes (t1 t2 : jsstring) (m : ShipMatch) (ms : list ShipMatch) :
  boundary t1 = true ->
  collectMatches t2 = Some (m :: ms) -> index m = 0 ->
  parseOrdersPdf [[t1 ++ t2]] = parseOrdersPdf [[t1]; [t2]].
Proof.
  intros Hb E Hm. rewrite !parseOrdersPdf_total.
  cbn [flat_map]. rewrite !app_nil_r. f_equal.
  change (textRecords (t1 ++ t2) = textRecords t1 ++ textRecords t2).
  assert (E' : matchesOf t2 = m :: ms) by (unfold matchesOf; rewrite E; reflexivity).
  unfold textRecords.
  rewrite (matchesOf_app t1 t2 m ms Hb E' Hm), E'.
  pose proof (Scan_placed 0 t1 _ (matchesOf_Scan t1)) as Hp. simpl in Hp.
  rewrite (blocksOf_app t1 t2 m ms _ 0 Hp Hm).
  rewrite combine_app_eq by (rewrite blocksOf_length; reflexivity).
  rewrite map_app. f_equal. apply records_shift.
Qed.

Lemma segmentation_composes_instance :
  parseOrdersPdf [[firstRowText ++ secondRowText]] =
  parseOrdersPdf [[firstRowText]; [secondRowText]].
Proof.
  apply (segmentation_composes firstRowText secondRowText
           (mkShip (lit "0149711786-0111-2") 0) []).
  - reflexivity.
  - vm_compute. reflexivity.
  - reflexivity.
Defined.

(** ** A row on its own *)

Lemma words_app_space a z : all Cls.space z -> words (a ++ z) = words a.
Proof.
  intros Hz. rewrite words_app_before_space.
  - rewrite <- (app_nil_r z), words_space_app by auto. simpl. apply app_nil_r.
  - rewrite <- (app_nil_r z). apply stops_nonspace_after_space; simpl; auto.
Qed.

Lemma ends_with_app p (a b : jsstring) :
  b <> [] -> ends_with p (a ++ b) = ends_with p b.
Proof.
  unfold ends_with. rewrite rev_app_distr. intros Hb.
  destruct (rev b) as [|c l] eqn:E; [|reflexivity].
  apply (f_equal (@rev N)) in E. rewrite rev_involutive in E. simpl in E. congruence.
Qed.

Lemma ends_with_digits d :
  all Cls.digit d -> d <> [] -> ends_with Cls.space d = false.
Proof.
  unfold ends_with, all. intros Hd Hne.
  destruct (rev d) as [|c l] eqn:E; [reflexivity|]. simpl.
  apply digit_not_space. rewrite forallb_forall in Hd. apply Hd.
  apply in_rev. rewrite E. left. reflexivity.
Qed.

Lemma trimEnd_stopped s : ends_with Cls.space s = false -> trimEnd s = s.
Proof.
  unfold ends_with, trimEnd. intros H.
  rewrite dropWhile_stopped by (apply stops_starts_with; exact H).
  apply rev_involutive.
Qed.

Lemma all_dropWhile p q : forall s, all p s -> all p (dropWhile q s).
Proof.
  unfold all. induction s as [|x s IH]; simpl; auto.
  intros H. apply andb_true_iff in H. destruct H as [Hx Hs].
  destruct (q x); simpl; auto. rewrite Hx, Hs. reflexivity.
Qed.

(** The end of a row without the whitespace that trails it is the end
    of a row, with the same words. *)
Lemma row_tail_trimEnd tok q d4 R :
  row_tail_shape tok q d4 R ->
  exists R' z,
    R = R' ++ z /\ all Cls.space z /\ row_tail_shape tok q d4 R' /\
    R' <> [] /\ ends_with Cls.space R' = false /\ words R' = words R.
Proof.
  intros (ws1 & ws2 & ws3 & ws4 & opt & -> & H1 & N1 & Ht & Nt & H2 & N2 &
          Hq & Nq & H3 & N3 & Hd & Ld & H4 & Ho).
  assert (Nd : d4 <> []) by (destruct d4; simpl in Ld; [lia|discriminate]).
  destruct Ho as [->|(n & ws5 & -> & Hn & Nn & H5)].
  - exists (ws1 ++ tok ++ ws2 ++ q ++ ws3 ++ d4 ++ [] ++ []), ws4.
    split; [|split; [exact H4|split; [|split; [|split]]]].
    + rewrite !app_nil_r. repeat (rewrite <- ?app_assoc). reflexivity.
    + exists ws1, ws2, ws3, [], []. repeat (split; auto). left. reflexivity.
    + destruct ws1; [congruence|discriminate].
    + simpl. rewrite !app_nil_r.
      rewrite !app_assoc. rewrite ends_with_app by auto.
      apply ends_with_digits; auto.
    + simpl. rewrite !app_nil_r.
      replace (ws1 ++ tok ++ ws2 ++ q ++ ws3 ++ d4 ++ ws4)
        with ((ws1 ++ tok ++ ws2 ++ q ++ ws3 ++ d4) ++ ws4)
        by (repeat (rewrite <- ?app_assoc); reflexivity).
      symmetry. apply words_app_space. exact H4.
  - exists (ws1 ++ tok ++ ws2 ++ q ++ ws3 ++ d4 ++ ws4 ++ n ++ []), ws5.
    split; [|split; [exact H5|split; [|split; [|split]]]].
    + rewrite !app_nil_r. repeat (rewrite <- ?app_assoc). reflexivity.
    + exists ws1, ws2, ws3, ws4, (n ++ []). repeat (split; auto).
      right. exists n, []. repeat (split; auto).
    + destruct ws1; [congruence|discriminate].
    + rewrite !app_nil_r.
      rewrite !app_assoc. rewrite ends_with_app by auto.
      apply ends_with_digits; auto.
    + rewrite !app_nil_r.
      replace (ws1 ++ tok ++ ws2 ++ q ++ ws3 ++ d4 ++ ws4 ++ n ++ ws5)
        with ((ws1 ++ tok ++ ws2 ++ q ++ ws3 ++ d4 ++ ws4 ++ n) ++ ws5)
        by (repeat (rewrite <- ?app_assoc); reflexivity).
      symmetry. apply words_app_space. exact H5.
Qed.

(** The trimmed text block of a row: the name part without its leading
    whitespace, and the end of the row without its trailing one. *)
Lemma trim_row pre tok q d4 R :
  row_tail_shape tok q d4 R -> trim pre <> [] ->
  exists R',
    trim (pre ++ R) = trimStart pre ++ R' /\
    row_tail_shape tok q d4 R' /\ words R' = words R.
Proof.
  intros HR Hpre.
  destruct (row_tail_trimEnd tok q d4 R HR) as (R' & z & -> & Hz & HR' & Nr & He & Hw).
  exists R'. split; [|split; assumption].
  rewrite app_assoc, trim_app_space by exact Hz.
  unfold trim, trimStart.
  destruct (dropWhile_app_cases Cls.space pre R') as [(_ & E & _)|E].
  - exfalso. apply Hpre. unfold trim, trimStart. rewrite E. reflexivity.
  - rewrite E. apply trimEnd_stopped. rewrite ends_with_app; auto.
Qed.

Lemma trim_trimStart s : trim (trimStart s) = trim s.
Proof.
  unfold trim, trimStart.
  rewrite (dropWhile_stopped Cls.space (dropWhile Cls.space s)); auto.
  apply dropWhile_stops.
Qed.

(** The record of a text block that is a row. *)
Lemma recordOf_row m pre tok q d4 R :
  row_tail_shape tok q d4 R ->
  ~ all Cls.digit tok \/ length q <> 4 \/ length (words R) = 4 ->
  all Cls.dot pre -> trim pre <> [] ->
  recordOf (m, pre ++ R) =
  mkMapping (number m) tok (trim (stripLeadingNumber (trim pre))).
Proof.
  intros HR D Hdot Hpre.
  destruct (trim_row pre tok q d4 R HR Hpre) as (R' & E & HR' & Hw).
  unfold recordOf. cbn [fst snd]. rewrite E.
  assert (D' : ~ all Cls.digit tok \/ length q <> 4 \/ length (words R') = 4)
    by (rewrite Hw; exact D).
  destruct (primaryGrammar_row_end (trimStart pre) tok q d4 R' HR' D')
    as (name & Hp & Hn).
  unfold rowFields. rewrite Hp. cbn [fst snd].
  rewrite cleanProductName_spec, Hn, trim_trimStart; [reflexivity|].
  apply all_dropWhile. exact Hdot.
Qed.

(** X10. A row on its own page.  The page text is a shipment number
    [s], then the name part [pre], then the end of the row [R]
    (whitespace, a token, whitespace, the quantity, whitespace, four
    digits, optionally a further integer).  When [pre] does not begin
    with a digit, is on one line and is not blank, when no shipment
    number occurs after [s], and when the end of the row has no second
    reading, the parser returns exactly one record: the number [s], the
    token as the article, and [pre] trimmed, without one leading
    number, as the product name. *)
Theorem row_parses_to_its_record
        (items : TextPage) (s pre tok q d4 R : jsstring) :
  pageText items = s ++ pre ++ R ->
  shipment_shape s ->
  row_tail_shape tok q d4 R ->
  ~ all Cls.digit tok \/ length q <> 4 \/ length (words R) = 4 ->
  stops Cls.digit pre -> all Cls.dot pre -> trim pre <> [] ->
  (forall s1 w s2, pre ++ R = s1 ++ w ++ s2 -> ~ shipment_shape w) ->
  parseOrdersPdf [items] =
  Some [mkMapping s tok (trim (stripLeadingNumber (trim pre)))].
Proof.
  intros Ht Hs HR D Hstop Hdot Hpre Hno.
  rewrite parseOrdersPdf_total. simpl. rewrite app_nil_r.
  unfold pageRecords. cbv zeta. rewrite Ht.
  assert (Sc : Scan 0 ([] ++ s ++ pre ++ R) [mkShip s (0 + length (@nil N))]).
  { apply Scan_hit; auto.
    - intros s1 s2 E. destruct s1, s2; try discriminate. congruence.
    - intros x r E Hx. apply last_digit_of_shape in Hx.
      assert (Nr : pre <> []) by (intros ->; apply Hpre; reflexivity).
      destruct pre as [|y pre']; [congruence|].
      simpl in E. inversion E; subst. simpl in Hstop. congruence.
    - apply Scan_done. intros s1 s2 E w r -> Hw.
      apply (Hno s1 w r); auto. }
  simpl in Sc. rewrite (Scan_matchesOf _ _ Sc).
  cbn [blocksOf combine List.map number index Nat.add].
  unfold slice. rewrite skipn_app, (skipn_all2 s) by lia.
  replace (length s - length s) with 0 by lia.
  rewrite length_app. replace (length s + length (pre ++ R) - length s)
    with (length (pre ++ R)) by lia.
  cbn [skipn app]. rewrite firstn_all.
  rewrite (recordOf_row _ pre tok q d4 R HR D Hdot Hpre). reflexivity.
Qed.

Lemma row_parses_to_its_record_instance :
  parseOrdersPdf [[lit "0149711785-0110-1 12 Name F/034 1 1785 9 "]] =
  Some [mkMapping sampleNumber (lit "F/034") (lit "Name")].
Proof.
  apply (row_parses_to_its_record
           [lit "0149711785-0110-1 12 Name F/034 1 1785 9 "]
           sampleNumber (lit " 12 Name") (lit "F/034") (lit "1") (lit "1785")
           (lit " F/034 1 1785 9 ")).
  - reflexivity.
  - exists (lit "0149711785"), (lit "0110"), (lit "1").
    repeat split; simpl; lia.
  - exists (lit " "), (lit " "), (lit " "), (lit " "), (lit "9 ").
    repeat split; try reflexivity; try discriminate.
    right. exists (lit "9"), (lit " ").
    repeat split; try reflexivity; discriminate.
  - left. vm_compute. discriminate.
  - reflexivity.
  - reflexivity.
  - vm_compute. discriminate.
  - apply matchesOf_nil_iff. vm_compute. reflexivity.
Defined.

(** ** The fields of a record *)

Lemma alnum_nonspace x : Cls.alnum x = true -> Cls.nonspace x = true.
Proof.
  unfold Cls.alnum, Cls.between. intros H. apply nonspace_true.
  unfold Cls.space, Cls.line_terminator, Cls.between.
  repeat match goal with
         | H : (_ || _)%bool = true |- _ => apply orb_true_iff in H; destruct H as [H|H]
         | H : (_ && _)%bool = true |- _ => apply andb_true_iff in H; destruct H as [? ?]
         | H : (_ <=? _)%N = true |- _ => apply N.leb_le in H
         end;
  repeat match goal with
         | |- (_ || _)%bool = false => apply orb_false_iff; split
         | |- (_ && _)%bool = false => apply andb_false_iff
         end;
  try (apply N.eqb_neq; lia);
  try (left; apply N.leb_gt; lia); try (right; apply N.leb_gt; lia).
Qed.

Lemma sep_nonspace x : Cls.sep x = true -> Cls.nonspace x = true.
Proof.
  unfold Cls.sep. intros H. apply nonspace_true.
  apply orb_true_iff in H. destruct H as [H|H]; apply N.eqb_eq in H; subst; reflexivity.
Qed.

Lemma article_shape_nonspace w : article_shape w -> all Cls.nonspace w /\ w <> [].
Proof.
  intros (a & x & b & -> & Ha & Na & Hx & Hb & Nb). split.
  - apply all_app. split.
    + unfold all in *. rewrite forallb_forall in *. auto using alnum_nonspace.
    + unfold all in *. simpl. rewrite (sep_nonspace x Hx). simpl.
      rewrite forallb_forall in *. auto using alnum_nonspace.
  - destruct a; [congruence|discriminate].
Qed.

(** What the primary grammar returns: the token of a row end as the
    article, and the text of its first group, trimmed. *)
Lemma primaryGrammar_sound block a nm :
  primaryGrammar block = Some (a, nm) ->
  exists sk g1 tok q d4 R,
    block = sk ++ g1 ++ R /\ all Cls.dot g1 /\ row_tail_shape tok q d4 R /\
    a = tok /\ nm = trim g1.
Proof.
  unfold primaryGrammar, js_match.
  destruct (search rowEndRegex 0 block) as [m|] eqn:S0; [|discriminate].
  intros H. inversion H; subst; clear H.
  apply search_sound in S0.
  destruct S0 as (sk & rest' & E & Hi & Hm & Hnone).
  simpl in Hi. rewrite Hi in Hm. clear Hi.
  unfold match_at, rowEndRegex in Hm. cbn [run] in Hm.
  apply rep_lazy_shortest in Hm.
  destruct Hm as (g1 & suf & Eg & Hdot & _ & _ & Hk & Hmin).
  apply run_sound in Hk.
  destruct Hk as (w & rest2 & c' & Es & M & Hfin).
  apply rowTail_sound in M.
  destruct M as (-> & tok' & q' & d4' & Hshape & ->).
  rewrite app_nil_r in Es. subst suf.
  inversion Hfin; subst m; clear Hfin.
  cbn [group m_caps cap_get Nat.eqb].
  exists sk, g1, tok', q', d4', w.
  split; [subst; reflexivity|]. split; [exact Hdot|]. split; [exact Hshape|].
  split.
  - apply trim_nonspace.
    destruct Hshape as (? & ? & ? & ? & ? & ? & ? & ? & ? & ? & ?); auto.
  - replace (length sk + length g1 - length sk) with (length g1) by lia.
    rewrite Eg, firstn_length_app by reflexivity. reflexivity.
Qed.

(** What the fallback grammar returns: the first article-shaped token
    and the text before it, trimmed. *)
Lemma fallbackGrammar_sound block a nm :
  fallbackGrammar block = Some (a, nm) ->
  exists pre post,
    block = pre ++ a ++ post /\ article_shape a /\ nm = trim pre /\
    forall s1 s2, pre = s1 ++ s2 -> s2 <> [] -> no_article_here (s2 ++ a ++ post).
Proof.
  unfold fallbackGrammar, js_match.
  destruct (search articleRegex 0 block) as [m|] eqn:S0; [|discriminate].
  intros H. inversion H; subst; clear H.
  apply search_sound in S0.
  destruct S0 as (sk & rest' & E & Hi & Hm & Hnone).
  simpl in Hi.
  apply match_at_sound in Hm.
  destruct Hm as (rest2 & c' & Er & M & _ & _ & Hc).
  apply article_Matches in M. destruct M as [Hs Ec].
  assert (G : group 1 m = m_text m).
  { unfold group. rewrite Hc, Ec. reflexivity. }
  rewrite G. exists sk, rest2. split; [subst; reflexivity|]. split; [exact Hs|].
  split.
  - rewrite Hi, E. unfold substring. cbn zeta.
    rewrite Nat.min_0_l, Nat.min_0_l, Nat.max_0_l, Nat.sub_0_r.
    cbn [skipn]. rewrite length_app, Nat.min_l by lia.
    rewrite firstn_length_app by reflexivity. reflexivity.
  - intros s1 s2 E1 Hne. rewrite <- Er.
    eapply article_none_no_article. apply (Hnone s1 s2 E1 Hne).
Qed.

Lemma rowFields_article_nonspace block : all Cls.nonspace (fst (rowFields block)).
Proof.
  unfold rowFields.
  destruct (primaryGrammar block) as [[a nm]|] eqn:P.
  - apply primaryGrammar_sound in P.
    destruct P as (sk & g1 & tok & q & d4 & R & _ & _ & HR & -> & _).
    destruct HR as (? & ? & ? & ? & ? & ? & ? & ? & ? & ? & ?); auto.
  - destruct (fallbackGrammar block) as [[a nm]|] eqn:F.
    + apply fallbackGrammar_sound in F.
      destruct F as (pre & post & _ & Hs & _). apply article_shape_nonspace. exact Hs.
    + reflexivity.
Qed.

(** X11. The fields of every record the parser returns are clean: the
    article has no whitespace in it, and the product name neither
    begins nor ends with whitespace. *)
Theorem record_fields_clean (pdf : list TextPage) :
  match parseOrdersPdf pdf with
  | Some table =>
      Forall (fun r => all Cls.nonspace (article r) /\
                       starts_with Cls.space (productName r) = false /\
                       ends_with Cls.space (productName r) = false) table
  | None => False
  end.
Proof.
  rewrite parseOrdersPdf_total.
  apply Forall_forall. intros r Hin.
  apply in_flat_map in Hin. destruct Hin as (items & _ & Hin).
  unfold pageRecords in Hin. cbv zeta in Hin. apply in_map_iff in Hin.
  destruct Hin as ([m block] & <- & _).
  unfold recordOf. cbn [article productName fst snd].
  split; [apply rowFields_article_nonspace|].
  unfold cleanProductName.
  split; [apply trim_no_leading_space|apply trim_no_trailing_space].
Qed.

(** X12. The article of a row is empty exactly when neither grammar
    matches its text block; the whole block is then the product name.
    When a grammar matches, the article it gives is not empty. *)
Theorem article_empty_iff_no_grammar (textBlock : jsstring) :
  (fst (rowFields textBlock) = [] <->
   primaryGrammar textBlock = None /\ fallbackGrammar textBlock = None) /\
  (fst (rowFields textBlock) = [] -> snd (rowFields textBlock) = textBlock).
Proof.
  assert (A : fst (rowFields textBlock) = [] ->
              primaryGrammar textBlock = None /\ fallbackGrammar textBlock = None).
  { unfold rowFields.
    destruct (primaryGrammar textBlock) as [[a nm]|] eqn:P.
    - apply primaryGrammar_sound in P.
      destruct P as (sk & g1 & tok & q & d4 & R & _ & _ & HR & -> & _).
      destruct HR as (? & ? & ? & ? & ? & ? & ? & ? & ? & Nt & ?).
      simpl. intros ->. congruence.
    - destruct (fallbackGrammar textBlock) as [[a nm]|] eqn:F; auto.
      apply fallbackGrammar_sound in F.
      destruct F as (pre & post & _ & Hs & _).
      apply article_shape_nonspace in Hs. simpl. intros ->. destruct Hs. congruence. }
  split; [split; [exact A|]|].
  - intros [P F]. rewrite (rowFields_neither _ P F). reflexivity.
  - intros H. destruct (A H) as [P F]. rewrite (rowFields_neither _ P F). reflexivity.
Qed.

(** ** From the orders to the labels *)

Lemma keys_of_records : forall ms bl,
  length bl = length ms ->
  List.map shippingNumber (List.map recordOf (combine ms bl)) = List.map number ms.
Proof.
  induction ms as [|m ms IH]; intros [|b bl] H; simpl in *; try lia; auto.
  f_equal. apply IH. lia.
Qed.

Lemma pageRecords_keys items :
  List.map shippingNumber (pageRecords items) =
  List.map number (matchesOf (pageText items)).
Proof.
  unfold pageRecords. cbv zeta. apply keys_of_records. apply blocksOf_length.
Qed.

Lemma listed_iff_key pdf s :
  listed pdf s <-> In s (List.map shippingNumber (flat_map pageRecords pdf)).
Proof.
  split.
  - intros (items & ms & Hin & Hs & Hm).
    apply Scan_matchesOf in Hs. subst ms. rewrite <- pageRecords_keys in Hm.
    apply in_map_iff in Hm. destruct Hm as (r & Hr & Hin').
    apply in_map_iff. exists r. split; [exact Hr|].
    apply in_flat_map. eauto.
  - intros H. apply in_map_iff in H. destruct H as (r & Hr & Hin).
    apply in_flat_map in Hin. destruct Hin as (items & Hin & Hr').
    exists items, (matchesOf (pageText items)).
    split; [exact Hin|]. split; [apply matchesOf_Scan|].
    rewrite <- pageRecords_keys. apply in_map_iff. eauto.
Qed.

Lemma findMapping_hit_iff table s :
  findMapping table s <> None <-> In s (List.map shippingNumber table).
Proof.
  unfold findMapping. split.
  - intros H. destruct (find _ table) as [r|] eqn:E; [|congruence].
    apply find_some in E. destruct E as [Hin Hk]. apply jsstring_eqb_eq in Hk.
    apply in_map_iff. eauto.
  - intros H E. apply in_map_iff in H. destruct H as (r & Hk & Hin).
    pose proof (find_none _ _ E r Hin) as Hn. cbv beta in Hn.
    rewrite Hk in Hn.
    assert (T : jsstring_eqb s s = true) by (apply jsstring_eqb_eq; reflexivity).
    congruence.
Qed.

(** X13. Parsing, then looking up.  The lookup of a shipment number in
    the table the parser returns succeeds exactly when the number is one
    of the matches of some page of the orders document; the record it
    returns is one of the table and carries the number asked for. *)
Theorem lookup_hits_listed_numbers (pdf : list TextPage) (s : jsstring) :
  match parseOrdersPdf pdf with
  | Some table =>
      (findMapping table s <> None <-> listed pdf s) /\
      (forall r, findMapping table s = Some r -> shippingNumber r = s /\ In r table)
  | None => False
  end.
Proof.
  rewrite parseOrdersPdf_total. split.
  - rewrite findMapping_hit_iff. symmetry. apply listed_iff_key.
  - intros r H. unfold findMapping in H. apply find_some in H.
    destruct H as [Hin Hk]. apply jsstring_eqb_eq in Hk. auto.
Qed.

Lemma resolved_iff_resolves (pdf : list TextPage) (items : TextPage) :
  resolved (flat_map pageRecords pdf) items = true <-> resolves pdf items.
Proof.
  unfold resolved, resolvePage, resolves.
  pose proof (first_match_head (pageText items)) as H.
  pose proof (matchesOf_Scan (pageText items)) as Hs.
  destruct (js_match shippingRegex (pageText items)) as [m0|] eqn:E; simpl in H.
  - destruct (matchesOf (pageText items)) as [|m ms] eqn:Em; [discriminate|].
    simpl in H. inversion H; subst m. cbn [toShip number] in *.
    split.
    + intros F. exists (toShip m0), ms. split; [exact Hs|].
      apply listed_iff_key, findMapping_hit_iff.
      cbn [toShip number].
      destruct (findMapping _ (group 1 m0)); [discriminate|discriminate].
    + intros (m & ms' & Hs' & Hl).
      apply Scan_matchesOf in Hs'. rewrite Em in Hs'. inversion Hs'; subst.
      apply listed_iff_key, findMapping_hit_iff in Hl. cbn [toShip number] in Hl.
      destruct (findMapping _ (group 1 m0)); [reflexivity|congruence].
  - split; [discriminate|].
    intros (m & ms' & Hs' & _).
    apply Scan_matchesOf in Hs'. rewrite Hs' in H. discriminate.
Qed.

(** X14. A label page resolves exactly when its text has a shipment
    number and the first of them is listed in the orders document;
    further numbers on the label page play no part. *)
Theorem label_resolves_iff_first_listed (pdf : list TextPage) (items : TextPage) :
  match parseOrdersPdf pdf with
  | Some table =>
      resolved table items = true <->
      exists m ms, Scan 0 (pageText items) (m :: ms) /\ listed pdf (number m)
  | None => False
  end.
Proof. rewrite parseOrdersPdf_total. apply resolved_iff_resolves. Qed.

(** ** Text items *)

Lemma Scan_infix pos t ms :
  Scan pos t ms -> Forall (fun m => exists a b, t = a ++ number m ++ b) ms.
Proof.
  induction 1 as [pos t Hnone|pos sk w rest ms Hw Hsk Hmax Hrest IH]; constructor.
  - exists sk, rest. reflexivity.
  - eapply Forall_impl; [|exact IH]. cbv beta.
    intros m (a & b & ->). exists (sk ++ w ++ a), b.
    rewrite <- !app_assoc. reflexivity.
Qed.

Lemma prefix_avoids : forall (w s2 a b : jsstring) c,
  w ++ s2 = a ++ c :: b -> ~ In c w -> exists s2', a = w ++ s2'.
Proof.
  induction w as [|y w IH]; intros s2 a b c E Hc.
  - exists a. reflexivity.
  - destruct a as [|z a]; simpl in E; inversion E; subst.
    + exfalso. apply Hc. left. reflexivity.
    + destruct (IH s2 a b c H1) as [s2' ->].
      * intros H. apply Hc. right. exact H.
      * exists s2'. reflexivity.
Qed.

(** A word without the character [c], found in a text around a [c],
    lies before it or after it. *)
Lemma infix_avoids : forall (s1 w s2 a b : jsstring) c,
  s1 ++ w ++ s2 = a ++ c :: b -> ~ In c w ->
  (exists s2', a = s1 ++ w ++ s2') \/ (exists s1', b = s1' ++ w ++ s2).
Proof.
  induction s1 as [|x s1 IH]; intros w s2 a b c E Hc.
  - left. simpl in *. eapply prefix_avoids; eauto.
  - destruct a as [|z a]; simpl in E; inversion E; subst.
    + right. exists s1. reflexivity.
    + destruct (IH w s2 a b c H1 Hc) as [(s2' & ->)|(s1' & ->)].
      * left. exists s2'. reflexivity.
      * right. exists s1'. reflexivity.
Qed.

Lemma blank_not_in_shape w : shipment_shape w -> ~ In 32%N w.
Proof.
  intros Hw Hin. apply shape_shipchars in Hw.
  rewrite forallb_forall in Hw. specialize (Hw _ Hin). discriminate.
Qed.

Lemma infix_of_join w : ~ In 32%N w -> w <> [] -> forall items s1 s2,
  join (lit " ") items = s1 ++ w ++ s2 ->
  exists item a b, In item items /\ item = a ++ w ++ b.
Proof.
  intros Hc Hne. induction items as [|x items IH]; intros s1 s2 E.
  - simpl in E. destruct s1; [|discriminate]. destruct w; [congruence|discriminate].
  - destruct items as [|y items].
    + simpl in E. exists x, s1, s2. split; [left; reflexivity|exact E].
    + change (join (lit " ") (x :: y :: items))
        with (x ++ 32%N :: join (lit " ") (y :: items)) in E.
      symmetry in E.
      destruct (infix_avoids s1 w s2 _ _ _ E Hc) as [(s2' & ->)|(s1' & E')].
      * exists (s1 ++ w ++ s2'), s1, s2'. split; [left; reflexivity|reflexivity].
      * destruct (IH s1' s2 E') as (item & a & b & Hin & ->).
        exists (a ++ w ++ b), a, b. split; [right; exact Hin|reflexivity].
Qed.

(** X15. A shipment number is read from one text item.  The page text
    is the items joined with blanks, and no blank can stand in a
    shipment number, so every match of a page lies within a single item
    of that page: a number that the extractor delivers in two items is
    not found. *)
Theorem number_within_one_item (items : TextPage) :
  match collectMatches (pageText items) with
  | Some matches =>
      Forall (fun m => exists item a b,
                         In item items /\ item = a ++ number m ++ b) matches
  | None => False
  end.
Proof.
  rewrite collectMatches_matchesOf.
  pose proof (matchesOf_Scan (pageText items)) as Hs.
  pose proof (Scan_infix _ _ _ Hs) as Hi.
  pose proof (Scan_shapes _ _ _ Hs) as Hw.
  rewrite Forall_forall in *. intros m Hin.
  destruct (Hi m Hin) as (s1 & s2 & E).
  specialize (Hw m Hin). cbv beta in Hw.
  apply (infix_of_join (number m)) with (s1 := s1) (s2 := s2).
  - apply blank_not_in_shape. exact Hw.
  - apply shipment_shape_length in Hw. destruct (number m); simpl in Hw; [lia|discriminate].
  - exact E.
Qed.

(** ** The outcomes of a run *)

(** The run in which every await delivers ends in one of three ways. *)
Lemma handleProcess_outcomes (customFont : Font) (orders : list TextPage)
        (labels : list LabelPage) :
  exists run,
    handleProcess customFont (Some orders) (Some labels) = Some run /\
    (outcome run = inl NoRecordsExtracted <-> forall s, ~ listed orders s) /\
    (outcome run = inl NoMatchesFound <->
     (exists s, listed orders s) /\
     forall p, In p labels -> ~ resolves orders (lp_items p)) /\
    ((exists doc, outcome run = inr doc) <->
     exists p, In p labels /\ resolves orders (lp_items p)) /\
    (forall doc, outcome run = inr doc ->
       doc = List.map (fun p => annotateIfResolved customFont
                                  (flat_map pageRecords orders)
                                  (lp_items p) (lp_page p)) labels) /\
    outcome run <> inl MissingInput /\
    outcome run <> inl PageOutOfRange /\
    labelPagesRead run =
      match outcome run with
      | inl NoRecordsExtracted => []
      | _ => seq 0 (length labels)
      end.
Proof.
  unfold handleProcess. rewrite parseOrdersPdf_total.
  set (table := flat_map pageRecords orders).
  assert (R : forall p, resolved table (lp_items p) = true <->
                        resolves orders (lp_items p))
    by (intros p; apply resolved_iff_resolves).
  assert (L : forall s, listed orders s <-> In s (List.map shippingNumber table))
    by (intros s; apply listed_iff_key).
  destruct table as [|r table'] eqn:Et.
  - (* no record *)
    cbn [length Nat.eqb]. eexists. split; [reflexivity|]. cbn [outcome labelPagesRead].
    assert (N : forall s, ~ listed orders s) by (intros s H; apply L in H; exact H).
    split; [split; auto|].
    split; [split; [discriminate|intros [[s H] _]; exfalso; exact (N s H)]|].
    split.
    { split; [intros [doc H]; discriminate|].
      intros (p & _ & m & ms & _ & H). exfalso. exact (N _ H). }
    split; [intros doc H; discriminate|].
    split; [discriminate|]. split; [discriminate|reflexivity].
  - (* some record *)
    cbn [length Nat.eqb]. rewrite processLabelsPdf_spec.
    assert (Y : listed orders (shippingNumber r)) by (apply L; left; reflexivity).
    destruct (filter (fun p => resolved (r :: table') (lp_items p)) labels)
      as [|q l] eqn:Ef.
    + cbn [length Nat.eqb]. eexists. split; [reflexivity|].
      cbn [outcome labelPagesRead].
      rewrite filter_nil_iff in Ef.
      assert (N : forall p, In p labels -> ~ resolves orders (lp_items p)).
      { intros p Hin H. apply R in H. rewrite (Ef p Hin) in H. discriminate. }
      split; [split; [discriminate|intros H; exfalso; exact (H _ Y)]|].
      split; [split; [intros _; split; [eauto|exact N]|reflexivity]|].
      split.
      { split; [intros [doc H]; discriminate|].
        intros (p & Hin & H). exfalso. exact (N p Hin H). }
      split; [intros doc H; discriminate|].
      split; [discriminate|]. split; [discriminate|reflexivity].
    + cbn [length Nat.eqb]. eexists. split; [reflexivity|].
      cbn [outcome labelPagesRead].
      assert (Hq : In q labels /\ resolved (r :: table') (lp_items q) = true).
      { apply (filter_In (fun p => resolved (r :: table') (lp_items p)) q labels).
        rewrite Ef. left. reflexivity. }
      destruct Hq as [Hin Hq]. apply R in Hq.
      split; [split; [discriminate|intros H; exfalso; exact (H _ Y)]|].
      split; [split; [discriminate|intros [_ H]; exfalso; exact (H q Hin Hq)]|].
      split; [split; eauto|].
      split; [intros doc H; inversion H; reflexivity|].
      split; [discriminate|]. split; [discriminate|reflexivity].
Qed.

(** X6. The outcomes of a run on two files.  The run always ends, in
    one of four ways, whatever its awaits deliver.  It ends in the
    no-records error exactly when the orders file is delivered and no
    shipment number is listed in it; the labels file, the font and the
    save then play no part.  It ends in the no-matches error exactly
    when both files and the font are delivered, some number is listed
    and no label page resolves.  It hands out a document exactly when
    both files and the font are delivered, some label page resolves and
    the save is delivered; the document then has the pages of the labels
    file in their order, the resolving ones annotated and the others
    as they were.  It ends in another failure exactly when the orders
    file is not delivered, or some number is listed and the labels file
    or the font is not delivered, or some label page resolves and the
    save is not delivered.  The run never reports a missing file and
    never asks for a page the document lacks. *)
Theorem run_outcomes (env : Awaits) (orders : list TextPage)
        (labels : list LabelPage) :
  exists out,
    handleProcess_try env orders labels = Some out /\
    (out = inl (Own NoRecordsExtracted) <->
     ordersDelivered env = true /\ forall s, ~ listed orders s) /\
    (out = inl (Own NoMatchesFound) <->
     ordersDelivered env = true /\ labelsDelivered env = true /\
     fontDelivered env <> None /\
     (exists s, listed orders s) /\
     forall p, In p labels -> ~ resolves orders (lp_items p)) /\
    ((exists doc, out = inr doc) <->
     ordersDelivered env = true /\ labelsDelivered env = true /\
     fontDelivered env <> None /\ saveDelivered env = true /\
     exists p, In p labels /\ resolves orders (lp_items p)) /\
    (out = inl Other <->
     ordersDelivered env = false \/
     ((exists s, listed orders s) /\
      (labelsDelivered env = false \/ fontDelivered env = None \/
       (saveDelivered env = false /\
        exists p, In p labels /\ resolves orders (lp_items p))))) /\
    (forall doc, out = inr doc ->
       exists customFont,
         fontDelivered env = Some customFont /\
         doc = List.map (fun p => annotateIfResolved customFont
                                    (flat_map pageRecords orders)
                                    (lp_items p) (lp_page p)) labels) /\
    out <> inl (Own MissingInput) /\
    out <> inl (Own PageOutOfRange).
Proof.
  unfold handleProcess_try. rewrite parseOrdersPdf_total.
  set (table := flat_map pageRecords orders).
  assert (R : forall p, resolved table (lp_items p) = true <->
                        resolves orders (lp_items p))
    by (intros p; apply resolved_iff_resolves).
  assert (L : forall s, listed orders s <-> In s (List.map shippingNumber table))
    by (intros s; apply listed_iff_key).
  assert (T : table = [] /\ (forall s, ~ listed orders s) \/
              table <> [] /\ exists s, listed orders s).
  { destruct table as [|r table'] eqn:Et.
    - left. split; [reflexivity|]. intros s H. apply L in H. exact H.
    - right. split; [discriminate|]. exists (shippingNumber r). apply L. left. reflexivity. }
  assert (F : forall customFont,
            (fst (processLabelsPdf customFont (List.map lp_items labels)
                                   (List.map lp_page labels) table) =
             inl NoMatchesFound /\
             forall p, In p labels -> ~ resolves orders (lp_items p)) \/
            (fst (processLabelsPdf customFont (List.map lp_items labels)
                                   (List.map lp_page labels) table) =
             inr (List.map (fun p => annotateIfResolved customFont table
                                       (lp_items p) (lp_page p)) labels) /\
             exists p, In p labels /\ resolves orders (lp_items p))).
  { intros customFont. rewrite processLabelsPdf_spec.
    destruct (filter (fun p => resolved table (lp_items p)) labels) as [|q l] eqn:Ef.
    - left. split; [reflexivity|]. rewrite filter_nil_iff in Ef.
      intros p Hin H. apply R in H. rewrite (Ef p Hin) in H. discriminate.
    - right. split; [reflexivity|].
      assert (Hq : In q labels /\ resolved table (lp_items q) = true).
      { apply (filter_In (fun p => resolved table (lp_items p)) q labels).
        rewrite Ef. left. reflexivity. }
      destruct Hq as [Hin Hq]. apply R in Hq. eauto. }
  destruct (ordersDelivered env) eqn:O; cbn [negb].
  2:{ eexists. split; [reflexivity|].
      split; [split; [discriminate|intros [H _]; discriminate]|].
      split; [split; [discriminate|intros [H _]; discriminate]|].
      split; [split; [intros [doc H]; discriminate|intros [H _]; discriminate]|].
      split; [split; [intros _; left; reflexivity|reflexivity]|].
      split; [intros doc H; discriminate|]. split; discriminate. }
  destruct T as [[Et N]|[Et [s0 Y]]].
  { rewrite Et. cbn [length Nat.eqb]. eexists. split; [reflexivity|].
    split; [split; auto|].
    split; [split; [discriminate|intros (_ & _ & _ & [s H] & _); exfalso; exact (N s H)]|].
    split; [split; [intros [doc H]; discriminate|
                    intros (_ & _ & _ & _ & p & _ & m & ms & _ & H); exfalso; exact (N _ H)]|].
    split; [split; [discriminate|
                    intros [H|[[s H] _]]; [discriminate|exfalso; exact (N s H)]]|].
    split; [intros doc H; discriminate|].
    split; discriminate. }
  assert (Ne : Nat.eqb (length table) 0 = false).
  { destruct table; [congruence|reflexivity]. }
  rewrite Ne.
  assert (NY : ~ forall s, ~ listed orders s) by (intros H; exact (H s0 Y)).
  destruct (labelsDelivered env) eqn:Lb; cbn [negb].
  2:{ eexists. split; [reflexivity|].
      split; [split; [discriminate|tauto]|].
      split; [split; [discriminate|intros (_ & H & _); discriminate]|].
      split; [split; [intros [doc H]; discriminate|intros (_ & H & _); discriminate]|].
      split; [split; [intros _; right; split; eauto|reflexivity]|].
      split; [intros doc H; discriminate|]. split; discriminate. }
  destruct (fontDelivered env) as [customFont|] eqn:Fo.
  2:{ eexists. split; [reflexivity|].
      split; [split; [discriminate|tauto]|].
      split; [split; [discriminate|intros (_ & _ & H & _); congruence]|].
      split; [split; [intros [doc H]; discriminate|intros (_ & _ & H & _); congruence]|].
      split; [split; [intros _; right; split; eauto|reflexivity]|].
      split; [intros doc H; discriminate|]. split; discriminate. }
  destruct (F customFont) as [[-> NR]|[-> RS]].
  { eexists. split; [reflexivity|].
    split; [split; [discriminate|tauto]|].
    split; [split; [intros _; repeat split; try discriminate; eauto|reflexivity]|].
    split; [split; [intros [doc H]; discriminate|
                    intros (_ & _ & _ & _ & p & Hin & H); exfalso; exact (NR p Hin H)]|].
    split; [split; [discriminate|
                    intros [H|[_ [H|[H|[_ (p & Hin & H)]]]]];
                    try discriminate; exfalso; exact (NR p Hin H)]|].
    split; [intros doc H; discriminate|]. split; discriminate. }
  destruct RS as (p0 & Hin0 & Hr0).
  destruct (saveDelivered env) eqn:Sv.
  - eexists. split; [reflexivity|].
    split; [split; [discriminate|tauto]|].
    split; [split; [discriminate|intros (_ & _ & _ & _ & H); exfalso; exact (H p0 Hin0 Hr0)]|].
    split; [split; [intros _; repeat split; try discriminate; eauto|eauto]|].
    split; [split; [discriminate|
                    intros [H|[_ [H|[H|[H _]]]]]; discriminate]|].
    split; [intros doc H; inversion H; eauto|]. split; discriminate.
  - eexists. split; [reflexivity|].
    split; [split; [discriminate|tauto]|].
    split; [split; [discriminate|intros (_ & _ & _ & _ & H); exfalso; exact (H p0 Hin0 Hr0)]|].
    split; [split; [intros [doc H]; discriminate|intros (_ & _ & _ & H & _); discriminate]|].
    split; [split; [intros _; right; split; eauto 8|reflexivity]|].
    split; [intros doc H; discriminate|]. split; discriminate.
Qed.

(** When every await delivers, the run is [handleProcess] on what was
    delivered. *)
Lemma handleProcess_try_delivered (customFont : Font)
      (orders : list TextPage) (labels : list LabelPage) :
  handleProcess_try (mkAwaits true true (Some customFont) true) orders labels =
  option_map (fun run => match outcome run with
                         | inl e => inl (Own e)
                         | inr doc => inr doc
                         end)
             (handleProcess customFont (Some orders) (Some labels)).
Proof.
  unfold handleProcess_try, handleProcess. cbn [ordersDelivered labelsDelivered
    fontDelivered saveDelivered negb].
  destruct (parseOrdersPdf orders) as [mappings|]; [|reflexivity].
  destruct (Nat.eqb (length mappings) 0); [reflexivity|].
  destruct (processLabelsPdf customFont (List.map lp_items labels)
                             (List.map lp_page labels) mappings) as [[e|doc] read];
    reflexivity.
Qed.

(** A document with fewer pages than its text: [getPage] throws on the
    first page that resolves and is not there, after the text of that
    page has been read. *)
Lemma processLabelsPdf_page_out_of_range customFont mappings items mapping :
  resolvePage mappings items = Some mapping ->
  processLabelsPdf customFont [items] [] mappings = (inl PageOutOfRange, [0]).
Proof.
  intros H. unfold processLabelsPdf. cbn [labelLoop]. unfold labelStep.
  cbn [pdfDoc modifiedCount pagesRead app]. rewrite H. reflexivity.
Qed.

(** ** The text blocks cover the text *)

Lemma slice_at (a b c : jsstring) :
  slice (a ++ b ++ c) (length a) (length a + length b) = b.
Proof.
  unfold slice. rewrite skipn_length_app by reflexivity.
  replace (length a + length b - length a) with (length b) by lia.
  apply firstn_length_app. reflexivity.
Qed.

Lemma slice_to_end (a b : jsstring) :
  slice (a ++ b) (length a) (length (a ++ b)) = b.
Proof.
  rewrite <- (app_nil_r b) at 1. rewrite length_app. apply slice_at.
Qed.

(** The text from [pos] on is what is skipped before the first match,
    then each match followed by its text block; no shipment number
    occurs in what is skipped or in a text block. *)
Lemma Scan_partition pos t ms :
  Scan pos t ms ->
  forall pre0, length pre0 = pos ->
  exists before,
    t = before ++
        concat (List.map (fun mb => number (fst mb) ++ snd mb)
                         (combine ms (blocksOf (pre0 ++ t) ms))) /\
    (forall s1 w s2, before = s1 ++ w ++ s2 -> ~ shipment_shape w) /\
    match ms with
    | [] => True
    | m :: _ => index m = pos + length before
    end /\
    Forall (fun gap => forall s1 w s2, gap = s1 ++ w ++ s2 -> ~ shipment_shape w)
           (blocksOf (pre0 ++ t) ms).
Proof.
  induction 1 as [pos t Hnone|pos sk w rest ms Hw Hsk Hmax Hrest IH]; intros pre0 L.
  - exists t. simpl. rewrite app_nil_r. split; [reflexivity|].
    split; [|split; [exact I|constructor]].
    intros s1 w s2 E Hw. apply (Hnone s1 (w ++ s2) E w s2 eq_refl Hw).
  - destruct (IH (pre0 ++ sk ++ w)) as (before & E & Hb & Hi & Hg).
    { rewrite !length_app. lia. }
    replace ((pre0 ++ sk ++ w) ++ rest) with (pre0 ++ sk ++ w ++ rest) in E, Hg
      by (rewrite <- !app_assoc; reflexivity).
    assert (B : slice (pre0 ++ sk ++ w ++ rest) (pos + length sk + length w)
                      (match ms with
                       | n :: _ => index n
                       | [] => length (pre0 ++ sk ++ w ++ rest)
                       end) = before).
    { replace (pos + length sk + length w) with (length (pre0 ++ sk ++ w))
        by (rewrite !length_app; lia).
      replace (pre0 ++ sk ++ w ++ rest) with ((pre0 ++ sk ++ w) ++ rest)
        by (rewrite <- !app_assoc; reflexivity).
      destruct ms as [|n ms'].
      - simpl in E. rewrite app_nil_r in E. subst before. apply slice_to_end.
      - rewrite Hi.
        replace (pos + length sk + length w) with (length (pre0 ++ sk ++ w))
          by (rewrite !length_app; lia).
        rewrite E at 1. apply slice_at. }
    exists sk. split; [|split; [|split; [reflexivity|]]].
    + cbn [combine blocksOf List.map concat fst snd number index].
      rewrite B. rewrite <- app_assoc. do 2 f_equal. exact E.
    + intros s1 v s2 E' Hv.
      destruct v as [|x v'] eqn:Ev.
      { apply shipment_shape_length in Hv. simpl in Hv. lia. }
      apply (Hsk s1 (x :: v' ++ s2) E' ltac:(discriminate) (x :: v') (s2 ++ w ++ rest)).
      * simpl. rewrite <- app_assoc. reflexivity.
      * exact Hv.
    + cbn [blocksOf number index]. constructor; [|exact Hg].
      rewrite B. exact Hb.
Qed.

Lemma concat_pieces_length : forall (ms : list ShipMatch) (bl : list jsstring),
  length bl = length ms ->
  Forall (fun m => shipment_shape (number m)) ms ->
  15 * length ms <=
  length (concat (List.map (fun mb => number (fst mb) ++ snd mb) (combine ms bl))).
Proof.
  induction ms as [|m ms IH]; intros [|b bl] L F; simpl in *; try lia.
  inversion F as [|? ? Hm F']; subst.
  apply shipment_shape_length in Hm.
  specialize (IH bl ltac:(lia) F').
  rewrite !length_app. lia.
Qed.

(** X16. The text blocks cover the page.  The page text is the text
    before the first match, then each match followed by a gap, in
    order; no shipment number occurs before the first match or in a
    gap.  The text block of row [j] (lines 97 to 100) is its gap,
    trimmed, and [rowStep] makes the record of the row from it: apart
    from the text before the first number, every character of the page
    belongs to exactly one row.  A page of [n] characters therefore
    gives at most [n / 15] records. *)
Theorem blocks_cover_text (fullText : jsstring) :
  match collectMatches fullText with
  | Some matches =>
      (exists before gaps,
         length gaps = length matches /\
         fullText = before ++
                    concat (List.map (fun mg => number (fst mg) ++ snd mg)
                                     (combine matches gaps)) /\
         (forall s1 w s2, before = s1 ++ w ++ s2 -> ~ shipment_shape w) /\
         Forall (fun gap => forall s1 w s2, gap = s1 ++ w ++ s2 -> ~ shipment_shape w)
                gaps /\
         forall j m gap,
           nth_error matches j = Some m -> nth_error gaps j = Some gap ->
           textBlockOf fullText m (nth_error matches (j + 1)) = trim gap /\
           forall mappings,
             rowStep fullText matches mappings j =
             mappings ++ [mkMapping (number m)
                                    (fst (rowFields (trim gap)))
                                    (cleanProductName (snd (rowFields (trim gap))))]) /\
      15 * length matches <= length fullText
  | None => False
  end.
Proof.
  rewrite collectMatches_matchesOf.
  pose proof (matchesOf_Scan fullText) as Hs.
  destruct (Scan_partition _ _ _ Hs [] eq_refl) as (before & E & Hb & _ & Hg).
  simpl in E, Hg. split.
  - exists before, (blocksOf fullText (matchesOf fullText)).
    split; [apply blocksOf_length|]. split; [exact E|]. split; [exact Hb|].
    split; [exact Hg|].
    intros j m gap Hj Hgap.
    rewrite (blocksOf_nth _ _ _ _ Hj) in Hgap.
    destruct (rowStep_row _ _ _ _ Hs Hj) as [Hblock Hrow]. cbv zeta in Hblock, Hrow.
    assert (Eg : gap = slice fullText (index m + length (number m))
                         (match nth_error (matchesOf fullText) (S j) with
                          | Some n => index n
                          | None => length fullText
                          end)) by congruence.
    rewrite <- Eg in Hblock, Hrow. split; [exact Hblock|exact Hrow].
  - rewrite E at 2. rewrite length_app.
    pose proof (concat_pieces_length (matchesOf fullText)
                  (blocksOf fullText (matchesOf fullText))
                  (blocksOf_length _ _) (Scan_shapes _ _ _ Hs)).
    lia.
Qed.

(** ** The media box after annotation *)

(** X17. The media box only grows.  Annotation keeps the left edge
    and the width of the media box; its bottom edge moves down by
    [extraHeight] and its top edge moves up by [extraHeight], so the
    old media box lies within the new one.  The background rectangle
    that [annotatePage] draws lies within the width of the media box
    exactly when the text is at least ten units narrower than the page,
    counted from the left edge of the media box on both sides: a wider
    annotation runs over the page.  It ends below the old bottom edge
    exactly when the font is at most 18 units high at the annotation
    size. *)
Theorem media_box_only_grows (customFont : Font) (mapping : OrderMapping)
        (page : PDFPage) :
  let page' := annotatePage customFont mapping page in
  let old := mediaBox page in
  let new := mediaBox page' in
  let textWidth :=
    widthOfTextAtSize customFont (artPrefix ++ article mapping) fontSize in
  (box_x new == box_x old)%Q /\
  (box_width new == box_width old)%Q /\
  (box_y new == box_y old - extraHeight)%Q /\
  (box_y new + box_height new == box_y old + box_height old + extraHeight)%Q /\
  (box_y new <= box_y old)%Q /\
  (box_y old + box_height old <= box_y new + box_height new)%Q /\
  exists rx ry rw rh tx ty,
    drawn page' =
    drawn page ++ [OpRectangle rx ry rw rh white;
                   OpText (artPrefix ++ article mapping) tx ty fontSize black] /\
    ((box_x new <= rx /\ rx + rw <= box_x new + box_width new)%Q <->
     (2 * box_x old + textWidth + 10 <= box_width old /\
      textWidth + 10 <= box_width old + 2 * box_x old)%Q) /\
    ((ry + rh <= box_y old)%Q <-> (heightAtSize customFont fontSize <= 18)%Q).
Proof.
  intros page' old new textWidth.
  split; [reflexivity|]. split; [reflexivity|]. split; [reflexivity|].
  split; [unfold new, old, page', annotatePage, extraHeight; simpl; ring|].
  split; [unfold new, old, page', annotatePage, extraHeight; simpl; lra|].
  split; [unfold new, old, page', annotatePage, extraHeight; simpl; lra|].
  do 6 eexists. split; [apply annotatePage_drawn|].
  fold textWidth.
  unfold new, old, page', annotatePage, extraHeight.
  cbn [getSize setSize getMediaBox setMediaBox draw mediaBox
       box_x box_y box_width box_height].
  assert (E : (2 * ((box_width (mediaBox page) - textWidth) / 2) ==
               box_width (mediaBox page) - textWidth)%Q) by field.
  revert E. generalize ((box_width (mediaBox page) - textWidth) / 2)%Q.
  intros h E.
  split; [split; intros [H1 H2]; split; lra|].
  split; intros H; lra.
Qed.

(** ** The page *)

Lemma handleProcess_ends customFont orders labels :
  exists run,
    handleProcess customFont (Some orders) (Some labels) = Some run /\
    (outcome run = inl NoRecordsExtracted \/
     outcome run = inl NoMatchesFound \/
     outcome run =
       inr (List.map (fun p => annotateIfResolved customFont
                                 (flat_map pageRecords orders)
                                 (lp_items p) (lp_page p)) labels)).
Proof.
  unfold handleProcess. rewrite parseOrdersPdf_total.
  destruct (Nat.eqb (length (flat_map pageRecords orders)) 0).
  - eexists. split; [reflexivity|]. left. reflexivity.
  - rewrite processLabelsPdf_spec.
    destruct (Nat.eqb _ 0); eexists; (split; [reflexivity|]); simpl; auto.
Qed.

Lemma pageInvariant_step customFont st ev :
  pageInvariant st -> pageInvariant (step customFont st ev).
Proof.
  destruct st as [o l p e s r d]. unfold pageInvariant.
  cbn [isProcessing running error success].
  intros (Hr & Hl & He1 & He2 & Hes & Hp).
  destruct ev as [f|f| | |]; cbn [step].
  - cbn. tauto.
  - cbn. tauto.
  - unfold buttonDisabled. cbn [ordersFile labelsFile isProcessing].
    destruct o as [o|]; [|cbn; tauto].
    destruct l as [l|]; [|cbn; tauto].
    destruct p; [cbn; tauto|].
    assert (r = []).
    { destruct r; auto. exfalso.
      assert (false = true) by (apply Hr; discriminate). discriminate. }
    subst r. cbn.
    repeat split; auto; try discriminate; try lia.
  - cbn [running]. destruct r as [|[o' l'] rest]; [cbn; tauto|].
    assert (rest = []) by (destruct rest; simpl in Hl; [reflexivity|lia]). subst rest.
    assert (Hp' : p = true) by (apply Hr; discriminate).
    destruct (Hp Hp') as [-> ->].
    unfold handleProcess_settle.
    destruct (handleProcess_ends customFont o' l') as (run & -> & [E|[E|E]]);
      rewrite E; cbn;
      (split; [split; [discriminate|congruence]|]);
      (split; [lia|]);
      repeat split; try discriminate; try tauto;
      intros [H1 H2]; congruence.
  - cbn [running]. destruct r as [|[o' l'] rest]; [cbn; tauto|].
    assert (rest = []) by (destruct rest; simpl in Hl; [reflexivity|lia]). subst rest.
    assert (Hp' : p = true) by (apply Hr; discriminate).
    destruct (Hp Hp') as [-> ->]. cbn.
    (split; [split; [discriminate|congruence]|]);
      (split; [lia|]);
      repeat split; try discriminate; try tauto.
    intros [H1 H2]; congruence.
Qed.

Lemma pageInvariant_run customFont : forall events st,
  pageInvariant st -> pageInvariant (fold_left (step customFont) events st).
Proof.
  induction events as [|ev events IH]; intros st H; simpl; auto.
  apply IH. apply pageInvariant_step. exact H.
Qed.

Lemma pageInvariant_initial : pageInvariant initialState.
Proof.
  unfold pageInvariant. cbn.
  repeat split; try discriminate; try tauto; try lia.
Qed.

(** X18. The page after any events.  Whatever files are chosen and
    whenever the button is clicked, at most one run of the handler is
    under way, and the page shows the spinner exactly while one is; the
    message about a missing file is never shown, for the button is
    disabled until both files are chosen; no run asks for a page the
    document lacks; the error and the success message are never shown
    together, and none is shown while a run is under way. *)
Theorem page_invariant (customFont : Font) (events : list Event) :
  let st := fold_left (step customFont) events initialState in
  (isProcessing st = true <-> running st <> []) /\
  length (running st) <= 1 /\
  error st <> Some (Own MissingInput) /\
  error st <> Some (Own PageOutOfRange) /\
  ~ (error st <> None /\ success st = true) /\
  (isProcessing st = true -> error st = None /\ success st = false).
Proof.
  intros st. apply (pageInvariant_run customFont events initialState).
  apply pageInvariant_initial.
Qed.

Lemma choices_keep_run customFont : forall choices st,
  forallb isChoice choices = true ->
  let st' := fold_left (step customFont) choices st in
  isProcessing st' = isProcessing st /\ error st' = error st /\
  success st' = success st /\ running st' = running st /\
  downloaded st' = downloaded st.
Proof.
  induction choices as [|ev choices IH]; intros st H; simpl in *; [tauto|].
  apply andb_true_iff in H. destruct H as [Hev H].
  destruct (IH (step customFont st ev) H) as (-> & -> & -> & -> & ->).
  destruct ev; try discriminate; cbn; tauto.
Qed.

(** X19. One click.  On a page reached by any events, with both files
    chosen and no run under way, a click starts a run on the files
    chosen at that moment.  Until the run settles the button is
    disabled, and choosing other files meanwhile changes nothing of the
    run: when it settles, the spinner is gone, and either the document
    made from the files of the click has been downloaded and the
    success message is shown alone, or nothing has been downloaded and
    the error of that run is shown alone. *)
Theorem click_runs_on_chosen_files (customFont : Font)
        (events choices : list Event)
        (orders : list TextPage) (labels : list LabelPage) :
  let st := fold_left (step customFont) events initialState in
  ordersFile st = Some orders -> labelsFile st = Some labels ->
  isProcessing st = false ->
  forallb isChoice choices = true ->
  let st1 := step customFont st ClickProcess in
  let st2 := fold_left (step customFont) (choices ++ [Settle]) st1 in
  (forall before after, choices = before ++ after ->
     buttonDisabled (fold_left (step customFont) before st1) = true) /\
  isProcessing st2 = false /\ running st2 = [] /\
  exists run,
    handleProcess customFont (Some orders) (Some labels) = Some run /\
    match outcome run with
    | inr doc =>
        downloaded st2 = downloaded st ++ [doc] /\
        success st2 = true /\ error st2 = None
    | inl e =>
        downloaded st2 = downloaded st /\
        success st2 = false /\ error st2 = Some (Own e)
    end.
Proof.
  intros st Ho Hl Hp Hc st1 st2.
  pose proof (pageInvariant_run customFont events initialState pageInvariant_initial)
    as (Hr & _).
  fold st in Hr.
  assert (R : running st = []).
  { destruct (running st); auto. exfalso.
    assert (isProcessing st = true) by (apply Hr; discriminate). congruence. }
  assert (E1 : st1 = mkApp (Some orders) (Some labels) true None false
                           [(orders, labels)] (downloaded st)).
  { unfold st1. cbn [step]. unfold buttonDisabled, handleProcess_start.
    rewrite Ho, Hl, Hp, R.
    unfold setRunning, setSuccess, setError, setIsProcessing.
    cbn [ordersFile labelsFile isProcessing error success running downloaded app].
    rewrite Ho, Hl. reflexivity. }
  split.
  - intros before after E.
    assert (Hb : forallb isChoice before = true).
    { rewrite E, forallb_app in Hc. apply andb_true_iff in Hc. tauto. }
    destruct (choices_keep_run customFont before st1 Hb) as (Hi & _).
    set (sb := fold_left (step customFont) before st1) in *.
    rewrite E1 in Hi. cbn [isProcessing] in Hi.
    unfold buttonDisabled. rewrite Hi.
    destruct (ordersFile sb), (labelsFile sb); reflexivity.
  - unfold st2. rewrite fold_left_app.
    destruct (choices_keep_run customFont choices st1 Hc) as (Hi & He & Hs & Hrun & Hd).
    set (stc := fold_left (step customFont) choices st1) in *.
    rewrite E1 in Hi, He, Hs, Hrun, Hd.
    cbn [isProcessing error success running downloaded] in Hi, He, Hs, Hrun, Hd.
    cbn [fold_left step]. rewrite Hrun.
    unfold handleProcess_settle.
    destruct (handleProcess_ends customFont orders labels) as (run & Erun & Hcases).
    rewrite Erun.
    destruct (outcome run) as [e|doc] eqn:Eo.
    + cbn. rewrite Hd. split; [reflexivity|]. split; [reflexivity|].
      exists run. split; [reflexivity|]. rewrite Eo. rewrite Hs. auto.
    + cbn. rewrite Hd. split; [reflexivity|]. split; [reflexivity|].
      exists run. split; [reflexivity|]. rewrite Eo. rewrite He. auto.
Qed.

Lemma click_runs_on_chosen_files_instance :
  let st := fold_left (step sampleFont)
                      [ChooseOrders (Some scenarioOrders);
                       ChooseLabels (Some scenarioLabels)] initialState in
  let st1 := step sampleFont st ClickProcess in
  let st2 := fold_left (step sampleFont) ([ChooseOrders None] ++ [Settle]) st1 in
  (forall before after, [ChooseOrders None] = before ++ after ->
     buttonDisabled (fold_left (step sampleFont) before st1) = true) /\
  isProcessing st2 = false /\ running st2 = [] /\
  exists run,
    handleProcess sampleFont (Some scenarioOrders) (Some scenarioLabels) = Some run /\
    match outcome run with
    | inr doc =>
        downloaded st2 = downloaded st ++ [doc] /\
        success st2 = true /\ error st2 = None
    | inl e =>
        downloaded st2 = downloaded st /\
        success st2 = false /\ error st2 = Some (Own e)
    end.
Proof.
  apply (click_runs_on_chosen_files sampleFont
           [ChooseOrders (Some scenarioOrders); ChooseLabels (Some scenarioLabels)]
           [ChooseOrders None] scenarioOrders scenarioLabels);
    reflexivity.
Defined.

(** ** What the labels take from the orders *)

Lemma annotatePage_article customFont m m' page :
  article m = article m' ->
  annotatePage customFont m page = annotatePage customFont m' page.
Proof. unfold annotatePage. intros ->. reflexivity. Qed.

Lemma findMapping_same_keys : forall table table' s,
  List.map (fun r => (shippingNumber r, article r)) table =
  List.map (fun r => (shippingNumber r, article r)) table' ->
  option_map article (findMapping table s) =
  option_map article (findMapping table' s).
Proof.
  unfold findMapping.
  induction table as [|r table IH]; intros [|r' table'] s E; simpl in *;
    try discriminate; auto.
  inversion E as [[Ek Ea Et]]. rewrite Ek.
  destruct (jsstring_eqb (shippingNumber r') s); simpl.
  - f_equal. exact Ea.
  - apply IH. exact Et.
Qed.

Lemma annotateIfResolved_same_keys customFont table table' items page :
  List.map (fun r => (shippingNumber r, article r)) table =
  List.map (fun r => (shippingNumber r, article r)) table' ->
  resolved table items = resolved table' items /\
  annotateIfResolved customFont table items page =
  annotateIfResolved customFont table' items page.
Proof.
  intros E. unfold resolved, annotateIfResolved, resolvePage.
  destruct (js_match shippingRegex (pageText items)) as [m|]; [|auto].
  pose proof (findMapping_same_keys table table' (group 1 m) E) as H.
  destruct (findMapping table (group 1 m)) as [r|],
           (findMapping table' (group 1 m)) as [r'|]; simpl in H;
    try discriminate; auto.
  inversion H. split; [reflexivity|]. apply annotatePage_article. assumption.
Qed.

(** X20. The labels take the articles from the orders and nothing
    else.  Two orders documents whose records agree in shipping number
    and article, row by row, give the same run on any labels file: the
    same outcome, the same document, the same pages read.  The product
    names the parser extracts have no part in the result. *)
Theorem run_ignores_product_names (customFont : Font)
        (orders orders' : list TextPage) (labels : list LabelPage)
        (table table' : list OrderMapping) :
  parseOrdersPdf orders = Some table ->
  parseOrdersPdf orders' = Some table' ->
  List.map (fun r => (shippingNumber r, article r)) table =
  List.map (fun r => (shippingNumber r, article r)) table' ->
  handleProcess customFont (Some orders) (Some labels) =
  handleProcess customFont (Some orders') (Some labels).
Proof.
  intros P P' E. unfold handleProcess. rewrite P, P'.
  assert (L : length table = length table').
  { apply (f_equal (@length _)) in E. rewrite !length_map in E. exact E. }
  rewrite L. destruct (Nat.eqb (length table') 0); [reflexivity|].
  rewrite !processLabelsPdf_spec.
  assert (F : filter (fun p => resolved table (lp_items p)) labels =
              filter (fun p => resolved table' (lp_items p)) labels).
  { apply filter_ext. intros p.
    apply (annotateIfResolved_same_keys customFont table table' (lp_items p) (lp_page p) E). }
  assert (M : List.map (fun p => annotateIfResolved customFont table
                                   (lp_items p) (lp_page p)) labels =
              List.map (fun p => annotateIfResolved customFont table'
                                   (lp_items p) (lp_page p)) labels).
  { apply map_ext. intros p.
    apply (annotateIfResolved_same_keys customFont table table' (lp_items p) (lp_page p) E). }
  rewrite F, M. reflexivity.
Qed.

Lemma run_ignores_product_names_instance :
  handleProcess sampleFont
    (Some [[lit "0149711785-0110-1 Name F/034 1 1785"]]) (Some scenarioLabels) =
  handleProcess sampleFont
    (Some [[lit "0149711785-0110-1 Other words F/034 2 1786"]]) (Some scenarioLabels).
Proof.
  apply (run_ignores_product_names sampleFont
           [[lit "0149711785-0110-1 Name F/034 1 1785"]]
           [[lit "0149711785-0110-1 Other words F/034 2 1786"]]
           scenarioLabels
           [mkMapping sampleNumber (lit "F/034") (lit "Name")]
           [mkMapping sampleNumber (lit "F/034") (lit "Other words")]).
  - vm_compute. reflexivity.
  - vm_compute. reflexivity.
  - reflexivity.
Defined.

(** ** More pages of orders *)

Lemma findMapping_app_found table more s r :
  findMapping table s = Some r -> findMapping (table ++ more) s = Some r.
Proof.
  unfold findMapping. induction table as [|a table IH]; simpl; [discriminate|].
  destruct (jsstring_eqb (shippingNumber a) s); auto.
Qed.

Lemma findMapping_app_missing table more s :
  findMapping table s = None ->
  findMapping (table ++ more) s = findMapping more s.
Proof.
  unfold findMapping. induction table as [|a table IH]; simpl; auto.
  destruct (jsstring_eqb (shippingNumber a) s); [discriminate|auto].
Qed.

(** X21. Pages added at the end of the orders document change nothing
    for the label pages that resolved without them: the table of the
    longer document begins with the table of the shorter one, a label
    page that resolved resolves to the same record and is annotated in
    the same way, and a label page that did not resolve is looked up in
    the records of the added pages alone. *)
Theorem added_orders_keep_annotations (customFont : Font)
        (orders more : list TextPage) (items : TextPage) (page : PDFPage) :
  match parseOrdersPdf orders, parseOrdersPdf more,
        parseOrdersPdf (orders ++ more) with
  | Some table, Some added, Some longer =>
      longer = table ++ added /\
      match resolvePage table items with
      | Some mapping =>
          resolvePage longer items = Some mapping /\
          annotateIfResolved customFont longer items page =
          annotatePage customFont mapping page
      | None => resolvePage longer items = resolvePage added items
      end
  | _, _, _ => False
  end.
Proof.
  rewrite !parseOrdersPdf_total, flat_map_app.
  split; [reflexivity|].
  unfold annotateIfResolved, resolvePage.
  destruct (js_match shippingRegex (pageText items)) as [m|]; [|reflexivity].
  destruct (findMapping (flat_map pageRecords orders) (group 1 m)) as [r|] eqn:E.
  - rewrite (findMapping_app_found _ _ _ _ E). split; reflexivity.
  - apply findMapping_app_missing. exact E.
Qed.

(** ** A name on several lines *)

Lemma row_tail_extend ws tok q d4 R :
  all Cls.space ws -> row_tail_shape tok q d4 R -> row_tail_shape tok q d4 (ws ++ R).
Proof.
  intros Hws (ws1 & ws2 & ws3 & ws4 & opt & -> & H1 & N1 & Rest).
  exists (ws ++ ws1), ws2, ws3, ws4, opt.
  split; [rewrite <- app_assoc; reflexivity|].
  split; [apply all_app; auto|].
  split; [|exact Rest].
  destruct ws; simpl; [exact N1|discriminate].
Qed.

(** [rowEndRegex] matches where a one-line text is followed by the end
    of a row. *)
Lemma rowEnd_match_exists pos g tok q d4 R :
  all Cls.dot g -> row_tail_shape tok q d4 R ->
  match_at rowEndRegex pos (g ++ R) <> None.
Proof.
  intros Hg HR. rewrite <- (app_nil_r (g ++ R)).
  eapply match_at_complete. unfold rowEndRegex.
  eapply M_Seq with (w1 := g) (w2 := R).
  - apply M_Grp. apply M_Rep; simpl; auto; lia.
  - apply rowTail_complete. eauto.
Qed.

(** What the primary grammar returns, with what makes the match the
    first one and its first group the shortest. *)
Lemma primaryGrammar_inv block a nm :
  primaryGrammar block = Some (a, nm) ->
  exists sk g1 tok q d4 R,
    block = sk ++ g1 ++ R /\ all Cls.dot g1 /\ row_tail_shape tok q d4 R /\
    a = tok /\ nm = trim g1 /\
    (forall s1 s2, sk = s1 ++ s2 -> s2 <> [] ->
       match_at rowEndRegex (length s1) (s2 ++ g1 ++ R) = None) /\
    (forall g' r' t' q' d', g1 ++ R = g' ++ r' -> length g' < length g1 ->
       ~ row_tail_shape t' q' d' r').
Proof.
  unfold primaryGrammar, js_match.
  destruct (search rowEndRegex 0 block) as [m|] eqn:S0; [|discriminate].
  intros H. inversion H; subst; clear H.
  apply search_sound in S0.
  destruct S0 as (sk & rest' & E & Hi & Hm & Hnone).
  simpl in Hi. rewrite Hi in Hm. clear Hi.
  unfold match_at, rowEndRegex in Hm. cbn [run] in Hm.
  apply rep_lazy_shortest in Hm.
  destruct Hm as (g1 & suf & Eg & Hdot & _ & _ & Hk & Hmin).
  apply run_sound in Hk.
  destruct Hk as (w & rest2 & c' & Es & M & Hfin).
  apply rowTail_sound in M.
  destruct M as (-> & tok' & q' & d4' & Hshape & ->).
  rewrite app_nil_r in Es. subst suf.
  inversion Hfin; subst m; clear Hfin.
  cbn [group m_caps cap_get Nat.eqb].
  exists sk, g1, tok', q', d4', w.
  split; [subst; reflexivity|]. split; [exact Hdot|]. split; [exact Hshape|].
  split; [|split; [|split]].
  - apply trim_nonspace.
    destruct Hshape as (? & ? & ? & ? & ? & ? & ? & ? & ? & ? & ?); auto.
  - replace (length sk + length g1 - length sk) with (length g1) by lia.
    rewrite Eg, firstn_length_app by reflexivity. reflexivity.
  - intros s1 s2 E1 Hne. rewrite <- Eg. apply (Hnone s1 s2 E1 Hne).
  - intros g' r' t' q'' d' E1 Hlt HR.
    rewrite <- Eg in E1.
    specialize (Hmin g' r' E1 ltac:(lia) Hlt).
    revert Hmin. rewrite <- (app_nil_r r').
    eapply run_complete.
    + apply rowTail_complete. eauto.
    + discriminate.
Qed.

Lemma trimEnd_app_space a y : all Cls.space y -> trimEnd (a ++ y) = trimEnd a.
Proof.
  intros Hy. unfold trimEnd. rewrite rev_app_distr, dropWhile_app_all; auto.
  unfold all in *. rewrite forallb_forall in *. intros c Hc.
  apply Hy. apply in_rev. exact Hc.
Qed.

Lemma nonspace_is_dot c : Cls.space c = false -> Cls.dot c = true.
Proof.
  unfold Cls.space, Cls.dot. intros H.
  repeat (apply orb_false_iff in H; destruct H as [H ?]).
  apply negb_true_iff. assumption.
Qed.

Lemma takeWhile_app_stop p : forall a b,
  all p a -> stops p b -> takeWhile p (a ++ b) = a.
Proof.
  unfold all. induction a as [|x a IH]; intros b Ha Hb; simpl in *.
  - destruct b as [|y b]; simpl in *; [reflexivity|]. rewrite Hb. reflexivity.
  - apply andb_true_iff in Ha. destruct Ha as [-> Ha]. f_equal. auto.
Qed.

Lemma all_rev p s : all p s -> all p (rev s).
Proof.
  unfold all. rewrite !forallb_forall. intros H x Hx. apply H, in_rev, Hx.
Qed.

(** The last line of a text that ends with the one-line text [g],
    standing first or after a line terminator. *)
Lemma lastLine_app sk g :
  all Cls.dot g -> ends_with Cls.dot sk = false -> lastLine (sk ++ g) = g.
Proof.
  intros Hg Hsk. unfold lastLine. rewrite rev_app_distr.
  rewrite takeWhile_app_stop.
  - apply rev_involutive.
  - apply all_rev. exact Hg.
  - apply stops_starts_with. exact Hsk.
Qed.

Lemma trimEnd_split s :
  exists z, s = trimEnd s ++ z /\ all Cls.space z /\
            ends_with Cls.space (trimEnd s) = false.
Proof.
  unfold trimEnd, ends_with. rewrite rev_involutive.
  exists (rev (takeWhile Cls.space (rev s))).
  split; [|split].
  - rewrite <- rev_app_distr, <- take_drop. symmetry. apply rev_involutive.
  - apply all_rev. apply takeWhile_all.
  - apply starts_with_dropWhile.
Qed.

Lemma ends_with_last p (s : jsstring) c : ends_with p (s ++ [c]) = p c.
Proof. unfold ends_with. rewrite rev_app_distr. reflexivity. Qed.

Lemma ends_with_false_cases p (s : jsstring) :
  ends_with p s = false -> s = [] \/ exists s' c, s = s' ++ [c] /\ p c = false.
Proof.
  destruct s as [|x s] using rev_ind; [auto|]. clear IHs.
  rewrite ends_with_last. intros H. right. eauto.
Qed.

(** X22. A name on several lines.  On a text block that ends in the end
    of a row with no second reading, the primary grammar takes the token
    as the article and, as the product name, the last line of the text
    before the end of the row: that text without the whitespace that
    ends it, from its last line terminator on, trimmed.  What stands on
    earlier lines is dropped, since the first group of [rowEndRegex]
    does not cross a line terminator. *)
Theorem primaryGrammar_last_line (pre tok q d4 R : jsstring) :
  row_tail_shape tok q d4 R ->
  ~ all Cls.digit tok \/ length q <> 4 \/ length (words R) = 4 ->
  primaryGrammar (pre ++ R) = Some (tok, trim (lastLine (trimEnd pre))).
Proof.
  intros HR D.
  destruct (primaryGrammar_row_end pre tok q d4 R HR D) as (name & Hp & _).
  rewrite Hp. do 2 f_equal.
  destruct (primaryGrammar_inv _ _ _ Hp)
    as (sk & g1 & tok' & q' & d4' & R' & E & Hdot & HR' & _ & -> & Hnone & Hmin).
  (* the match does not start after [pre] *)
  assert (Lsk : length sk <= length pre).
  { destruct (Nat.le_gt_cases (length sk) (length pre)) as [|Hgt]; auto. exfalso.
    symmetry in E.
    destruct (app_split_le sk (g1 ++ R') pre R E ltac:(lia)) as (x & Ex & ER).
    assert (Nx : x <> []).
    { intros ->. rewrite app_nil_r in Ex. subst. lia. }
    specialize (Hnone pre x Ex Nx). rewrite <- ER in Hnone.
    revert Hnone. eapply rowEnd_at_tail; eauto. }
  destruct (app_split_le pre R sk (g1 ++ R') E Lsk) as (x & Ex & ER).
  (* the first group does not reach past [pre] *)
  assert (Lg : length g1 <= length x).
  { destruct (Nat.le_gt_cases (length g1) (length x)) as [|Hgt]; auto. exfalso.
    apply (Hmin x R tok q d4 ER Hgt HR). }
  destruct (app_split_le x R g1 R' (eq_sym ER) Lg) as (y & Ey & Ew).
  subst x R'.
  destruct (row_tail_token_unique y tok q d4 tok' q' d4' R HR HR' D) as [-> Hy].
  subst pre.
  rewrite app_assoc, trimEnd_app_space by exact Hy.
  (* the first group ends with no whitespace *)
  destruct (trimEnd_split g1) as (z & Eg & Hz & Hend).
  assert (Zn : z = []).
  { destruct z as [|c z'] eqn:Ez; [reflexivity|]. exfalso. rewrite <- Ez in *.
    apply (Hmin (trimEnd g1) (z ++ y ++ R) tok q d4).
    - rewrite Eg at 1. rewrite <- app_assoc. reflexivity.
    - rewrite Eg at 2. rewrite length_app. subst z. simpl. lia.
    - apply row_tail_extend; [exact Hz|]. apply row_tail_extend; auto. }
  subst z. rewrite app_nil_r in Eg.
  destruct (ends_with_false_cases _ _ Hend) as [Eg0|(g' & c & Eg' & Hc)].
  - (* the first group is empty: only whitespace stands before the row end *)
    rewrite <- Eg in Eg0. subst g1. rewrite app_nil_r. cbn [trim trimStart trimEnd].
    destruct (trimEnd_split sk) as (z & Es & Hz' & Hend').
    destruct (ends_with_false_cases _ _ Hend') as [->|(s' & c & Es' & Hc)];
      [reflexivity|].
    exfalso.
    assert (X : match_at rowEndRegex (length s') ((c :: z) ++ [] ++ y ++ R) = None).
    { apply Hnone; [|discriminate].
      rewrite Es at 1. rewrite Es', <- app_assoc. reflexivity. }
    revert X.
    change ((c :: z) ++ [] ++ y ++ R) with ([c] ++ (z ++ y ++ R)).
    apply rowEnd_match_exists with (tok := tok) (q := q) (d4 := d4).
    + unfold all. simpl. rewrite (nonspace_is_dot c Hc). reflexivity.
    + apply row_tail_extend; auto. apply row_tail_extend; auto.
  - (* the first group begins the line *)
    rewrite <- Eg in Eg'.
    assert (Hg : ends_with Cls.space (sk ++ g1) = false).
    { rewrite Eg', app_assoc, ends_with_last. exact Hc. }
    rewrite (trimEnd_stopped _ Hg).
    rewrite lastLine_app; [reflexivity|exact Hdot|].
    destruct sk as [|u sk'] using rev_ind; [reflexivity|]. clear IHsk'.
    rewrite ends_with_last.
    destruct (Cls.dot u) eqn:Hu; [|reflexivity]. exfalso.
    pose proof (Hnone sk' [u] eq_refl ltac:(discriminate)) as X. revert X.
    change ([u] ++ g1 ++ y ++ R) with ((u :: g1) ++ y ++ R).
    apply rowEnd_match_exists with (tok := tok) (q := q) (d4 := d4).
    + unfold all in *. simpl. rewrite Hu, Hdot. reflexivity.
    + apply row_tail_extend; auto.
Qed.

Lemma primaryGrammar_last_line_instance :
  primaryGrammar ((lit "Colour" ++ [10%N] ++ lit "Name ") ++ lit " F/034 1 1785") =
  Some (lit "F/034", lit "Name").
Proof.
  apply (primaryGrammar_last_line (lit "Colour" ++ [10%N] ++ lit "Name ")
           (lit "F/034") (lit "1") (lit "1785") (lit " F/034 1 1785")).
  - exists (lit " "), (lit " "), (lit " "), [], [].
    repeat split; try reflexivity; try discriminate.
    left. reflexivity.
  - left. vm_compute. discriminate.
Defined.
